(** * CryptID: Boneh-Franklin IBE and BSW CP-ABE protocol layer

    A shallow embedding of [src/CryptID_ABE.c] (the CP-ABE entry points
    [cryptid_setup_ABE], [compute_tree], [cryptid_encrypt_ABE],
    [cryptid_keygen_ABE], [Lagrange_coefficient], [DecryptNode_ABE],
    [cryptid_decrypt_ABE]) and of the Boneh-Franklin entry points
    [cryptid_setup], [cryptid_extract], [cryptid_encrypt], [cryptid_decrypt].

    The curve, pairing, hashing and random-number primitives these functions
    call live in other translation units.  They are collected in the record
    [Primitives]; the protocol code is written once over an arbitrary value of
    that record, and the algebraic facts about the primitives that a theorem
    needs (bilinearity of the pairing, the length of a digest) appear as
    explicit hypotheses of that theorem. *)

From Stdlib Require Import ZArith List Bool Lia.
From Stdlib.Strings Require String.
From Stdlib Require Import Zcong.
From Stdlib.Strings Require Byte.
Import ListNotations.

Local Open Scope Z_scope.

(* ================================================================== *)
(** ** Machine data *)

(** [mpz_t]: GMP integers are unbounded. *)
Definition mpz := Z.

(** Octets.  [char] and [unsigned char] buffers are lists of bytes; the
    bitwise [^] of two octets acts on their eight bits. *)
Abbreviation byte := Byte.byte.

Definition xor_bits (a b : bool * (bool * (bool * (bool * (bool * (bool * (bool * bool)))))))
  : bool * (bool * (bool * (bool * (bool * (bool * (bool * bool)))))) :=
  let '(a0, (a1, (a2, (a3, (a4, (a5, (a6, a7))))))) := a in
  let '(b0, (b1, (b2, (b3, (b4, (b5, (b6, b7))))))) := b in
  (xorb a0 b0, (xorb a1 b1, (xorb a2 b2, (xorb a3 b3,
   (xorb a4 b4, (xorb a5 b5, (xorb a6 b6, xorb a7 b7))))))).

Definition byte_xor (a b : byte) : byte :=
  Byte.of_bits (xor_bits (Byte.to_bits a) (Byte.to_bits b)).

(** The C type [int]: 32 bits, two's complement.  Arithmetic is carried out
    in [Z] and brought back into range by [wrap_int]. *)
Definition INT_MODULUS : Z := 2 ^ 32.
Definition INT_MIN : Z := - 2 ^ 31.

Definition wrap_int (z : Z) : Z := (z - INT_MIN) mod INT_MODULUS + INT_MIN.

Definition int_sub (a b : Z) : Z := wrap_int (a - b).
Definition int_mul (a b : Z) : Z := wrap_int (a * b).
(** [/] on [int] truncates towards zero.  A division by zero and the
    division of the least [int] by -1, whose quotient is no [int], have no
    result: the processor traps. *)
Definition int_div (a b : Z) : option Z :=
  if b =? 0 then None
  else if (a =? INT_MIN) && (b =? -1) then None
  else Some (Z.quot a b).

(** [mpz_init_set_ui] receives its [int] argument converted to
    [unsigned long] (64 bits). *)
Definition ULONG_MODULUS : Z := 2 ^ 64.
Definition int_to_ulong (z : Z) : Z := z mod ULONG_MODULUS.

(* ================================================================== *)
(** ** Status codes *)

(** The members of [CryptidStatus] that the protocol layer names.  The
    enumeration itself is declared in [util/Status.h]; its remaining members
    are only ever produced by the primitives and are kept by their numeric
    code. *)
Inductive CryptidStatus : Type :=
| CRYPTID_SUCCESS
| CRYPTID_MESSAGE_NULL_ERROR
| CRYPTID_MESSAGE_LENGTH_ERROR
| CRYPTID_IDENTITY_NULL_ERROR
| CRYPTID_IDENTITY_LENGTH_ERROR
| CRYPTID_PUBLIC_PARAMETERS_NULL_ERROR
| CRYPTID_RESULT_POINTER_NULL_ERROR
| CRYPTID_ILLEGAL_PUBLIC_PARAMETERS_ERROR
| CRYPTID_ILLEGAL_PRIVATE_KEY_ERROR
| CRYPTID_ILLEGAL_CIPHERTEXT_TUPLE_ERROR
| CRYPTID_DECRYPTION_FAILED_ERROR
| CRYPTID_PRIMITIVE_ERROR (code : positive).

(** [if (status)]: any member but [CRYPTID_SUCCESS] is non-zero. *)
Definition failed (st : CryptidStatus) : bool :=
  match st with
  | CRYPTID_SUCCESS => false
  | _ => true
  end.

(* ================================================================== *)
(** ** Lagrange coefficients *)

(** [int Lagrange_coefficient(int xi, int* S, int sLength, int x)].  The
    array [S] together with its length [sLength] is the list [S].  The test
    [&S[i] != NULL] holds for every element of an array.  The function has
    no result when one of its divisions has none. *)
Fixpoint Lagrange_coefficient_loop (xi : Z) (S : list Z) (x : Z) (result : Z)
  : option Z :=
  match S with
  | [] => Some result
  | Si :: rest =>
      if negb (Si =? xi)
      then match int_div (int_sub x Si) (int_sub xi Si) with
           | Some quotient =>
               Lagrange_coefficient_loop xi rest x (int_mul result quotient)
           | None => None
           end
      else Lagrange_coefficient_loop xi rest x result
  end.

Definition Lagrange_coefficient (xi : Z) (S : list Z) (x : Z) : option Z :=
  Lagrange_coefficient_loop xi S x 1.

(** The coefficient the specification asks for: the product, over the
    members [j] of [S] other than [i], of [(x - j) / (i - j)], where the
    quotient is taken in the integers modulo [q], that is by multiplying with
    the modular inverse of [i - j]. *)
Definition Lagrange_coefficient_mod (q : Z) (i : Z) (S : list Z) (x : Z) : Z :=
  fold_left
    (fun acc j =>
       if j =? i then acc
       else (acc * (((x - j) mod q) * Z.invmod (i - j) q)) mod q)
    S (1 mod q).

(* ================================================================== *)
(** ** Curve and field data *)

(** [EllipticCurve]: the curve y^2 = x^3 + a x + b over the field of
    [fieldOrder] elements; [ellipticCurve_init(a, b, p)] builds it. *)
Record EllipticCurve : Type := ellipticCurve_init
  { curve_a : mpz; curve_b : mpz; fieldOrder : mpz }.

(** Modelled from the spec: [AffinePoint] (declared in
    [elliptic/AffinePoint.h]) is either the point at infinity, a single
    distinguished value, or a pair of coordinates. *)
Inductive AffinePoint : Type :=
| Infinity
| Affine (x y : mpz).

(** Modelled from the spec: [affine_isInfinity] recognises the distinguished
    point at infinity. *)
Definition affine_isInfinity (P : AffinePoint) : bool :=
  match P with Infinity => true | Affine _ _ => false end.

(** Modelled from the spec: [affine_isEquals] compares two points, the point
    at infinity being equal to itself only. *)
Definition affine_isEquals (P Q : AffinePoint) : bool :=
  match P, Q with
  | Infinity, Infinity => true
  | Affine x1 y1, Affine x2 y2 => (x1 =? x2) && (y1 =? y2)
  | _, _ => false
  end.

(** [Complex]: an element [real + imaginary * i] of the quadratic extension. *)
Record Complex : Type := mkComplex { real : mpz; imaginary : mpz }.

Definition complex_initLong (r i : Z) : Complex := mkComplex r i.

(** [HashFunction]: the digest length in octets and the digest itself
    (the function pointer [sha_hash]). *)
Record HashFunction : Type := mkHashFunction
  { hashLength : nat; sha_hash : list byte -> list byte }.

Inductive SecurityLevel : Type := LOWEST | LOW | MEDIUM | HIGH | HIGHEST.

(** [(int) securityLevel]. *)
Definition level_index (l : SecurityLevel) : nat :=
  match l with LOWEST => 0 | LOW => 1 | MEDIUM => 2 | HIGH => 3 | HIGHEST => 4 end%nat.

(** Quantities of type [unsigned int] are kept in [Z]. *)
Definition SOLINAS_GENERATION_ATTEMPT_LIMIT : Z := 100.
Definition POINT_GENERATION_ATTEMPT_LIMIT : Z := 100.

Definition Q_LENGTH_MAPPING : list Z := [160; 224; 256; 384; 512].
Definition P_LENGTH_MAPPING : list Z := [512; 1024; 1536; 3840; 7680].

(** [P_LENGTH_MAPPING[l] - Q_LENGTH_MAPPING[l] - 3] *)
Definition lengthOfR_for (l : SecurityLevel) : Z :=
  nth (level_index l) P_LENGTH_MAPPING 0 - nth (level_index l) Q_LENGTH_MAPPING 0 - 3.

(* ================================================================== *)
(** ** The primitives of the other translation units *)

(** Every function that draws random numbers takes the state of the random
    source and returns the state after the draw.  A function with an out
    parameter and a status returns the status together with the content of
    the out parameter after the call. *)
Record Primitives : Type := mkPrimitives
  { Rand : Type;
    (* util/Random.h, util/RandBytes.h *)
    random_solinasPrime : Z -> Z -> Rand -> CryptidStatus * mpz * Rand;
    random_mpzOfLength : Z -> Rand -> mpz * Rand;
    random_mpzInRange : mpz -> Rand -> mpz * Rand;
    random_affinePoint : EllipticCurve -> Z -> Rand -> CryptidStatus * AffinePoint * Rand;
    randomBytes : nat -> Rand -> list byte * Rand;
    (* util/Validation.h *)
    validation_isProbablePrime : mpz -> bool;
    validation_isAffinePointValid : AffinePoint -> mpz -> bool;
    (* elliptic/AffinePoint.h *)
    affine_wNAFMultiply : mpz -> AffinePoint -> EllipticCurve -> CryptidStatus * AffinePoint;
    AFFINE_MULTIPLY_IMPL : mpz -> AffinePoint -> EllipticCurve -> CryptidStatus * AffinePoint;
    affine_add : AffinePoint -> AffinePoint -> EllipticCurve -> CryptidStatus * AffinePoint;
    (* elliptic/TatePairing.h *)
    tate_performPairing :
      Z -> EllipticCurve -> mpz -> AffinePoint -> AffinePoint -> CryptidStatus * Complex;
    (* complex/Complex.h *)
    complex_modPow : Complex -> mpz -> mpz -> Complex;
    complex_modMul : Complex -> Complex -> mpz -> Complex;
    complex_modMulScalar : Complex -> mpz -> mpz -> Complex;
    complex_multiplicativeInverse : Complex -> mpz -> CryptidStatus * Complex;
    (* util/HashFunction.h, util/Utils.h *)
    hashFunction_initForSecurityLevel : SecurityLevel -> HashFunction;
    hashToRange : list byte -> mpz -> HashFunction -> mpz;
    hashToPoint :
      EllipticCurve -> mpz -> mpz -> list byte -> HashFunction -> CryptidStatus * AffinePoint;
    canonical : mpz -> Complex -> Z -> list byte;
    hashBytes : nat -> list byte -> HashFunction -> list byte }.

(** [mpz_invert(rop, op1, op2)] of GMP.  When [op1] and [op2] are coprime,
    the inverse of [op1] modulo [op2] is stored in [rop], taken from
    [0 .. |op2| - 1]; when they are not, there is no inverse and [rop] keeps
    the value it had.  The return value, which tells the two cases apart, is
    not looked at by the callers below; they pass a [rop] that [mpz_init] has
    just set to 0. *)
Definition mpz_invert (rop op1 op2 : mpz) : mpz :=
  if Z.gcd op1 op2 =? 1 then Z.invmod op1 (Z.abs op2) else rop.

(** [mpz_init(x)] sets [x] to 0. *)
Definition mpz_init : mpz := 0.

(** What the two callers get from [mpz_invert], said without it: [k] is the
    inverse of [a] modulo [m] among [0 .. |m| - 1] if [a] has an inverse, and
    0 if it has none. *)
Definition inverse_or_zero (a m k : Z) : Prop :=
  (Z.gcd a m = 1 /\ 0 <= k < Z.abs m /\ (k * a) mod Z.abs m = 1 mod Z.abs m)
  \/ (Z.gcd a m <> 1 /\ k = 0).

(* ================================================================== *)
(** ** Buffers *)

(** A buffer obtained from [calloc(n + 1, 1)] whose first [n] octets are then
    filled from [src]: octets that [src] does not provide stay zero. *)
Definition calloc_fill (n : nat) (src : list byte) : list byte :=
  firstn n (src ++ repeat Byte.x00 n).

(** [for (i = 0; i < n; i++) dst[i] = a[i] ^ b[i];].  Reading past the end of
    [a] or [b] is undefined; the loop then has no result. *)
Fixpoint xor_loop (n : nat) (a b : list byte) : option (list byte) :=
  match n with
  | O => Some []
  | S n' =>
      match a, b with
      | x :: a', y :: b' =>
          match xor_loop n' a' b' with
          | Some r => Some (byte_xor x y :: r)
          | None => None
          end
      | _, _ => None
      end
  end.

(** [for (i = 0; i < n; i++) dst[off + i] = src[i];] *)
Fixpoint copy_loop (n : nat) (src : list byte) : option (list byte) :=
  match n with
  | O => Some []
  | S n' =>
      match src with
      | x :: src' =>
          match copy_loop n' src' with
          | Some r => Some (x :: r)
          | None => None
          end
      | [] => None
      end
  end.

(** A buffer that the caller hands over as a pointer with a length is the
    list of the octets it holds, and the length parameter is the length of
    that list; a pointer that may be null is an [option]. *)

Notation "'let?' x ':=' e 'in' k" :=
  (match e with Some x => k | None => None end)
  (at level 10, x pattern, e at level 100, k at level 200).

(* ================================================================== *)
(** ** The two search loops of the setup functions *)

(** [cryptid_setup] and [cryptid_setup_ABE] contain the same two [do]-[while]
    loops; the second one calls [affine_wNAFMultiply] in the former and
    [AFFINE_MULTIPLY_IMPL] in the latter. *)
Section SetupLoops.

Variable prim : Primitives.

(** [do { random_mpzOfLength(r, lengthOfR); p = 12 * r * q - 1; }
     while (!validation_isProbablePrime(p));]
    [fuel] bounds the number of iterations that are run; [None] says that the
    loop is still running when the fuel is used up. *)
Fixpoint select_p (fuel : nat) (q : mpz) (lengthOfR : Z) (rng : Rand prim)
  : option (mpz * mpz * Rand prim) :=
  match fuel with
  | O => None
  | S fuel' =>
      let '(r, rng1) := random_mpzOfLength prim lengthOfR rng in
      let p := r * 12 in
      let p := p * q in
      let p := p - 1 in
      if negb (validation_isProbablePrime prim p)
      then select_p fuel' q lengthOfR rng1
      else Some (r, p, rng1)
  end.

Variable multiply : mpz -> AffinePoint -> EllipticCurve -> CryptidStatus * AffinePoint.

(** [do { ... } while (affine_isInfinity(pointP));] with its two early
    returns.  The status is that of the early return, [CRYPTID_SUCCESS] when
    the loop is left through its condition. *)
Fixpoint select_pointP (fuel : nat) (r : mpz) (ec : EllipticCurve) (rng : Rand prim)
  : option (CryptidStatus * AffinePoint * Rand prim) :=
  match fuel with
  | O => None
  | S fuel' =>
      let '(status, pointPprime, rng1) :=
        random_affinePoint prim ec POINT_GENERATION_ATTEMPT_LIMIT rng in
      if failed status then Some (status, pointPprime, rng1)
      else
        let rMul := r in
        let rMul := rMul * 12 in
        let '(status, pointP) := multiply rMul pointPprime ec in
        if failed status then Some (status, pointP, rng1)
        else if affine_isInfinity pointP
             then select_pointP fuel' r ec rng1
             else Some (CRYPTID_SUCCESS, pointP, rng1)
  end.

(** One pass through the body of the second loop leaves the loop: an early
    return, or a point other than the point at infinity. *)
Definition point_attempt_leaves (r : mpz) (ec : EllipticCurve) (rng : Rand prim) : bool :=
  let '(status, pointPprime, _) :=
    random_affinePoint prim ec POINT_GENERATION_ATTEMPT_LIMIT rng in
  if failed status then true
  else
    let '(status, pointP) := multiply (r * 12) pointPprime ec in
    if failed status then true else negb (affine_isInfinity pointP).

(** The random source after [k] passes through the body of the first and of
    the second loop. *)
Definition rng_after_r_draws (lengthOfR : Z) (k : nat) (rng : Rand prim) : Rand prim :=
  Nat.iter k (fun g => snd (random_mpzOfLength prim lengthOfR g)) rng.

Definition rng_after_point_draws (ec : EllipticCurve) (k : nat) (rng : Rand prim)
  : Rand prim :=
  Nat.iter k (fun g => snd (random_affinePoint prim ec POINT_GENERATION_ATTEMPT_LIMIT g)) rng.

(** Some draw of [r] makes [12 * r * q - 1] pass the primality test. *)
Definition eventually_prime (q : mpz) (lengthOfR : Z) (rng : Rand prim) : Prop :=
  exists k : nat,
    validation_isProbablePrime prim
      (fst (random_mpzOfLength prim lengthOfR (rng_after_r_draws lengthOfR k rng)) * 12 * q - 1)
    = true.

(** Some pass through the body of the second loop leaves it. *)
Definition eventually_leaves (r : mpz) (ec : EllipticCurve) (rng : Rand prim) : Prop :=
  exists k : nat, point_attempt_leaves r ec (rng_after_point_draws ec k rng) = true.

End SetupLoops.

(* ================================================================== *)
(** ** Boneh-Franklin identity-based encryption *)

Module IBE.

(** The Boneh-Franklin translation unit still spells the status type and its
    members without the [CRYPTID_] prefix. *)
Abbreviation Status := CryptidStatus.
Abbreviation SUCCESS := CRYPTID_SUCCESS.
Abbreviation MESSAGE_NULL_ERROR := CRYPTID_MESSAGE_NULL_ERROR.
Abbreviation MESSAGE_LENGTH_ERROR := CRYPTID_MESSAGE_LENGTH_ERROR.
Abbreviation IDENTITY_NULL_ERROR := CRYPTID_IDENTITY_NULL_ERROR.
Abbreviation IDENTITY_LENGTH_ERROR := CRYPTID_IDENTITY_LENGTH_ERROR.
Abbreviation PUBLIC_PARAMETERS_NULL_ERROR := CRYPTID_PUBLIC_PARAMETERS_NULL_ERROR.
Abbreviation RESULT_POINTER_NULL_ERROR := CRYPTID_RESULT_POINTER_NULL_ERROR.
Abbreviation ILLEGAL_PUBLIC_PARAMETERS_ERROR := CRYPTID_ILLEGAL_PUBLIC_PARAMETERS_ERROR.
Abbreviation ILLEGAL_PRIVATE_KEY_ERROR := CRYPTID_ILLEGAL_PRIVATE_KEY_ERROR.
Abbreviation ILLEGAL_CIPHERTEXT_TUPLE_ERROR := CRYPTID_ILLEGAL_CIPHERTEXT_TUPLE_ERROR.
Abbreviation DECRYPTION_FAILED_ERROR := CRYPTID_DECRYPTION_FAILED_ERROR.

Record PublicParameters : Type := mkPublicParameters
  { ellipticCurve : EllipticCurve;
    q : mpz;
    pointP : AffinePoint;
    pointPpublic : AffinePoint;
    hashFunction : HashFunction }.

Record CipherTextTuple : Type := mkCipherTextTuple
  { cipherU : AffinePoint;
    cipherV : list byte;
    cipherW : list byte }.

Definition cipherVLength (c : CipherTextTuple) : nat := length c.(cipherV).
Definition cipherWLength (c : CipherTextTuple) : nat := length c.(cipherW).

(** Modelled from the spec: [cipherTextTuple_init] (its header says that
    [cipherV] and [cipherW] "will be copied") stores the point, the two
    copies of the first [cipherVLength] and [cipherWLength] octets of the two
    buffers. *)
Definition cipherTextTuple_init (U : AffinePoint) (V : list byte) (VLength : nat)
    (W : list byte) (WLength : nat) : CipherTextTuple :=
  mkCipherTextTuple U (firstn VLength V) (firstn WLength W).

Section Protocol.

Variable prim : Primitives.

(** The two validation routines of [util/Validation.h] that look at the
    structures of this translation unit. *)
Variable validation_isPublicParametersValid : PublicParameters -> bool.
Variable validation_isCipherTextTupleValid : CipherTextTuple -> mpz -> bool.

(** *** [cryptid_setup] *)

(** [Status cryptid_setup(SecurityLevel, PublicParameters*, mpz_t masterSecret)].
    [publicParameters] is [None] for a null pointer and otherwise the content
    of the structure pointed to; the result carries the status, the content
    of the two out parameters after the call and the random source. *)
Definition cryptid_setup (fuel : nat) (securityLevel : SecurityLevel)
    (publicParameters : option PublicParameters) (masterSecret : mpz) (rng : Rand prim)
  : option (Status * option PublicParameters * mpz * Rand prim) :=
  match publicParameters with
  | None => Some (PUBLIC_PARAMETERS_NULL_ERROR, publicParameters, masterSecret, rng)
  | Some _ =>
      let '(status, q, rng) :=
        random_solinasPrime prim (nth (level_index securityLevel) Q_LENGTH_MAPPING 0)
                            SOLINAS_GENERATION_ATTEMPT_LIMIT rng in
      if failed status then Some (status, publicParameters, masterSecret, rng)
      else
        let lengthOfR := lengthOfR_for securityLevel in
        let? (r, p, rng) := select_p prim fuel q lengthOfR rng in
        let zero := 0 in
        let one := 1 in
        let ec := ellipticCurve_init zero one p in
        let? (status, pointP, rng) :=
          select_pointP prim (affine_wNAFMultiply prim) fuel r ec rng in
        if failed status then Some (status, publicParameters, masterSecret, rng)
        else
          let qMinusTwo := q - 2 in
          let '(s, rng) := random_mpzInRange prim qMinusTwo rng in
          let s := s + 2 in
          let '(status, pointPpublic) := affine_wNAFMultiply prim s pointP ec in
          if failed status then Some (status, publicParameters, masterSecret, rng)
          else
            Some (SUCCESS,
                  Some (mkPublicParameters ec q pointP pointPpublic
                          (hashFunction_initForSecurityLevel prim securityLevel)),
                  s, rng)
  end.

(** *** [cryptid_extract] *)

(** [result] is [None] for a null pointer, otherwise the point stored where
    it points. *)
Definition cryptid_extract (result : option AffinePoint) (identity : list byte)
    (publicParameters : PublicParameters) (masterSecret : mpz)
  : Status * option AffinePoint :=
  match result with
  | None => (RESULT_POINTER_NULL_ERROR, result)
  | Some _ =>
      let identityLength := length identity in
      if (identityLength =? 0)%nat then (IDENTITY_LENGTH_ERROR, result)
      else if negb (validation_isPublicParametersValid publicParameters)
      then (ILLEGAL_PUBLIC_PARAMETERS_ERROR, result)
      else
        let '(status, qId) :=
          hashToPoint prim publicParameters.(ellipticCurve)
            publicParameters.(ellipticCurve).(fieldOrder) publicParameters.(q)
            identity publicParameters.(hashFunction) in
        if failed status then (status, result)
        else
          let '(status, point) :=
            affine_wNAFMultiply prim masterSecret qId publicParameters.(ellipticCurve) in
          (status, Some point)
  end.

(** Bilinearity of the pairing, in the form the round trip needs it: for
    integers [a], [b] and points [A], [B] such that [a A] and [b B] are not
    the point at infinity, the pairing of [a A] with [b B] is the pairing of
    [b A] with [B], raised to the power [a]. *)
Definition pairing_bilinear (ec : EllipticCurve) (q : mpz) : Prop :=
  forall (a b : mpz) (A B aA bB bA : AffinePoint) (theta : Complex),
    affine_wNAFMultiply prim a A ec = (SUCCESS, aA) ->
    affine_wNAFMultiply prim b B ec = (SUCCESS, bB) ->
    affine_wNAFMultiply prim b A ec = (SUCCESS, bA) ->
    affine_isInfinity aA = false ->
    affine_isInfinity bB = false ->
    tate_performPairing prim 2 ec q bA B = (SUCCESS, theta) ->
    tate_performPairing prim 2 ec q aA bB
    = (SUCCESS, complex_modPow prim theta a ec.(fieldOrder)).

(** *** [cryptid_encrypt] *)

(** [result] is the content of [*result] before the call.  The outcome is
    [None] when the code reads a buffer past its end. *)
Definition cryptid_encrypt (result : CipherTextTuple) (message : option (list byte))
    (identity : option (list byte)) (publicParameters : PublicParameters)
    (rng : Rand prim)
  : option (Status * CipherTextTuple * Rand prim) :=
  match message with
  | None => Some (MESSAGE_NULL_ERROR, result, rng)
  | Some message =>
  let messageLength := length message in
  if (messageLength =? 0)%nat then Some (MESSAGE_LENGTH_ERROR, result, rng) else
  match identity with
  | None => Some (IDENTITY_NULL_ERROR, result, rng)
  | Some id =>
  let identityLength := length id in
  if (identityLength =? 0)%nat then Some (IDENTITY_LENGTH_ERROR, result, rng) else
  if negb (validation_isPublicParametersValid publicParameters)
  then Some (ILLEGAL_PUBLIC_PARAMETERS_ERROR, result, rng) else
  let hashLen := publicParameters.(hashFunction).(hashLength) in
  let '(status, pointQId) :=
    hashToPoint prim publicParameters.(ellipticCurve)
      publicParameters.(ellipticCurve).(fieldOrder) publicParameters.(q)
      id publicParameters.(hashFunction) in
  if failed status then Some (status, result, rng) else
  let '(drawn, rng) := randomBytes prim hashLen rng in
  let rho := calloc_fill hashLen drawn in
  let t := publicParameters.(hashFunction).(sha_hash) message in
  let? concat_lo := copy_loop hashLen rho in
  let? concat_hi := copy_loop hashLen t in
  let concat := concat_lo ++ concat_hi in
  let l := hashToRange prim concat publicParameters.(q) publicParameters.(hashFunction) in
  let '(status, cipherPointU) :=
    affine_wNAFMultiply prim l publicParameters.(pointP) publicParameters.(ellipticCurve) in
  if failed status then Some (status, result, rng) else
  let '(status, theta) :=
    tate_performPairing prim 2 publicParameters.(ellipticCurve) publicParameters.(q)
      publicParameters.(pointPpublic) pointQId in
  if failed status then Some (status, result, rng) else
  let thetaPrime :=
    complex_modPow prim theta l publicParameters.(ellipticCurve).(fieldOrder) in
  let z := canonical prim publicParameters.(ellipticCurve).(fieldOrder) thetaPrime 1 in
  let w := publicParameters.(hashFunction).(sha_hash) z in
  let? cipherV := xor_loop hashLen w rho in
  let hashedBytes := hashBytes prim messageLength rho publicParameters.(hashFunction) in
  let? cipherW := xor_loop messageLength hashedBytes message in
  Some (SUCCESS,
        cipherTextTuple_init cipherPointU cipherV hashLen cipherW messageLength,
        rng)
  end
  end.

(** The integer [l] that [cryptid_encrypt] derives from the message and from
    the octets [rho] it draws. *)
Definition encrypt_l (message : list byte) (publicParameters : PublicParameters)
    (rng : Rand prim) : mpz :=
  let hashLen := publicParameters.(hashFunction).(hashLength) in
  let rho := calloc_fill hashLen (fst (randomBytes prim hashLen rng)) in
  let t := publicParameters.(hashFunction).(sha_hash) message in
  hashToRange prim (rho ++ firstn hashLen t) publicParameters.(q)
    publicParameters.(hashFunction).

(** *** [cryptid_decrypt] *)

(** The middle part of [cryptid_decrypt], from [canonical] to
    [hashToRange]: from the pairing value [theta] it recomputes [rho], the
    candidate plaintext [m] and the integer [l]. *)
Definition decrypt_recompute (theta : Complex) (ciphertext : CipherTextTuple)
    (publicParameters : PublicParameters) : option (list byte * mpz) :=
  let hashLen := publicParameters.(hashFunction).(hashLength) in
  let z := canonical prim publicParameters.(ellipticCurve).(fieldOrder) theta 1 in
  let w := publicParameters.(hashFunction).(sha_hash) z in
  let? rho := xor_loop hashLen w ciphertext.(cipherV) in
  let hashedBytes :=
    hashBytes prim (cipherWLength ciphertext) rho publicParameters.(hashFunction) in
  let? m := xor_loop (cipherWLength ciphertext) hashedBytes ciphertext.(cipherW) in
  let t := publicParameters.(hashFunction).(sha_hash) m in
  let? concat_lo := copy_loop hashLen rho in
  let? concat_hi := copy_loop hashLen t in
  let concat := concat_lo ++ concat_hi in
  let l := hashToRange prim concat publicParameters.(q) publicParameters.(hashFunction) in
  Some (m, l).

(** [result] is the content of [*result] before the call: [None] as long as
    no plaintext has been stored there.  The outcome is [None] when the code
    reads a buffer past its end. *)
Definition cryptid_decrypt (result : option (list byte)) (privateKey : AffinePoint)
    (ciphertext : CipherTextTuple) (publicParameters : PublicParameters)
  : option (Status * option (list byte)) :=
  if negb (validation_isPublicParametersValid publicParameters)
  then Some (ILLEGAL_PUBLIC_PARAMETERS_ERROR, result) else
  if negb (validation_isAffinePointValid prim privateKey
             publicParameters.(ellipticCurve).(fieldOrder))
  then Some (ILLEGAL_PRIVATE_KEY_ERROR, result) else
  if negb (validation_isCipherTextTupleValid ciphertext
             publicParameters.(ellipticCurve).(fieldOrder))
  then Some (ILLEGAL_CIPHERTEXT_TUPLE_ERROR, result) else
  let '(status, theta) :=
    tate_performPairing prim 2 publicParameters.(ellipticCurve) publicParameters.(q)
      ciphertext.(cipherU) privateKey in
  if failed status then Some (status, result) else
  let? (m, l) := decrypt_recompute theta ciphertext publicParameters in
  let '(status, testPoint) :=
    affine_wNAFMultiply prim l publicParameters.(pointP) publicParameters.(ellipticCurve) in
  if failed status then Some (status, result) else
  if affine_isEquals ciphertext.(cipherU) testPoint
  then Some (SUCCESS, Some m)
  else Some (DECRYPTION_FAILED_ERROR, result).

End Protocol.
End IBE.

(* ================================================================== *)
(** ** Bethencourt-Sahai-Waters ciphertext-policy attribute-based encryption *)

Module ABE.

Record PublicKey_ABE : Type := mkPublicKey_ABE
  { ellipticCurve : EllipticCurve;
    g : AffinePoint;
    h : AffinePoint;
    f : AffinePoint;
    eggalpha : Complex;
    hashFunction : HashFunction;
    q : mpz }.

(** [pubkey] points to the public key; the structure pointed to is kept by
    value, since the functions below only read through the pointer. *)
Record MasterKey_ABE : Type := mkMasterKey_ABE
  { beta : mpz;
    g_alpha : AffinePoint;
    mk_pubkey : PublicKey_ABE }.

(** The arrays [Dj], [DjA] and [attributes] have [MAX_ATTRIBUTES] entries; an
    entry of [attributes] that is not in use is the empty string. *)
Record SecretKey_ABE : Type := mkSecretKey_ABE
  { D : AffinePoint;
    Dj : list AffinePoint;
    DjA : list AffinePoint;
    attributes : list String.string;
    sk_pubkey : PublicKey_ABE }.

(** A node of the access tree.  [children] is the array of [MAX_CHILDREN]
    pointers, [None] for a null pointer. *)
#[local] Unset Elimination Schemes.
Inductive AccessTree : Type := mkAccessTree
  { value : Z;
    children : list (option AccessTree);
    attribute : String.string;
    attributeLength : nat;
    Cy : AffinePoint;
    CyA : AffinePoint }.
#[local] Set Elimination Schemes.

Record EncryptedMessage_ABE : Type := mkEncryptedMessage_ABE
  { tree : AccessTree;
    Ctilde : Complex;
    C : AffinePoint }.

(** Assignments to single members. *)
Definition set_ellipticCurve (pk : PublicKey_ABE) (v : EllipticCurve) :=
  mkPublicKey_ABE v pk.(g) pk.(h) pk.(f) pk.(eggalpha) pk.(hashFunction) pk.(q).
Definition set_g (pk : PublicKey_ABE) (v : AffinePoint) :=
  mkPublicKey_ABE pk.(ellipticCurve) v pk.(h) pk.(f) pk.(eggalpha) pk.(hashFunction) pk.(q).
Definition set_h (pk : PublicKey_ABE) (v : AffinePoint) :=
  mkPublicKey_ABE pk.(ellipticCurve) pk.(g) v pk.(f) pk.(eggalpha) pk.(hashFunction) pk.(q).
Definition set_f (pk : PublicKey_ABE) (v : AffinePoint) :=
  mkPublicKey_ABE pk.(ellipticCurve) pk.(g) pk.(h) v pk.(eggalpha) pk.(hashFunction) pk.(q).
Definition set_eggalpha (pk : PublicKey_ABE) (v : Complex) :=
  mkPublicKey_ABE pk.(ellipticCurve) pk.(g) pk.(h) pk.(f) v pk.(hashFunction) pk.(q).
Definition set_hashFunction (pk : PublicKey_ABE) (v : HashFunction) :=
  mkPublicKey_ABE pk.(ellipticCurve) pk.(g) pk.(h) pk.(f) pk.(eggalpha) v pk.(q).
Definition set_q (pk : PublicKey_ABE) (v : mpz) :=
  mkPublicKey_ABE pk.(ellipticCurve) pk.(g) pk.(h) pk.(f) pk.(eggalpha) pk.(hashFunction) v.

Definition set_beta (mk : MasterKey_ABE) (v : mpz) :=
  mkMasterKey_ABE v mk.(g_alpha) mk.(mk_pubkey).
Definition set_g_alpha (mk : MasterKey_ABE) (v : AffinePoint) :=
  mkMasterKey_ABE mk.(beta) v mk.(mk_pubkey).
Definition set_mk_pubkey (mk : MasterKey_ABE) (v : PublicKey_ABE) :=
  mkMasterKey_ABE mk.(beta) mk.(g_alpha) v.

Definition set_D (sk : SecretKey_ABE) (v : AffinePoint) :=
  mkSecretKey_ABE v sk.(Dj) sk.(DjA) sk.(attributes) sk.(sk_pubkey).
Definition set_Dj (sk : SecretKey_ABE) (v : list AffinePoint) :=
  mkSecretKey_ABE sk.(D) v sk.(DjA) sk.(attributes) sk.(sk_pubkey).
Definition set_DjA (sk : SecretKey_ABE) (v : list AffinePoint) :=
  mkSecretKey_ABE sk.(D) sk.(Dj) v sk.(attributes) sk.(sk_pubkey).
Definition set_attributes (sk : SecretKey_ABE) (v : list String.string) :=
  mkSecretKey_ABE sk.(D) sk.(Dj) sk.(DjA) v sk.(sk_pubkey).
Definition set_sk_pubkey (sk : SecretKey_ABE) (v : PublicKey_ABE) :=
  mkSecretKey_ABE sk.(D) sk.(Dj) sk.(DjA) sk.(attributes) v.

Definition set_children (t : AccessTree) (v : list (option AccessTree)) :=
  mkAccessTree t.(value) v t.(attribute) t.(attributeLength) t.(Cy) t.(CyA).
Definition set_Cy_CyA (t : AccessTree) (v w : AffinePoint) :=
  mkAccessTree t.(value) t.(children) t.(attribute) t.(attributeLength) v w.

(** [a[i] = v] on an array kept as a list. *)
Fixpoint array_store {A : Type} (a : list A) (i : nat) (v : A) : list A :=
  match a, i with
  | [], _ => []
  | _ :: rest, O => v :: rest
  | x :: rest, S i' => x :: array_store rest i' v
  end.

(** [s[0] != '\0'] *)
Definition nonempty (s : String.string) : bool :=
  match s with String.EmptyString => false | String.String _ _ => true end.

(** [(unsigned long) (long) c] for a [char] [c]; [char] is signed and
    [long] has 64 bits on the platforms the library is built for. *)
Definition char_to_ulong (c : byte) : Z :=
  let v := Z.of_N (Byte.to_N c) in
  if v <? 128 then v else v - 256 + ULONG_MODULUS.

(** [mpz_import(M, count, 1, sizeof(unsigned long), 0, 0, values)]: the words
    of [values], most significant word first. *)
Definition mpz_import_words (values : list Z) : mpz :=
  fold_left (fun acc w => acc * ULONG_MODULUS + w) values 0.

(** A value of type [Complex*] as [DecryptNode_ABE] keeps it in [Sx]: the
    null pointer, the address [&F] of the local [F] of an iteration of the
    first loop, with the value [F] held when that iteration ended, or some
    other value that is not null, as an entry that was never assigned may
    hold. *)
Inductive Pointer : Type :=
| NullPointer
| AddressOfF (F : Complex)
| StrayPointer.

(** [p == NULL] *)
Definition is_null (p : Pointer) : bool :=
  match p with NullPointer => true | _ => false end.

(** [*p].  The null pointer and a stray pointer point to no object.  Neither
    does [&F] outside the iteration that took it: [F] is declared in the
    body of the first loop and ends with each iteration. *)
Definition dereference (p : Pointer) : option Complex :=
  match p with
  | NullPointer => None
  | AddressOfF _ => None
  | StrayPointer => None
  end.

(** [a[i]] and [a[i] = v] for an array kept as the list of its elements:
    outside the array they have no result. *)
Definition array_read {A : Type} (a : list A) (i : Z) : option A :=
  if (0 <=? i) && (i <? Z.of_nat (length a)) then nth_error a (Z.to_nat i) else None.

Definition array_write {A : Type} (a : list A) (i : Z) (v : A) : option (list A) :=
  if (0 <=? i) && (i <? Z.of_nat (length a))
  then Some (array_store a (Z.to_nat i) v) else None.

(** Automatic objects that the code reads before it has given them a value.
    The values such objects hold are not determined by the program; they are
    supplied from outside and every statement below holds for all of them. *)
Record Indeterminate : Type := mkIndeterminate
  { auto_Complex : Complex;                (* [Complex F;], [Complex A;] *)
    auto_Sx : list Pointer;                (* [Complex* Sx[MAX_CHILDREN];] *)
    auto_indexes : list Z }.               (* [int indexes[num];] *)

(** An automatic array of [n] elements with the content [auto]. *)
Definition automatic_array {A : Type} (n : nat) (auto : list A) (filler : A) : list A :=
  firstn n (auto ++ repeat filler n).

Section Protocol.

Variable prim : Primitives.

(** [ATTRIBUTE_LENGTH] and the functions of the access-tree translation unit
    and of the random-number helper that the protocol calls. *)
Variable ATTRIBUTE_LENGTH : nat.
Variable Polynom : Type.
Variable createPolynom : Z -> mpz -> PublicKey_ABE -> Rand prim -> Polynom * Rand prim.
Variable polynomSum : Polynom -> Z -> mpz.
Variable isLeaf : AccessTree -> bool.
Variable satisfyValue : AccessTree -> list String.string -> Z.
Variable ABE_randomNumber : PublicKey_ABE -> Rand prim -> mpz * Rand prim.

(** *** [cryptid_setup_ABE] *)

(** [publickey] and [masterkey] are the contents of the two structures before
    the call; the result carries their contents after the call. *)
Definition cryptid_setup_ABE (fuel : nat) (securityLevel : SecurityLevel)
    (publickey : PublicKey_ABE) (masterkey : MasterKey_ABE) (rng : Rand prim)
  : option (CryptidStatus * PublicKey_ABE * MasterKey_ABE * Rand prim) :=
  let '(status, q_, rng) :=
    random_solinasPrime prim (nth (level_index securityLevel) Q_LENGTH_MAPPING 0)
                        SOLINAS_GENERATION_ATTEMPT_LIMIT rng in
  if failed status then Some (status, publickey, masterkey, rng) else
  let lengthOfR := lengthOfR_for securityLevel in
  let? (r, p, rng) := select_p prim fuel q_ lengthOfR rng in
  let zero := 0 in
  let one := 1 in
  let ec := ellipticCurve_init zero one p in
  let? (status, pointP, rng) :=
    select_pointP prim (AFFINE_MULTIPLY_IMPL prim) fuel r ec rng in
  if failed status then Some (status, publickey, masterkey, rng) else
  let pMinusOne := p - 1 in
  let '(alpha, rng) := random_mpzInRange prim pMinusOne rng in
  let '(beta_, rng) := random_mpzInRange prim pMinusOne rng in
  let publickey := set_ellipticCurve publickey ec in
  let publickey := set_g publickey pointP in
  let '(status, h_) :=
    AFFINE_MULTIPLY_IMPL prim beta_ publickey.(g) publickey.(ellipticCurve) in
  let publickey := set_h publickey h_ in
  if failed status then Some (status, publickey, masterkey, rng) else
  let beta_inverse := mpz_init in
  let beta_inverse :=
    mpz_invert beta_inverse beta_ publickey.(ellipticCurve).(fieldOrder) in
  let '(status, f_) :=
    AFFINE_MULTIPLY_IMPL prim beta_inverse publickey.(g) publickey.(ellipticCurve) in
  let publickey := set_f publickey f_ in
  if failed status then Some (status, publickey, masterkey, rng) else
  let masterkey := set_beta masterkey beta_ in
  let '(status, g_alpha_) :=
    AFFINE_MULTIPLY_IMPL prim alpha publickey.(g) publickey.(ellipticCurve) in
  let masterkey := set_g_alpha masterkey g_alpha_ in
  if failed status then Some (status, publickey, masterkey, rng) else
  let publickey := set_q publickey q_ in
  let publickey :=
    set_hashFunction publickey (hashFunction_initForSecurityLevel prim securityLevel) in
  let '(status, pairValue) := tate_performPairing prim 2 ec q_ pointP pointP in
  if failed status then Some (status, publickey, masterkey, rng) else
  let eggalpha_ := complex_modPow prim pairValue alpha publickey.(ellipticCurve).(fieldOrder) in
  let publickey := set_eggalpha publickey eggalpha_ in
  let masterkey := set_mk_pubkey masterkey publickey in
  Some (CRYPTID_SUCCESS, publickey, masterkey, rng).

(** *** [compute_tree] *)

(** The function annotates the tree in place; the result carries the tree
    after the call.  The loop over the children starts at index 1, and the
    status of a recursive call is dropped. *)
Fixpoint compute_tree (accessTree : AccessTree) (s : mpz) (publickey : PublicKey_ABE)
    (rng : Rand prim) {struct accessTree} : CryptidStatus * AccessTree * Rand prim :=
  let d := accessTree.(value) - 1 in
  let '(qx, rng) := createPolynom d s publickey rng in
  if negb (isLeaf accessTree) then
    match accessTree.(children) with
    | [] => (CRYPTID_SUCCESS, accessTree, rng)
    | child0 :: others =>
        let '(others', rng) :=
          (fix loop (cs : list (option AccessTree)) (i : Z) (rng : Rand prim)
             : list (option AccessTree) * Rand prim :=
             match cs with
             | [] => ([], rng)
             | None :: cs' =>
                 let '(rest, rng) := loop cs' (i + 1) rng in
                 (None :: rest, rng)
             | Some child :: cs' =>
                 let sum := polynomSum qx i in
                 let '(_, child', rng) := compute_tree child sum publickey rng in
                 let '(rest, rng) := loop cs' (i + 1) rng in
                 (Some child' :: rest, rng)
             end) others 1 rng in
        (CRYPTID_SUCCESS, set_children accessTree (child0 :: others'), rng)
    end
  else
    let '(status, Cy_) :=
      AFFINE_MULTIPLY_IMPL prim s publickey.(g) publickey.(ellipticCurve) in
    if failed status then (status, accessTree, rng) else
    let '(status, hashedPoint) :=
      hashToPoint prim publickey.(ellipticCurve) publickey.(ellipticCurve).(fieldOrder)
        publickey.(q)
        (firstn accessTree.(attributeLength) (String.list_byte_of_string accessTree.(attribute)))
        publickey.(hashFunction) in
    if failed status then (status, accessTree, rng) else
    let '(status, CyA_) :=
      AFFINE_MULTIPLY_IMPL prim s hashedPoint publickey.(ellipticCurve) in
    if failed status then (status, accessTree, rng) else
    (CRYPTID_SUCCESS, set_Cy_CyA accessTree Cy_ CyA_, rng).

(** *** [cryptid_encrypt_ABE] *)

(** [encrypted] is the content of [*encrypted] before the call.  The result
    carries the status, [*encrypted] and the tree after the call. *)
Definition cryptid_encrypt_ABE (encrypted : EncryptedMessage_ABE)
    (message : option (list byte)) (publickey : option PublicKey_ABE)
    (accessTree : option AccessTree) (rng : Rand prim)
  : CryptidStatus * EncryptedMessage_ABE * option AccessTree * Rand prim :=
  match message with
  | None => (CRYPTID_MESSAGE_NULL_ERROR, encrypted, accessTree, rng)
  | Some msg =>
  let messageLength := length msg in
  if (messageLength =? 0)%nat
  then (CRYPTID_MESSAGE_LENGTH_ERROR, encrypted, accessTree, rng) else
  match publickey with
  | None => (CRYPTID_MESSAGE_NULL_ERROR, encrypted, accessTree, rng)
  | Some pk =>
  match accessTree with
  | None => (CRYPTID_MESSAGE_NULL_ERROR, encrypted, accessTree, rng)
  | Some tree_ =>
  let pMinusOne := pk.(ellipticCurve).(fieldOrder) - 1 in
  let values := map char_to_ulong msg in
  let M := mpz_import_words values in
  let '(s, rng) := random_mpzInRange prim pMinusOne rng in
  let '(_, tree_, rng) := compute_tree tree_ s pk rng in
  let eggalphas := complex_modPow prim pk.(eggalpha) s pk.(ellipticCurve).(fieldOrder) in
  let Ctilde_ := complex_modMulScalar prim eggalphas M pk.(ellipticCurve).(fieldOrder) in
  let '(status, C_) := AFFINE_MULTIPLY_IMPL prim s pk.(h) pk.(ellipticCurve) in
  let encrypted := mkEncryptedMessage_ABE tree_ Ctilde_ C_ in
  if failed status then (status, encrypted, Some tree_, rng) else
  (CRYPTID_SUCCESS, encrypted, Some tree_, rng)
  end
  end
  end.

(** *** [cryptid_keygen_ABE] *)

(** The body of [for (int i = 0; i < MAX_ATTRIBUTES; i++)], over the entries
    of [attributes] that are left, [i] being the index of the first of them. *)
Fixpoint keygen_loop (masterkey : MasterKey_ABE) (Gr : AffinePoint)
    (attrs : list String.string) (i : nat) (secretkey : SecretKey_ABE) (rng : Rand prim)
  : CryptidStatus * SecretKey_ABE * Rand prim :=
  let publickey := masterkey.(mk_pubkey) in
  match attrs with
  | [] => (CRYPTID_SUCCESS, secretkey, rng)
  | attr :: rest =>
      if nonempty attr then
        let attributeLength := Nat.min (String.length attr) ATTRIBUTE_LENGTH in
        let '(rj, rng) := ABE_randomNumber publickey rng in
        let '(status, Hj) :=
          hashToPoint prim publickey.(ellipticCurve) publickey.(ellipticCurve).(fieldOrder)
            publickey.(q) (firstn attributeLength (String.list_byte_of_string attr))
            publickey.(hashFunction) in
        if failed status then (status, secretkey, rng) else
        let '(status, HjRj) := AFFINE_MULTIPLY_IMPL prim rj Hj publickey.(ellipticCurve) in
        if failed status then (status, secretkey, rng) else
        let '(_, Dj_) := affine_add prim HjRj Gr publickey.(ellipticCurve) in
        let secretkey := set_Dj secretkey (array_store secretkey.(Dj) i Dj_) in
        let '(status, DjA_) :=
          AFFINE_MULTIPLY_IMPL prim rj publickey.(g) publickey.(ellipticCurve) in
        if failed status then (status, secretkey, rng) else
        let secretkey := set_DjA secretkey (array_store secretkey.(DjA) i DjA_) in
        let secretkey :=
          set_attributes secretkey (array_store secretkey.(attributes) i attr) in
        let secretkey := set_sk_pubkey secretkey masterkey.(mk_pubkey) in
        keygen_loop masterkey Gr rest (S i) secretkey rng
      else keygen_loop masterkey Gr rest (S i) secretkey rng
  end.

(** [attributes] is the array of [MAX_ATTRIBUTES] strings; [secretkey] is the
    content of [*secretkey] before the call. *)
Definition cryptid_keygen_ABE (masterkey : MasterKey_ABE)
    (attributes_ : list String.string) (secretkey : SecretKey_ABE) (rng : Rand prim)
  : CryptidStatus * SecretKey_ABE * Rand prim :=
  let publickey := masterkey.(mk_pubkey) in
  let '(r, rng) := ABE_randomNumber publickey rng in
  let '(status, Gr) :=
    AFFINE_MULTIPLY_IMPL prim r publickey.(g) publickey.(ellipticCurve) in
  if failed status then (status, secretkey, rng) else
  let '(status, Gar) :=
    AFFINE_MULTIPLY_IMPL prim r masterkey.(g_alpha) publickey.(ellipticCurve) in
  if failed status then (status, secretkey, rng) else
  (* affine_add(&Gar, masterkey->g_alpha, Gr, publickey->ellipticCurve); is
     commented out in the source *)
  let beta_inverse := mpz_init in
  let beta_inverse :=
    mpz_invert beta_inverse masterkey.(beta) publickey.(ellipticCurve).(fieldOrder) in
  let '(status, GarBi) :=
    AFFINE_MULTIPLY_IMPL prim beta_inverse Gar publickey.(ellipticCurve) in
  if failed status then (status, secretkey, rng) else
  let secretkey := set_D secretkey GarBi in
  keygen_loop masterkey Gr attributes_ 0 secretkey rng.


(** *** [DecryptNode_ABE] *)

(** The search of the leaf case: the index of the first entry of
    [attributes] that is in use and equal to [target], [-1] if there is none. *)
Fixpoint find_attribute (attrs : list String.string) (target : String.string) (i : Z) : Z :=
  match attrs with
  | [] => -1
  | a :: rest =>
      if nonempty a && String.eqb a target then i
      else find_attribute rest target (i + 1)
  end.

(** The first loop of the internal case, over the entries [cs] of [children]
    that are left and the entries [auto] of [Sx] at the same positions.
    [recurse] is the recursive call.  The loop gives [Sx] and [num]; an entry
    of [Sx] that the loop does not assign keeps what it held before.  The
    loop has no result when a recursive call has none. *)
Definition DecryptNode_children
    (recurse : AccessTree -> Complex -> Z -> option (CryptidStatus * Complex * Z))
    (stack : Indeterminate)
  : list (option AccessTree) -> list Pointer -> option (list Pointer * Z) :=
  fix loop (cs : list (option AccessTree)) (auto : list Pointer)
    : option (list Pointer * Z) :=
    match cs with
    | [] => Some ([], 0)
    | c :: cs' =>
        let? (slot, hit) :=
          match c with
          | Some child =>
              let F := stack.(auto_Complex) in
              let code := 0 in
              let? (_, F, code) := recurse child F code in
              if code =? 1 then Some (AddressOfF F, 1)
              else Some (hd NullPointer auto, 0)
          | None => Some (hd NullPointer auto, 0)
          end in
        let? (rest, n) := loop cs' (tl auto) in
        Some (slot :: rest, hit + n)
    end.

(** The second loop of the internal case: the positions of [Sx] that are not
    null are stored in [indexes] one after the other, [c] counts them. *)
Fixpoint collect_indexes (Sx : list Pointer) (i : Z) (indexes : list Z) (c : Z)
  : option (list Z * Z) :=
  match Sx with
  | [] => Some (indexes, c)
  | pointer :: rest =>
      if negb (is_null pointer) then
        let? indexes := array_write indexes c i in
        collect_indexes rest (i + 1) indexes (c + 1)
      else collect_indexes rest (i + 1) indexes c
  end.

(** The third loop of the internal case, [todo] iterations from [i] on.
    [indexes] has [num] elements, and [c] is what the second loop left. *)
Fixpoint Fx_loop (todo : nat) (i : Z) (indexes : list Z) (c : Z) (Sx : list Pointer)
    (p : mpz) (Fx : Complex) : option Complex :=
  match todo with
  | O => Some Fx
  | S todo' =>
      let? result := Lagrange_coefficient i indexes 0 in
      let resultMpz := int_to_ulong result in
      let? position := array_read indexes c in
      let? pointer := array_read Sx position in
      let? base := dereference pointer in
      let tmp := complex_modPow prim base resultMpz p in
      let Fx := complex_modMul prim Fx tmp p in
      Fx_loop todo' (i + 1) indexes c Sx p Fx
  end.

(** [result] and [statusCode] are the contents of [*result] and
    [*statusCode] before the call; the function returns its status and their
    contents after the call, and [None] where the C language gives the call
    no result: an access outside an array, or through a pointer that points
    to no object.  In the internal case the statement [result = &Fx;]
    changes the parameter [result] itself, a local variable: nothing is
    stored in [*result]. *)
Fixpoint DecryptNode_ABE (stack : Indeterminate) (encrypted : EncryptedMessage_ABE)
    (secretkey : SecretKey_ABE) (node : AccessTree) (result : Complex) (statusCode : Z)
    {struct node} : option (CryptidStatus * Complex * Z) :=
  let pubkey := secretkey.(sk_pubkey) in
  if isLeaf node then
    let found := find_attribute secretkey.(attributes) node.(attribute) 0 in
    if 0 <=? found then
      let '(status, pairValue) :=
        tate_performPairing prim 2 pubkey.(ellipticCurve) pubkey.(q)
          (nth (Z.to_nat found) secretkey.(Dj) Infinity) node.(Cy) in
      if failed status then Some (status, result, statusCode) else
      let '(status, pairValueA) :=
        tate_performPairing prim 2 pubkey.(ellipticCurve) pubkey.(q)
          (nth (Z.to_nat found) secretkey.(DjA) Infinity) node.(CyA) in
      if failed status then Some (status, result, statusCode) else
      let '(status, pairValueA_inverse) :=
        complex_multiplicativeInverse prim pairValueA pubkey.(ellipticCurve).(fieldOrder) in
      if failed status then Some (status, result, statusCode) else
      Some (CRYPTID_SUCCESS,
            complex_modMul prim pairValue pairValueA_inverse
              pubkey.(ellipticCurve).(fieldOrder),
            1)
    else Some (CRYPTID_SUCCESS, result, statusCode)
  else
    let? (Sx, num) :=
      DecryptNode_children (DecryptNode_ABE stack encrypted secretkey) stack
        node.(children) stack.(auto_Sx) in
    if 0 <? num then
      let indexes := automatic_array (Z.to_nat num) stack.(auto_indexes) 0 in
      let c := 0 in
      let? (indexes, c) := collect_indexes Sx 0 indexes c in
      let Fx := complex_initLong 1 0 in
      let? Fx :=
        Fx_loop (Z.to_nat num) 0 indexes c Sx pubkey.(ellipticCurve).(fieldOrder) Fx in
      (* result = &Fx; *)
      Some (CRYPTID_SUCCESS, result, 1)
    else Some (CRYPTID_SUCCESS, result, statusCode).

(** The children of [node] for which the recursive call of the first loop
    sets [code] to 1, and their number. *)
Definition child_succeeds (stack : Indeterminate) (encrypted : EncryptedMessage_ABE)
    (secretkey : SecretKey_ABE) (c : option AccessTree) : bool :=
  match c with
  | Some child =>
      match DecryptNode_ABE stack encrypted secretkey child stack.(auto_Complex) 0 with
      | Some (_, _, code) => code =? 1
      | None => false
      end
  | None => false
  end.

Definition successful_children (stack : Indeterminate) (encrypted : EncryptedMessage_ABE)
    (secretkey : SecretKey_ABE) (node : AccessTree) : Z :=
  Z.of_nat (length (filter (child_succeeds stack encrypted secretkey) node.(children))).

(** The children of [node] for which the recursive call of the first loop
    has a result. *)
Definition child_returns (stack : Indeterminate) (encrypted : EncryptedMessage_ABE)
    (secretkey : SecretKey_ABE) (c : option AccessTree) : bool :=
  match c with
  | Some child =>
      match DecryptNode_ABE stack encrypted secretkey child stack.(auto_Complex) 0 with
      | Some _ => true
      | None => false
      end
  | None => true
  end.

(** *** [cryptid_decrypt_ABE] *)

(** [result] is the content of the buffer the caller passes.  The third
    component of the outcome is what the two [gmp_printf] calls at the end
    write to the standard output, if they are reached.  The outcome is
    [None] when the call of [DecryptNode_ABE] has no result. *)
Definition cryptid_decrypt_ABE (stack : Indeterminate) (result : list byte)
    (encrypted : EncryptedMessage_ABE) (secretkey : SecretKey_ABE)
  : option (CryptidStatus * list byte * option Complex) :=
  let pubkey := secretkey.(sk_pubkey) in
  let satisfy := satisfyValue encrypted.(tree) secretkey.(attributes) in
  if satisfy =? 0 then Some (CRYPTID_ILLEGAL_PRIVATE_KEY_ERROR, result, None) else
  let A := stack.(auto_Complex) in
  let code := 0 in
  let? (_, A, code) := DecryptNode_ABE stack encrypted secretkey encrypted.(tree) A code in
  if code =? 0 then Some (CRYPTID_ILLEGAL_PRIVATE_KEY_ERROR, result, None) else
  let Ctilde_A :=
    complex_modMul prim encrypted.(Ctilde) A pubkey.(ellipticCurve).(fieldOrder) in
  let '(status, eCD) :=
    tate_performPairing prim 2 pubkey.(ellipticCurve) pubkey.(q)
      encrypted.(C) secretkey.(D) in
  if failed status then Some (status, result, None) else
  let '(status, eCD_inverse) :=
    complex_multiplicativeInverse prim eCD pubkey.(ellipticCurve).(fieldOrder) in
  if failed status then Some (status, result, None) else
  let decrypted :=
    complex_modMul prim Ctilde_A eCD_inverse pubkey.(ellipticCurve).(fieldOrder) in
  Some (CRYPTID_SUCCESS, result, Some decrypted).

End Protocol.
End ABE.

(* ================================================================== *)
(** ** A small instance of the primitives *)

(** The instance is used to run the protocol code on concrete inputs.  Its
    group of points is the integers under addition, the point [Affine v 0]
    standing for [v] and [Infinity] for [0]; the target group of the pairing
    is again the integers under addition, kept in the real part of a
    [Complex], so that the pairing of [a] and [b] is [a * b], a power is a
    multiple and an inverse a negation.  The random source is the sequence of
    the draws to come.  The primality test is trial division. *)
Module Toy.

Definition Draws : Type := nat -> Z.

Definition draw (rng : Draws) : Z * Draws := (rng O, fun n => rng (S n)).

Definition val (P : AffinePoint) : Z :=
  match P with Infinity => 0 | Affine x _ => x end.

Definition point (v : Z) : AffinePoint :=
  if v =? 0 then Infinity else Affine v 0.

Definition multiply (s : mpz) (P : AffinePoint) (ec : EllipticCurve)
  : CryptidStatus * AffinePoint := (CRYPTID_SUCCESS, point (s * val P)).

Definition add (P Q : AffinePoint) (ec : EllipticCurve)
  : CryptidStatus * AffinePoint := (CRYPTID_SUCCESS, point (val P + val Q)).

Definition pairing (k : Z) (ec : EllipticCurve) (q : mpz) (P Q : AffinePoint)
  : CryptidStatus * Complex := (CRYPTID_SUCCESS, mkComplex (val P * val Q) 0).

(** A pairing that reports a failure of the Miller loop. *)
Definition pairing_failing (k : Z) (ec : EllipticCurve) (q : mpz) (P Q : AffinePoint)
  : CryptidStatus * Complex := (CRYPTID_PRIMITIVE_ERROR 1, mkComplex 0 0).

Definition modPow (c : Complex) (e p : mpz) : Complex := mkComplex (e * real c) 0.
Definition modMul (a b : Complex) (p : mpz) : Complex := mkComplex (real a + real b) 0.
Definition modMulScalar (c : Complex) (s p : mpz) : Complex := mkComplex (real c + s) 0.
Definition multiplicativeInverse (c : Complex) (p : mpz) : CryptidStatus * Complex :=
  (CRYPTID_SUCCESS, mkComplex (- real c) 0).

Definition is_prime (n : Z) : bool :=
  (1 <? n) && forallb (fun d => negb (n mod d =? 0))
                      (map Z.of_nat (seq 2 (Z.to_nat n - 2))).

Definition byte_of_Z (z : Z) : byte :=
  match Byte.of_N (Z.to_N (z mod 256)) with Some b => b | None => Byte.x00 end.

Definition sum_bytes (l : list byte) : Z :=
  fold_right (fun b acc => Z.of_N (Byte.to_N b) + acc) 0 l.

Fixpoint draw_bytes (n : nat) (rng : Draws) : list byte * Draws :=
  match n with
  | O => ([], rng)
  | S n' =>
      let '(x, rng) := draw rng in
      let '(rest, rng) := draw_bytes n' rng in
      (byte_of_Z x :: rest, rng)
  end.

(** A digest of two octets. *)
Definition hash : HashFunction :=
  mkHashFunction 2
    (fun m => [byte_of_Z (sum_bytes m); byte_of_Z (Z.of_nat (length m) + 1)]).

Definition primitives_with
    (pair : Z -> EllipticCurve -> mpz -> AffinePoint -> AffinePoint -> CryptidStatus * Complex)
  : Primitives :=
  {| Rand := Draws;
     random_solinasPrime := fun bits limit rng => (CRYPTID_SUCCESS, 7, rng);
     random_mpzOfLength := fun len rng => draw rng;
     random_mpzInRange := fun bound rng => let '(x, rng) := draw rng in (x mod bound, rng);
     random_affinePoint := fun ec limit rng =>
       let '(x, rng) := draw rng in (CRYPTID_SUCCESS, point x, rng);
     randomBytes := draw_bytes;
     validation_isProbablePrime := is_prime;
     validation_isAffinePointValid := fun P p => true;
     affine_wNAFMultiply := multiply;
     AFFINE_MULTIPLY_IMPL := multiply;
     affine_add := add;
     tate_performPairing := pair;
     complex_modPow := modPow;
     complex_modMul := modMul;
     complex_modMulScalar := modMulScalar;
     complex_multiplicativeInverse := multiplicativeInverse;
     hashFunction_initForSecurityLevel := fun l => hash;
     hashToRange := fun s p hf => sum_bytes s mod p;
     hashToPoint := fun ec p q id hf => (CRYPTID_SUCCESS, point (1 + sum_bytes id));
     canonical := fun p v order => [byte_of_Z (real v); byte_of_Z (imaginary v)];
     hashBytes := fun b seed hf =>
       map (fun i => byte_of_Z (sum_bytes seed + Z.of_nat i)) (seq 0 b) |}.

Definition primitives : Primitives := primitives_with pairing.
Definition primitives_failing_pairing : Primitives := primitives_with pairing_failing.

(** Drawsom sources: one whose draws are 1, 2, 3, ..., and one that draws 4
    for ever; with [q = 7] the latter makes every candidate
    [p = 12 * 4 * 7 - 1 = 335 = 5 * 67]. *)
Definition counting : Draws := fun n => Z.of_nat (S n).
Definition always_four : Draws := fun _ => 4.

(** The two validation routines of the Boneh-Franklin unit. *)
Definition isPublicParametersValid (pp : IBE.PublicParameters) : bool := true.
Definition isCipherTextTupleValid (c : IBE.CipherTextTuple) (p : mpz) : bool := true.

(** The access-tree functions.  A node is a leaf when it has no child;
    [satisfyValue] follows section 4.7 of the specification. *)
Definition ATTRIBUTE_LENGTH : nat := 32.

Definition Polynom : Type := list Z.

Fixpoint draw_coefficients (n : nat) (rng : Draws) : list Z * Draws :=
  match n with
  | O => ([], rng)
  | S n' =>
      let '(x, rng) := draw rng in
      let '(rest, rng) := draw_coefficients n' rng in
      (x :: rest, rng)
  end.

Definition createPolynom (d : Z) (s : mpz) (pk : ABE.PublicKey_ABE) (rng : Draws)
  : Polynom * Draws :=
  let '(cs, rng) := draw_coefficients (Z.to_nat d) rng in (s :: cs, rng).

Definition polynomSum (qx : Polynom) (i : Z) : mpz :=
  fold_right (fun c acc => c + i * acc) 0 qx.

Definition isLeaf (t : ABE.AccessTree) : bool :=
  forallb (fun c => match c with None => true | Some _ => false end) t.(ABE.children).

Fixpoint satisfyValue (t : ABE.AccessTree) (attrs : list String.string) : Z :=
  if isLeaf t
  then if existsb (String.eqb t.(ABE.attribute)) attrs then 1 else 0
  else
    let count :=
      (fix count (cs : list (option ABE.AccessTree)) : Z :=
         match cs with
         | [] => 0
         | None :: cs' => count cs'
         | Some c :: cs' => satisfyValue c attrs + count cs'
         end) t.(ABE.children) in
    if t.(ABE.value) <=? count then 1 else 0.

Definition ABE_randomNumber (pk : ABE.PublicKey_ABE) (rng : Draws) : mpz * Draws := draw rng.

End Toy.

(* ================================================================== *)
(** ** Concrete inputs *)

Module Examples.

Import String.StringSyntax.
Local Open Scope string_scope.
Local Open Scope Z_scope.

(** *** Boneh-Franklin *)

(** Public parameters and master secret as [cryptid_setup] produces them
    over the instance [Toy.primitives] with the random source
    [Toy.counting]: [q = 7], [p = 12 * 1 * 7 - 1 = 83], [P = 24], [s = 5]. *)
Definition blank_pp : IBE.PublicParameters :=
  IBE.mkPublicParameters (ellipticCurve_init 0 0 0) 0 Infinity Infinity Toy.hash.

Definition pp : IBE.PublicParameters :=
  IBE.mkPublicParameters (ellipticCurve_init 0 1 83) 7 (Affine 24 0) (Affine 120 0) Toy.hash.

Definition masterSecret : mpz := 5.

Definition alice : list byte := String.list_byte_of_string "alice".
Definition hello : list byte := String.list_byte_of_string "hello world".

Definition blank_ct : IBE.CipherTextTuple := IBE.mkCipherTextTuple Infinity [] [].

(** The private key of [alice] and a ciphertext for [hello]. *)
Definition sk_alice : AffinePoint := Affine 2555 0.

Definition ct_hello : IBE.CipherTextTuple :=
  IBE.mkCipherTextTuple (Affine 48 0) [Byte.x11; Byte.x01]
    [Byte.x6b; Byte.x61; Byte.x69; Byte.x6a; Byte.x68; Byte.x28;
     Byte.x7e; Byte.x65; Byte.x79; Byte.x60; Byte.x69].

(** The random source after the two octets of [rho] have been drawn. *)
Definition counting_from_3 : Toy.Draws := fun n => Toy.counting (S (S n)).

(** The same ciphertext with another point [U]. *)
Definition ct_tampered : IBE.CipherTextTuple :=
  IBE.mkCipherTextTuple (Affine 96 0) ct_hello.(IBE.cipherV) ct_hello.(IBE.cipherW).

(** *** CP-ABE *)

Definition blank_pk : ABE.PublicKey_ABE :=
  ABE.mkPublicKey_ABE (ellipticCurve_init 0 0 0) Infinity Infinity Infinity
    (mkComplex 0 0) Toy.hash 0.

Definition blank_mk : ABE.MasterKey_ABE := ABE.mkMasterKey_ABE 0 Infinity blank_pk.

(** The two structures after a run of [cryptid_setup_ABE] over
    [Toy.primitives_failing_pairing], from [blank_pk] and [blank_mk]. *)
Definition pk_after_failed_setup : ABE.PublicKey_ABE :=
  ABE.mkPublicKey_ABE (ellipticCurve_init 0 1 83) (Affine 24 0) (Affine 96 0)
    (Affine 504 0) (mkComplex 0 0) Toy.hash 7.

Definition mk_after_failed_setup : ABE.MasterKey_ABE :=
  ABE.mkMasterKey_ABE 4 (Affine 72 0) blank_pk.

(** Keys as [cryptid_setup_ABE] produces them over [Toy.primitives] with
    [Toy.counting]: [g = 24], [alpha = 3], [beta = 4]. *)
Definition pk : ABE.PublicKey_ABE :=
  ABE.mkPublicKey_ABE (ellipticCurve_init 0 1 83) (Affine 24 0) (Affine 96 0)
    (Affine 504 0) (mkComplex 1728 0) Toy.hash 7.

Definition mk : ABE.MasterKey_ABE := ABE.mkMasterKey_ABE 4 (Affine 72 0) pk.

(** A secret key before [cryptid_keygen_ABE] has filled it, with room for
    two attributes. *)
Definition blank_sk : ABE.SecretKey_ABE :=
  ABE.mkSecretKey_ABE Infinity [Infinity; Infinity] [Infinity; Infinity] [""; ""] blank_pk.

(** The secret key [cryptid_keygen_ABE] issues for the single attribute
    ["a"]. *)
Definition sk_a : ABE.SecretKey_ABE :=
  ABE.mkSecretKey_ABE (Affine 1512 0) [Affine 220 0; Infinity] [Affine 48 0; Infinity]
    ["a"; ""] pk.

(** Trees with two child slots: leaves for the attributes ["a"] and ["b"],
    the gate "a AND b" of threshold 2, and the gate "(a AND b) OR a" of
    threshold 1. *)
(** The array of attributes handed to [cryptid_keygen_ABE]. *)
Definition attributes_a : list String.string := ["a"; ""].

Definition leaf (a : String.string) : ABE.AccessTree :=
  ABE.mkAccessTree 1 [None; None] a (String.length a) (Affine 3 0) (Affine 5 0).

Definition leaf_a : ABE.AccessTree := leaf "a".
Definition leaf_b : ABE.AccessTree := leaf "b".

Definition a_and_b : ABE.AccessTree :=
  ABE.mkAccessTree 2 [Some leaf_a; Some leaf_b] "" 0 Infinity Infinity.

(** The gate over the leaves "a" and "b" with the threshold [k]. *)
Definition gate_a_b (k : Z) : ABE.AccessTree :=
  ABE.mkAccessTree k [Some leaf_a; Some leaf_b] "" 0 Infinity Infinity.

Definition a_and_b_or_a : ABE.AccessTree :=
  ABE.mkAccessTree 1 [Some a_and_b; Some (leaf "a")] "" 0 Infinity Infinity.

Definition encrypted_under (t : ABE.AccessTree) : ABE.EncryptedMessage_ABE :=
  ABE.mkEncryptedMessage_ABE t (mkComplex 1793 0) (Affine 96 0).

End Examples.

(* ================================================================== *)
(** ** Notions used in the statements about access trees *)

(** The policy a tree describes: the tree without the points [Cy] and [CyA]
    that the encryption stores in its nodes. *)
Fixpoint policy_of (t : ABE.AccessTree) : ABE.AccessTree :=
  match t with
  | ABE.mkAccessTree v cs a al _ _ =>
      ABE.mkAccessTree v
        (map (fun c => match c with
                       | Some child => Some (policy_of child)
                       | None => None
                       end) cs)
        a al Infinity Infinity
  end.

(** Induction over access trees: a property holds of every tree if it holds
    of a node whenever it holds of the children that are there. *)
Section AccessTree_induction.

Variable P : ABE.AccessTree -> Prop.

Hypothesis step :
  forall v cs a al cy cya,
    Forall (fun c => match c with Some child => P child | None => True end) cs ->
    P (ABE.mkAccessTree v cs a al cy cya).

Fixpoint AccessTree_induction (t : ABE.AccessTree) : P t :=
  match t with
  | ABE.mkAccessTree v cs a al cy cya =>
      step v cs a al cy cya
        ((fix all (cs : list (option ABE.AccessTree))
            : Forall (fun c => match c with Some child => P child | None => True end) cs :=
            match cs with
            | [] => Forall_nil _
            | c :: cs' =>
                Forall_cons c
                  (match c return match c with Some child => P child | None => True end with
                   | Some child => AccessTree_induction child
                   | None => I
                   end)
                  (all cs')
            end) cs)
  end.

End AccessTree_induction.

(** The loop of [compute_tree] over the children from index 1 on, as a
    function of its own: [recurse] is the recursive call, [share i] the value
    handed to the child at index [i]. *)
Definition compute_tree_children {R : Type}
    (recurse : ABE.AccessTree -> mpz -> R -> CryptidStatus * ABE.AccessTree * R)
    (share : Z -> mpz)
  : list (option ABE.AccessTree) -> Z -> R -> list (option ABE.AccessTree) * R :=
  fix loop (cs : list (option ABE.AccessTree)) (i : Z) (rng : R)
    : list (option ABE.AccessTree) * R :=
    match cs with
    | [] => ([], rng)
    | None :: cs' =>
        let '(rest, rng) := loop cs' (i + 1) rng in
        (None :: rest, rng)
    | Some child :: cs' =>
        let sum := share i in
        let '(_, child', rng) := recurse child sum rng in
        let '(rest, rng) := loop cs' (i + 1) rng in
        (Some child' :: rest, rng)
    end.

(* ================================================================== *)
(** ** The tree builder of the formal-language test *)

Module FormalLanguageTest.

Import String.StringSyntax.
Local Open Scope string_scope.
#[local] Infix "+++" := String.append (at level 60, right associativity).

(** The only operator the builder stores. *)
Inductive CryptidLogicalExpressionTreeOperators : Set := AND.

(** [value] is a [void *]: it points to a string in a leaf and to an
    operator in a gate. *)
Inductive TreeValue : Type :=
| ValueString (s : String.string)
| ValueOperator (operator : CryptidLogicalExpressionTreeOperators).

#[local] Unset Elimination Schemes.
Inductive CryptidLogicalExpressionTree : Type :=
  mkTree {
    value : TreeValue;
    leftChild : option CryptidLogicalExpressionTree;
    rightChild : option CryptidLogicalExpressionTree
  }.
#[local] Set Elimination Schemes.

(** A call returns, writes past the end of a buffer it allocated, stores
    through a null pointer, or is still running when the fuel is used up. *)
Inductive Run (A : Type) : Type :=
| Returns (a : A)
| WritesPastEnd
| NullDereference
| StillRunning.
Arguments Returns {A} a.
Arguments WritesPastEnd {A}.
Arguments NullDereference {A}.
Arguments StillRunning {A}.

(** [size_t] has 64 bits; sums and products of sizes wrap around. *)
Definition SIZE_MODULUS : Z := 2 ^ 64.
Definition size_add (a b : Z) : Z := (a + b) mod SIZE_MODULUS.
Definition size_mul (a b : Z) : Z := (a * b) mod SIZE_MODULUS.

Definition sizeof_int : Z := 4.
Definition sizeof_char : Z := 1.

Definition strlen (s : String.string) : Z := Z.of_nat (String.length s).

(** [strcpy] and [strcat] into a buffer of [capacity] octets: the string and
    its terminating zero have to fit. *)
Definition strcpy (capacity : Z) (src : String.string) : option String.string :=
  if strlen src + 1 <=? capacity then Some src else None.

Definition strcat (capacity : Z) (dst src : String.string) : option String.string :=
  if strlen dst + strlen src + 1 <=? capacity then Some (dst +++ src) else None.

Definition double_quote : String.string :=
  String.String (Ascii.ascii_of_nat 34) String.EmptyString.

(** The string literal of the leaves. *)
Definition leaf_value : String.string :=
  ".*" +++ double_quote +++ ".*" +++ double_quote +++ ": "
       +++ double_quote +++ ".*" +++ double_quote +++ ".*".

Section Allocator.

(** The allocator of the C library: [allocate size heap] tells whether a
    request for [size] octets is served, that is whether the pointer it gives
    is not null, and gives the state of the allocator after the request. *)
Variable Heap : Type.
Variable allocate : Z -> Heap -> bool * Heap.

(** The sizes of the two types of the header, which the test includes. *)
Variable sizeof_CryptidLogicalExpressionTree : Z.
Variable sizeof_CryptidLogicalExpressionTreeOperators : Z.

Definition malloc (size : Z) (heap : Heap) : bool * Heap := allocate size heap.

(** [calloc] gives the null pointer when the product of its arguments is no
    [size_t]. *)
Definition calloc (nmemb size : Z) (heap : Heap) : bool * Heap :=
  if nmemb * size <? SIZE_MODULUS then allocate (nmemb * size) heap else (false, heap).

(** [authorizationFormula] tells whether the pointer of that name points to
    an object.  The tree is what the call stores through it, the string is
    what the call returns. *)
Fixpoint buildRandomAuthorizationTree (fuel : nat) (authorizationFormula : bool)
    (depth : Z) (heap : Heap)
  : Run (CryptidLogicalExpressionTree * String.string * Heap) :=
  match fuel with
  | O => StillRunning
  | S fuel =>
      let '(booleanTree_source, heap) :=
        calloc 1 sizeof_CryptidLogicalExpressionTree heap in
      if negb booleanTree_source then NullDereference else
      if depth =? 0 then
        let value := leaf_value in
        let capacity := size_add (strlen value) (size_mul 1 sizeof_int) in
        let '(booleanTree_value, heap) := malloc capacity heap in
        if negb booleanTree_value then NullDereference else
        match strcpy capacity value with
        | None => WritesPastEnd
        | Some booleanTree_value =>
            let capacity := size_add (strlen value) 1 in
            let '(authorizationFormulaString, heap) := calloc capacity sizeof_char heap in
            if negb authorizationFormulaString then NullDereference else
            match strcpy capacity value with
            | None => WritesPastEnd
            | Some authorizationFormulaString =>
                if negb authorizationFormula then NullDereference else
                Returns (mkTree (ValueString booleanTree_value) None None,
                         authorizationFormulaString, heap)
            end
        end
      else
        let '(booleanTree_value, heap) :=
          malloc sizeof_CryptidLogicalExpressionTreeOperators heap in
        if negb booleanTree_value then NullDereference else
        let '(leftChild, heap) := calloc 1 sizeof_CryptidLogicalExpressionTree heap in
        match buildRandomAuthorizationTree fuel leftChild (int_sub depth 1) heap with
        | Returns (leftTree, leftAuthorizationFormulaString, heap) =>
            let '(rightChild, heap) :=
              calloc 1 sizeof_CryptidLogicalExpressionTree heap in
            match buildRandomAuthorizationTree fuel rightChild (int_sub depth 1) heap with
            | Returns (rightTree, rightAuthorizationFormulaString, heap) =>
                let capacity :=
                  size_add
                    (size_add (size_add (strlen leftAuthorizationFormulaString) 5)
                       (strlen rightAuthorizationFormulaString)) 1 in
                let '(authorizationFormulaString, heap) :=
                  calloc capacity sizeof_char heap in
                if negb authorizationFormulaString then NullDereference else
                match strcpy capacity leftAuthorizationFormulaString with
                | None => WritesPastEnd
                | Some s1 =>
                    match strcat capacity s1 " AND " with
                    | None => WritesPastEnd
                    | Some s2 =>
                        match strcat capacity s2 rightAuthorizationFormulaString with
                        | None => WritesPastEnd
                        | Some authorizationFormulaString =>
                            if negb authorizationFormula then NullDereference else
                            Returns (mkTree (ValueOperator AND)
                                       (Some leftTree) (Some rightTree),
                                     authorizationFormulaString, heap)
                        end
                    end
                end
            | WritesPastEnd => WritesPastEnd
            | NullDereference => NullDereference
            | StillRunning => StillRunning
            end
        | WritesPastEnd => WritesPastEnd
        | NullDereference => NullDereference
        | StillRunning => StillRunning
        end
  end.

End Allocator.

(** An allocator that serves every request. *)
Definition serves_all : Z -> unit -> bool * unit := fun _ heap => (true, heap).

(** The formula a tree stands for: the string of a leaf, and for a gate the
    formulas of its two children with the operator between them. *)
Fixpoint formula_of (t : CryptidLogicalExpressionTree) : option String.string :=
  match t with
  | mkTree (ValueString s) None None => Some s
  | mkTree (ValueOperator AND) (Some l) (Some r) =>
      match formula_of l, formula_of r with
      | Some a, Some b => Some ((a +++ " AND ") +++ b)
      | _, _ => None
      end
  | _ => None
  end.

(** A tree all of whose leaves are [d] gates below the root. *)
Fixpoint perfect (d : nat) (t : CryptidLogicalExpressionTree) : bool :=
  match d, t with
  | O, mkTree (ValueString _) None None => true
  | S d', mkTree (ValueOperator AND) (Some l) (Some r) => perfect d' l && perfect d' r
  | _, _ => false
  end.

End FormalLanguageTest.

(* ================================================================== *)
(** ** The values of the consistency check, as the specification names them *)

(** The octet-wise exclusive or of two strings of octets. *)
Definition xor_octets (a b : list byte) : list byte :=
  map (fun xy => byte_xor (fst xy) (snd xy)) (combine a b).

Section ConsistencyCheck.

Variable prim : Primitives.
Variable theta : Complex.
Variable ciphertext : IBE.CipherTextTuple.
Variable publicParameters : IBE.PublicParameters.

Let hashFunction_ := publicParameters.(IBE.hashFunction).
Let hashLen := hashFunction_.(hashLength).

(** rho = H(canonical(theta)) xor V *)
Definition specified_rho : list byte :=
  xor_octets
    (firstn hashLen
       (hashFunction_.(sha_hash)
          (canonical prim publicParameters.(IBE.ellipticCurve).(fieldOrder) theta 1)))
    (firstn hashLen ciphertext.(IBE.cipherV)).

(** M = W xor hashBytes(|W|, rho) *)
Definition specified_plaintext : list byte :=
  xor_octets
    (firstn (IBE.cipherWLength ciphertext)
       (hashBytes prim (IBE.cipherWLength ciphertext) specified_rho hashFunction_))
    ciphertext.(IBE.cipherW).

(** l = hashToRange(rho || H(M), q) *)
Definition specified_l : mpz :=
  hashToRange prim
    (specified_rho ++ firstn hashLen (hashFunction_.(sha_hash) specified_plaintext))
    publicParameters.(IBE.q) hashFunction_.

End ConsistencyCheck.

(* ================================================================== *)
(** * Properties *)

(** ** Octets and buffers *)

Lemma xor_bits_cancel x y : xor_bits x (xor_bits x y) = y.
Proof.
  destruct x as [a0 [a1 [a2 [a3 [a4 [a5 [a6 a7]]]]]]].
  destruct y as [b0 [b1 [b2 [b3 [b4 [b5 [b6 b7]]]]]]].
  unfold xor_bits.
  repeat rewrite <- xorb_assoc.
  repeat rewrite xorb_nilpotent.
  repeat rewrite xorb_false_l.
  reflexivity.
Qed.

Lemma byte_xor_cancel (a b : byte) : byte_xor a (byte_xor a b) = b.
Proof.
  unfold byte_xor.
  rewrite Byte.to_bits_of_bits, xor_bits_cancel.
  apply Byte.of_bits_to_bits.
Qed.

Lemma xor_loop_length n : forall a b v, xor_loop n a b = Some v -> length v = n.
Proof.
  induction n as [|n IH]; intros a b v H; simpl in H.
  - injection H as <-. reflexivity.
  - destruct a as [|x a]; [discriminate|].
    destruct b as [|y b]; [discriminate|].
    destruct (xor_loop n a b) as [r|] eqn:E; [|discriminate].
    injection H as <-. simpl. f_equal. eauto.
Qed.

(** Masking twice with the same pad gives the masked octets back. *)
Lemma xor_loop_cancel n :
  forall pad b v, xor_loop n pad b = Some v -> length b = n -> xor_loop n pad v = Some b.
Proof.
  induction n as [|n IH]; intros pad b v H Hlen; simpl in H.
  - injection H as <-. destruct b; [reflexivity | discriminate].
  - destruct pad as [|x pad]; [discriminate|].
    destruct b as [|y b]; [discriminate|].
    destruct (xor_loop n pad b) as [r|] eqn:E; [|discriminate].
    injection H as <-. simpl in Hlen. injection Hlen as Hlen.
    simpl. rewrite (IH _ _ _ E Hlen), byte_xor_cancel. reflexivity.
Qed.

Lemma calloc_fill_length n src : length (calloc_fill n src) = n.
Proof.
  unfold calloc_fill. rewrite length_firstn, length_app, repeat_length. lia.
Qed.

Lemma affine_isEquals_iff P Q : affine_isEquals P Q = true <-> P = Q.
Proof.
  destruct P as [|x1 y1], Q as [|x2 y2]; simpl; split; try congruence; try reflexivity.
  - intros H. apply andb_true_iff in H as [Hx Hy].
    apply Z.eqb_eq in Hx, Hy. congruence.
  - intros H. injection H as -> ->. now rewrite !Z.eqb_refl.
Qed.

Lemma failed_false_iff (st : CryptidStatus) :
  failed st = false <-> st = CRYPTID_SUCCESS.
Proof. destruct st; simpl; split; congruence. Qed.

(** ** Boneh-Franklin round trip *)

(** A status that [failed] lets pass is [CRYPTID_SUCCESS]. *)
Ltac status_passes H :=
  match type of H with
  | failed ?st = false => apply failed_false_iff in H; subst st
  end.

(** The core of the round trip.  Let the public parameters belong to the
    master secret [s] and let the pairing be bilinear.  If [cryptid_extract]
    returns [SUCCESS] with the private key [sk] for the identity [id], and
    [cryptid_encrypt] returns [SUCCESS] with the ciphertext [ct] for the
    message [M] and the same identity, neither [sk] nor the point of [ct] is
    the point at infinity, and [sk] and [ct] pass the validation at the head
    of [cryptid_decrypt], then [cryptid_decrypt] returns [SUCCESS] and stores
    exactly [M]. *)
Lemma ibe_decrypt_after_encrypt
    (prim : Primitives)
    (vPP : IBE.PublicParameters -> bool) (vCT : IBE.CipherTextTuple -> mpz -> bool)
    (pp : IBE.PublicParameters) (masterSecret : mpz)
    (id M : list byte) (point0 : AffinePoint) (c0 : IBE.CipherTextTuple)
    (rng rng' : Rand prim) (sk : AffinePoint) (ct : IBE.CipherTextTuple) :
  affine_wNAFMultiply prim masterSecret pp.(IBE.pointP) pp.(IBE.ellipticCurve)
    = (CRYPTID_SUCCESS, pp.(IBE.pointPpublic)) ->
  IBE.pairing_bilinear prim pp.(IBE.ellipticCurve) pp.(IBE.q) ->
  IBE.cryptid_extract prim vPP (Some point0) id pp masterSecret
    = (CRYPTID_SUCCESS, Some sk) ->
  IBE.cryptid_encrypt prim vPP c0 (Some M) (Some id) pp rng
    = Some (CRYPTID_SUCCESS, ct, rng') ->
  affine_isInfinity sk = false ->
  affine_isInfinity ct.(IBE.cipherU) = false ->
  validation_isAffinePointValid prim sk pp.(IBE.ellipticCurve).(fieldOrder) = true ->
  vCT ct pp.(IBE.ellipticCurve).(fieldOrder) = true ->
  forall plain0 : option (list byte),
    IBE.cryptid_decrypt prim vPP vCT plain0 sk ct pp
    = Some (CRYPTID_SUCCESS, Some M).
Proof.
  intros Hpub Hbil Hext Henc Hskfin HUfin Hsk Hct plain0.
  (* the private key is the master secret times the hashed identity *)
  unfold IBE.cryptid_extract in Hext.
  destruct (length id =? 0)%nat; [discriminate|].
  destruct (vPP pp) eqn:Hvalid; simpl in Hext; [|discriminate].
  destruct (hashToPoint prim _ _ _ id _) as [st1 Qid] eqn:HQ.
  destruct (failed st1) eqn:F1; [injection Hext as -> _; discriminate|].
  status_passes F1.
  destruct (affine_wNAFMultiply prim masterSecret Qid _) as [st2 sk'] eqn:Hmul.
  injection Hext as -> ->.
  (* the steps of the encryption *)
  unfold IBE.cryptid_encrypt in Henc.
  destruct (length M =? 0)%nat; [discriminate|].
  destruct (length id =? 0)%nat; [discriminate|].
  rewrite Hvalid in Henc. simpl in Henc.
  rewrite HQ in Henc. simpl in Henc.
  destruct (randomBytes prim _ rng) as [drawn rng1] eqn:Hdraw.
  set (hashLen := hashLength (IBE.hashFunction pp)) in *.
  set (rho := calloc_fill hashLen drawn) in *.
  destruct (copy_loop hashLen rho) as [lo|] eqn:Hlo; [|discriminate].
  destruct (copy_loop hashLen _) as [hi|] eqn:Hhi in Henc; [|discriminate].
  set (l := hashToRange prim (lo ++ hi) _ _) in *.
  destruct (affine_wNAFMultiply prim l _ _) as [st3 U] eqn:HU.
  destruct (failed st3) eqn:F3; [injection Henc as -> _ _; discriminate|].
  status_passes F3.
  destruct (tate_performPairing prim 2 _ _ _ Qid) as [st4 theta] eqn:Hpair.
  destruct (failed st4) eqn:F4; [injection Henc as -> _ _; discriminate|].
  status_passes F4.
  destruct (xor_loop hashLen _ rho) as [V|] eqn:HV; [|discriminate].
  destruct (xor_loop (length M) _ M) as [W|] eqn:HW; [|discriminate].
  injection Henc as <- _.
  (* the decryption *)
  simpl in HUfin.
  pose proof (Hbil l masterSecret _ _ _ _ _ theta HU Hmul Hpub HUfin Hskfin Hpair) as He.
  pose proof (xor_loop_length _ _ _ _ HV) as HVlen.
  pose proof (xor_loop_length _ _ _ _ HW) as HWlen.
  unfold IBE.cryptid_decrypt.
  rewrite Hvalid, Hsk, Hct. simpl.
  rewrite He. simpl.
  unfold IBE.decrypt_recompute, IBE.cipherWLength. simpl.
  fold hashLen.
  rewrite !firstn_all2 by lia.
  rewrite (xor_loop_cancel _ _ _ _ HV (calloc_fill_length _ _)).
  fold rho. rewrite HWlen.
  rewrite (xor_loop_cancel _ _ _ _ HW eq_refl).
  rewrite Hlo, Hhi. fold l. rewrite HU. simpl.
  replace (affine_isEquals U U) with true
    by (symmetry; now apply affine_isEquals_iff).
  reflexivity.
Qed.

Lemma copy_loop_defined n : forall src, (n <= length src)%nat -> copy_loop n src <> None.
Proof.
  induction n as [|n IH]; intros src H; simpl; [discriminate|].
  destruct src as [|x src]; simpl in H; [lia|].
  specialize (IH src ltac:(lia)).
  destruct (copy_loop n src); [discriminate | contradiction].
Qed.

Lemma xor_loop_defined n :
  forall a b, (n <= length a)%nat -> (n <= length b)%nat -> xor_loop n a b <> None.
Proof.
  induction n as [|n IH]; intros a b Ha Hb; simpl; [discriminate|].
  destruct a as [|x a]; simpl in Ha; [lia|].
  destruct b as [|y b]; simpl in Hb; [lia|].
  specialize (IH a b ltac:(lia) ltac:(lia)).
  destruct (xor_loop n a b); [discriminate | contradiction].
Qed.

Lemma copy_loop_firstn n : forall src r, copy_loop n src = Some r -> r = firstn n src.
Proof.
  induction n as [|n IH]; intros src r H; simpl in H.
  - injection H as <-. reflexivity.
  - destruct src as [|x src]; [discriminate|].
    destruct (copy_loop n src) as [r'|] eqn:E; [|discriminate].
    injection H as <-. simpl. f_equal. now apply IH.
Qed.

(** [cryptid_encrypt] returns [SUCCESS], with a ciphertext over the point
    [U = l * pointP], when its arguments pass the checks, the primitives it
    calls succeed, a digest has at least [hashLength] octets and [hashBytes]
    delivers at least as many octets as the message has. *)
Lemma ibe_encrypt_succeeds
    (prim : Primitives) (vPP : IBE.PublicParameters -> bool)
    (pp : IBE.PublicParameters) (id M : list byte) (c0 : IBE.CipherTextTuple)
    (rng : Rand prim) (Qid U : AffinePoint) (theta : Complex) :
  vPP pp = true ->
  M <> [] ->
  id <> [] ->
  hashToPoint prim pp.(IBE.ellipticCurve) pp.(IBE.ellipticCurve).(fieldOrder) pp.(IBE.q)
    id pp.(IBE.hashFunction) = (CRYPTID_SUCCESS, Qid) ->
  affine_wNAFMultiply prim (IBE.encrypt_l prim M pp rng) pp.(IBE.pointP)
    pp.(IBE.ellipticCurve) = (CRYPTID_SUCCESS, U) ->
  tate_performPairing prim 2 pp.(IBE.ellipticCurve) pp.(IBE.q) pp.(IBE.pointPpublic) Qid
    = (CRYPTID_SUCCESS, theta) ->
  (forall x, (hashLength pp.(IBE.hashFunction)
              <= length (sha_hash pp.(IBE.hashFunction) x))%nat) ->
  (forall seed, (length M <= length (hashBytes prim (length M) seed pp.(IBE.hashFunction)))%nat) ->
  exists V W rng',
    length V = hashLength pp.(IBE.hashFunction)
    /\ length W = length M
    /\ IBE.cryptid_encrypt prim vPP c0 (Some M) (Some id) pp rng
       = Some (CRYPTID_SUCCESS, IBE.mkCipherTextTuple U V W, rng').
Proof.
  intros Hvalid HM Hid HQ HU Hpair Hdig Hhb.
  unfold IBE.cryptid_encrypt. unfold IBE.encrypt_l in HU.
  destruct (length M =? 0)%nat eqn:EM;
    [apply Nat.eqb_eq, length_zero_iff_nil in EM; congruence|].
  destruct (length id =? 0)%nat eqn:Eid;
    [apply Nat.eqb_eq, length_zero_iff_nil in Eid; congruence|].
  rewrite Hvalid. cbn [negb].
  rewrite HQ. cbn [failed].
  destruct (randomBytes prim _ rng) as [drawn rng1].
  cbn [fst] in HU.
  set (hashLen := hashLength (IBE.hashFunction pp)) in *.
  set (rho := calloc_fill hashLen drawn) in *.
  assert (Hrho : length rho = hashLen) by apply calloc_fill_length.
  destruct (copy_loop hashLen rho) as [lo|] eqn:Hlo;
    [|exfalso; revert Hlo; apply copy_loop_defined; lia].
  destruct (copy_loop hashLen (sha_hash _ M)) as [hi|] eqn:Hhi;
    [|exfalso; revert Hhi; apply copy_loop_defined; apply Hdig].
  apply copy_loop_firstn in Hlo, Hhi.
  rewrite firstn_all2 in Hlo by lia. subst lo hi.
  rewrite HU. cbn [failed].
  rewrite Hpair. cbn [failed].
  destruct (xor_loop hashLen _ rho) as [V|] eqn:HV;
    [|exfalso; revert HV; apply xor_loop_defined; [apply Hdig | lia]].
  destruct (xor_loop (length M) _ M) as [W|] eqn:HW;
    [|exfalso; revert HW; apply xor_loop_defined; [apply (Hhb rho) | lia]].
  apply xor_loop_length in HV, HW.
  exists V, W, rng1. unfold IBE.cipherTextTuple_init.
  rewrite !firstn_all2 by lia. auto.
Qed.

(** C1.  Decryption inverts encryption.  Let the public parameters be valid
    and belong to the master secret (their [pointPpublic] is the master
    secret times [pointP]), let the pairing be bilinear, and let the
    primitives that extraction and encryption call succeed: the identity
    hashes to a point [Qid], the key [sk], the master secret times [Qid], and
    the point [U], the integer [l] of the encryption times [pointP], exist
    and are not the point at infinity, the pairing of [pointPpublic] with
    [Qid] exists, a digest has at least [hashLength] octets and [hashBytes]
    delivers at least as many octets as the message has.  Let [sk] and the
    ciphertexts over [U] pass the validation at the head of
    [cryptid_decrypt].  Then for every non-empty identity and every message
    [M] of 1 to 1024 octets, at whatever security level, [cryptid_extract]
    returns [SUCCESS] with [sk], [cryptid_encrypt] returns [SUCCESS] with a
    ciphertext, and [cryptid_decrypt] applied to them returns [SUCCESS] and
    stores exactly [M].  (The proof uses of the bound on the length only that
    [M] is not empty.) *)
Theorem ibe_decrypt_inverts_encrypt
    (prim : Primitives)
    (vPP : IBE.PublicParameters -> bool) (vCT : IBE.CipherTextTuple -> mpz -> bool)
    (pp : IBE.PublicParameters) (masterSecret : mpz)
    (id M : list byte) (point0 : AffinePoint) (c0 : IBE.CipherTextTuple)
    (rng : Rand prim) (Qid sk U : AffinePoint) (theta : Complex) :
  vPP pp = true ->
  (1 <= length M <= 1024)%nat ->
  id <> [] ->
  affine_wNAFMultiply prim masterSecret pp.(IBE.pointP) pp.(IBE.ellipticCurve)
    = (CRYPTID_SUCCESS, pp.(IBE.pointPpublic)) ->
  IBE.pairing_bilinear prim pp.(IBE.ellipticCurve) pp.(IBE.q) ->
  hashToPoint prim pp.(IBE.ellipticCurve) pp.(IBE.ellipticCurve).(fieldOrder) pp.(IBE.q)
    id pp.(IBE.hashFunction) = (CRYPTID_SUCCESS, Qid) ->
  affine_wNAFMultiply prim masterSecret Qid pp.(IBE.ellipticCurve)
    = (CRYPTID_SUCCESS, sk) ->
  affine_isInfinity sk = false ->
  affine_wNAFMultiply prim (IBE.encrypt_l prim M pp rng) pp.(IBE.pointP)
    pp.(IBE.ellipticCurve) = (CRYPTID_SUCCESS, U) ->
  affine_isInfinity U = false ->
  tate_performPairing prim 2 pp.(IBE.ellipticCurve) pp.(IBE.q) pp.(IBE.pointPpublic) Qid
    = (CRYPTID_SUCCESS, theta) ->
  (forall x, (hashLength pp.(IBE.hashFunction)
              <= length (sha_hash pp.(IBE.hashFunction) x))%nat) ->
  (forall seed, (length M <= length (hashBytes prim (length M) seed pp.(IBE.hashFunction)))%nat) ->
  validation_isAffinePointValid prim sk pp.(IBE.ellipticCurve).(fieldOrder) = true ->
  (forall V W,
      length V = hashLength pp.(IBE.hashFunction) ->
      length W = length M ->
      vCT (IBE.mkCipherTextTuple U V W) pp.(IBE.ellipticCurve).(fieldOrder) = true) ->
  exists ct rng',
    IBE.cryptid_extract prim vPP (Some point0) id pp masterSecret
    = (CRYPTID_SUCCESS, Some sk)
    /\ IBE.cryptid_encrypt prim vPP c0 (Some M) (Some id) pp rng
       = Some (CRYPTID_SUCCESS, ct, rng')
    /\ forall plain0 : option (list byte),
         IBE.cryptid_decrypt prim vPP vCT plain0 sk ct pp
         = Some (CRYPTID_SUCCESS, Some M).
Proof.
  intros Hvalid HMlen Hid Hpub Hbil HQ Hsk Hskfin HU HUfin Hpair Hdig Hhb Hvsk Hvct.
  assert (HM : M <> []) by (intros ->; simpl in HMlen; lia).
  destruct (ibe_encrypt_succeeds prim vPP pp id M c0 rng Qid U theta
              Hvalid HM Hid HQ HU Hpair Hdig Hhb) as [V [W [rng' [HV [HW Henc]]]]].
  assert (Hext : IBE.cryptid_extract prim vPP (Some point0) id pp masterSecret
                 = (CRYPTID_SUCCESS, Some sk)).
  { unfold IBE.cryptid_extract.
    destruct (length id =? 0)%nat eqn:Eid;
      [apply Nat.eqb_eq, length_zero_iff_nil in Eid; congruence|].
    rewrite Hvalid. cbn [negb].
    rewrite HQ. cbn [failed]. rewrite Hsk. reflexivity. }
  exists (IBE.mkCipherTextTuple U V W), rng'.
  split; [exact Hext|]. split; [exact Henc|].
  apply (ibe_decrypt_after_encrypt prim vPP vCT pp masterSecret id M point0 c0
           rng rng' sk (IBE.mkCipherTextTuple U V W)
           Hpub Hbil Hext Henc Hskfin HUfin Hvsk (Hvct V W HV HW)).
Qed.

(** The small instance satisfies the bilinearity law. *)
Lemma toy_val_point v : Toy.val (Toy.point v) = v.
Proof.
  unfold Toy.point. destruct (v =? 0) eqn:E; simpl; [|reflexivity].
  apply Z.eqb_eq in E. congruence.
Qed.

Lemma toy_pairing_bilinear ec q : IBE.pairing_bilinear Toy.primitives ec q.
Proof.
  intros a b A B aA bB bA theta HaA HbB HbA _ _ Hpair. simpl in *.
  unfold Toy.multiply in *. unfold Toy.pairing in *.
  injection HaA as <-. injection HbB as <-. injection HbA as <-.
  injection Hpair as <-.
  unfold Toy.modPow. simpl. rewrite !toy_val_point.
  do 2 f_equal. ring.
Qed.

Lemma ibe_decrypt_inverts_encrypt_witness :
  exists ct rng',
    IBE.cryptid_extract Toy.primitives Toy.isPublicParametersValid (Some Infinity)
      Examples.alice Examples.pp Examples.masterSecret
    = (CRYPTID_SUCCESS, Some Examples.sk_alice)
    /\ IBE.cryptid_encrypt Toy.primitives Toy.isPublicParametersValid Examples.blank_ct
         (Some Examples.hello) (Some Examples.alice) Examples.pp Toy.counting
       = Some (CRYPTID_SUCCESS, ct, rng')
    /\ forall plain0 : option (list byte),
         IBE.cryptid_decrypt Toy.primitives Toy.isPublicParametersValid
           Toy.isCipherTextTupleValid plain0 Examples.sk_alice ct Examples.pp
         = Some (CRYPTID_SUCCESS, Some Examples.hello).
Proof.
  apply (ibe_decrypt_inverts_encrypt Toy.primitives
           Toy.isPublicParametersValid Toy.isCipherTextTupleValid
           Examples.pp Examples.masterSecret Examples.alice Examples.hello
           Infinity Examples.blank_ct Toy.counting
           (Affine 511 0) Examples.sk_alice (Affine 48 0) (mkComplex 61320 0)).
  - reflexivity.
  - simpl. lia.
  - discriminate.
  - reflexivity.
  - apply toy_pairing_bilinear.
  - reflexivity.
  - reflexivity.
  - reflexivity.
  - reflexivity.
  - reflexivity.
  - reflexivity.
  - intros x. simpl. lia.
  - intros seed. simpl. lia.
  - reflexivity.
  - reflexivity.
Defined.

(** The ciphertext of the example, and its decryption. *)
Example ibe_example_run :
  IBE.cryptid_encrypt Toy.primitives Toy.isPublicParametersValid Examples.blank_ct
    (Some Examples.hello) (Some Examples.alice) Examples.pp Toy.counting
  = Some (CRYPTID_SUCCESS, Examples.ct_hello, Examples.counting_from_3)
  /\ IBE.cryptid_decrypt Toy.primitives Toy.isPublicParametersValid
       Toy.isCipherTextTupleValid None Examples.sk_alice Examples.ct_hello Examples.pp
     = Some (CRYPTID_SUCCESS, Some Examples.hello).
Proof. split; reflexivity. Qed.

(** ** The consistency check of [cryptid_decrypt] *)

Lemma xor_loop_xor_octets n :
  forall a b,
    (n <= length a)%nat -> (n <= length b)%nat ->
    xor_loop n a b = Some (xor_octets (firstn n a) (firstn n b)).
Proof.
  induction n as [|n IH]; intros a b Ha Hb; [reflexivity|].
  destruct a as [|x a]; simpl in Ha; [lia|].
  destruct b as [|y b]; simpl in Hb; [lia|].
  simpl. rewrite IH by lia. reflexivity.
Qed.

Lemma xor_octets_length (a b : list byte) :
  length (xor_octets a b) = Nat.min (length a) (length b).
Proof.
  unfold xor_octets. rewrite length_map. apply length_combine.
Qed.

Lemma copy_loop_is_firstn n :
  forall src, (n <= length src)%nat -> copy_loop n src = Some (firstn n src).
Proof.
  induction n as [|n IH]; intros src H; [reflexivity|].
  destruct src as [|x src]; simpl in H; [lia|].
  simpl. rewrite IH by lia. reflexivity.
Qed.

(** The middle part of [cryptid_decrypt] computes the values the
    specification names, provided that no buffer is read past its end. *)
Lemma decrypt_recompute_specified
    (prim : Primitives) (theta : Complex)
    (ct : IBE.CipherTextTuple) (pp : IBE.PublicParameters) :
  let hf := pp.(IBE.hashFunction) in
  let hashLen := hf.(hashLength) in
  let rho := specified_rho prim theta ct pp in
  let m := specified_plaintext prim theta ct pp in
  (hashLen <= length (hf.(sha_hash)
                        (canonical prim pp.(IBE.ellipticCurve).(fieldOrder) theta 1)))%nat ->
  (hashLen <= IBE.cipherVLength ct)%nat ->
  (IBE.cipherWLength ct <= length (hashBytes prim (IBE.cipherWLength ct) rho hf))%nat ->
  (hashLen <= length (hf.(sha_hash) m))%nat ->
  IBE.decrypt_recompute prim theta ct pp = Some (m, specified_l prim theta ct pp).
Proof.
  intros hf hashLen rho m Hw HV Hhb Ht.
  unfold IBE.decrypt_recompute. fold hf. fold hashLen.
  rewrite xor_loop_xor_octets by assumption.
  change (xor_octets _ _) with rho at 1.
  assert (Hrho : length rho = hashLen).
  { unfold rho, specified_rho. rewrite xor_octets_length, !length_firstn.
    fold hf. fold hashLen. unfold IBE.cipherVLength in HV. lia. }
  rewrite xor_loop_xor_octets by (assumption || (unfold IBE.cipherWLength; lia)).
  replace (firstn (IBE.cipherWLength ct) (IBE.cipherW ct)) with (IBE.cipherW ct)
    by (unfold IBE.cipherWLength; now rewrite firstn_all).
  change (xor_octets _ (IBE.cipherW ct)) with m.
  change (xor_octets _ (firstn hashLen (IBE.cipherV ct))) with rho.
  rewrite (copy_loop_is_firstn hashLen rho) by (rewrite Hrho; apply Nat.le_refl).
  rewrite copy_loop_is_firstn by assumption.
  replace (firstn hashLen rho) with rho by (rewrite <- Hrho; now rewrite firstn_all).
  reflexivity.
Qed.

(** C6.  Take a call of [cryptid_decrypt] that gets past its three
    validations, whose pairing succeeds with [theta], and which reads no
    buffer past its end.  Let [rho] be the digest of [theta] xor-ed with
    [cipherV], [m] be [cipherW] xor-ed with [hashBytes(|W|, rho)], and
    [l = hashToRange(rho || H(m), q)], and let the multiplication
    [l * pointP] succeed with [testPoint].  If the ciphertext point [cipherU]
    equals [testPoint], the call returns [SUCCESS] and stores [m]; if it does
    not, the call returns [DECRYPTION_FAILED_ERROR] and leaves [*result] as
    it was. *)
Theorem ibe_decrypt_consistency_check
    (prim : Primitives)
    (vPP : IBE.PublicParameters -> bool) (vCT : IBE.CipherTextTuple -> mpz -> bool)
    (result : option (list byte)) (privateKey : AffinePoint)
    (ct : IBE.CipherTextTuple) (pp : IBE.PublicParameters)
    (theta : Complex) (testPoint : AffinePoint) :
  let hf := pp.(IBE.hashFunction) in
  let hashLen := hf.(hashLength) in
  let rho :=
    xor_octets
      (firstn hashLen
         (hf.(sha_hash) (canonical prim pp.(IBE.ellipticCurve).(fieldOrder) theta 1)))
      (firstn hashLen ct.(IBE.cipherV)) in
  let m :=
    xor_octets
      (firstn (length ct.(IBE.cipherW))
         (hashBytes prim (length ct.(IBE.cipherW)) rho hf))
      ct.(IBE.cipherW) in
  let l := hashToRange prim (rho ++ firstn hashLen (hf.(sha_hash) m)) pp.(IBE.q) hf in
  vPP pp = true ->
  validation_isAffinePointValid prim privateKey pp.(IBE.ellipticCurve).(fieldOrder) = true ->
  vCT ct pp.(IBE.ellipticCurve).(fieldOrder) = true ->
  tate_performPairing prim 2 pp.(IBE.ellipticCurve) pp.(IBE.q) ct.(IBE.cipherU) privateKey
    = (CRYPTID_SUCCESS, theta) ->
  (hashLen <= length (hf.(sha_hash)
                        (canonical prim pp.(IBE.ellipticCurve).(fieldOrder) theta 1)))%nat ->
  (hashLen <= length ct.(IBE.cipherV))%nat ->
  (length ct.(IBE.cipherW) <= length (hashBytes prim (length ct.(IBE.cipherW)) rho hf))%nat ->
  (hashLen <= length (hf.(sha_hash) m))%nat ->
  affine_wNAFMultiply prim l pp.(IBE.pointP) pp.(IBE.ellipticCurve)
    = (CRYPTID_SUCCESS, testPoint) ->
  (ct.(IBE.cipherU) = testPoint ->
   IBE.cryptid_decrypt prim vPP vCT result privateKey ct pp
   = Some (CRYPTID_SUCCESS, Some m))
  /\
  (ct.(IBE.cipherU) <> testPoint ->
   IBE.cryptid_decrypt prim vPP vCT result privateKey ct pp
   = Some (CRYPTID_DECRYPTION_FAILED_ERROR, result)).
Proof.
  intros hf hashLen rho m l Hpp Hsk Hct Hpair Hw HV Hhb Ht Hmul.
  pose proof (decrypt_recompute_specified prim theta ct pp Hw HV Hhb Ht) as Hre.
  change (specified_plaintext prim theta ct pp) with m in Hre.
  change (specified_l prim theta ct pp) with l in Hre.
  unfold IBE.cryptid_decrypt.
  rewrite Hpp, Hsk, Hct, Hpair. simpl.
  rewrite Hre, Hmul. simpl.
  destruct (affine_isEquals (IBE.cipherU ct) testPoint) eqn:E.
  - apply affine_isEquals_iff in E. split; [reflexivity | contradiction].
  - split; [|reflexivity].
    intros Heq. apply affine_isEquals_iff in Heq. congruence.
Qed.

Lemma ibe_decrypt_consistency_check_witness :
  IBE.cryptid_decrypt Toy.primitives Toy.isPublicParametersValid
    Toy.isCipherTextTupleValid None Examples.sk_alice Examples.ct_tampered Examples.pp
  = Some (CRYPTID_DECRYPTION_FAILED_ERROR, None).
Proof.
  apply (ibe_decrypt_consistency_check Toy.primitives
           Toy.isPublicParametersValid Toy.isCipherTextTupleValid
           None Examples.sk_alice Examples.ct_tampered Examples.pp
           (mkComplex 245280 0) (Affine 72 0)).
  - reflexivity.
  - reflexivity.
  - reflexivity.
  - reflexivity.
  - vm_compute. lia.
  - vm_compute. lia.
  - vm_compute. lia.
  - vm_compute. lia.
  - vm_compute. reflexivity.
  - vm_compute. discriminate.
Defined.

(** ** Termination of the setup functions *)

Section SetupLoopFacts.

Variable prim : Primitives.

Lemma select_p_more_fuel n :
  forall q len rng x,
    select_p prim n q len rng = Some x ->
    forall m, (n <= m)%nat -> select_p prim m q len rng = Some x.
Proof.
  induction n as [|n IH]; intros q len rng x H m Hm; [discriminate|].
  destruct m as [|m]; [lia|].
  simpl in *.
  destruct (random_mpzOfLength prim len rng) as [r rng1].
  destruct (negb (validation_isProbablePrime prim (r * 12 * q - 1))).
  - apply IH with (1 := H). lia.
  - exact H.
Qed.

Lemma select_p_eventually q len :
  forall rng,
    eventually_prime prim q len rng ->
    exists fuel x, select_p prim fuel q len rng = Some x.
Proof.
  intros rng [k Hk]. revert rng Hk.
  induction k as [|k IH]; intros rng Hk.
  - exists 1%nat. simpl in *.
    destruct (random_mpzOfLength prim len rng) as [r rng1]. simpl in Hk.
    rewrite Hk. simpl. eauto.
  - unfold rng_after_r_draws in Hk. rewrite Nat.iter_succ_r in Hk.
    destruct (IH _ Hk) as [fuel [x Hx]].
    exists (S fuel). simpl.
    destruct (random_mpzOfLength prim len rng) as [r rng1]. simpl in Hx.
    destruct (negb (validation_isProbablePrime prim (r * 12 * q - 1))); eauto.
Qed.

Variable multiply : mpz -> AffinePoint -> EllipticCurve -> CryptidStatus * AffinePoint.

Lemma select_pointP_more_fuel n :
  forall r ec rng x,
    select_pointP prim multiply n r ec rng = Some x ->
    forall m, (n <= m)%nat -> select_pointP prim multiply m r ec rng = Some x.
Proof.
  induction n as [|n IH]; intros r ec rng x H m Hm; [discriminate|].
  destruct m as [|m]; [lia|].
  simpl in *.
  destruct (random_affinePoint prim ec POINT_GENERATION_ATTEMPT_LIMIT rng)
    as [[st P'] rng1].
  destruct (failed st); [exact H|].
  destruct (multiply (r * 12) P' ec) as [st2 P].
  destruct (failed st2); [exact H|].
  destruct (affine_isInfinity P); [|exact H].
  apply IH with (1 := H). lia.
Qed.

Lemma select_pointP_eventually r ec :
  forall rng,
    eventually_leaves prim multiply r ec rng ->
    exists fuel x, select_pointP prim multiply fuel r ec rng = Some x.
Proof.
  intros rng [k Hk]. revert rng Hk.
  induction k as [|k IH]; intros rng Hk.
  - exists 1%nat. simpl in *. unfold point_attempt_leaves in Hk.
    destruct (random_affinePoint prim ec POINT_GENERATION_ATTEMPT_LIMIT rng)
      as [[st P'] rng1].
    destruct (failed st); [eauto|].
    destruct (multiply (r * 12) P' ec) as [st2 P].
    destruct (failed st2); [eauto|].
    destruct (affine_isInfinity P); [discriminate | eauto].
  - unfold rng_after_point_draws in Hk. rewrite Nat.iter_succ_r in Hk.
    destruct (IH _ Hk) as [fuel [x Hx]].
    exists (S fuel). simpl.
    destruct (random_affinePoint prim ec POINT_GENERATION_ATTEMPT_LIMIT rng)
      as [[st P'] rng1].
    simpl in Hx.
    destruct (failed st); [eauto|].
    destruct (multiply (r * 12) P' ec) as [st2 P].
    destruct (failed st2); [eauto|].
    destruct (affine_isInfinity P); eauto.
Qed.

End SetupLoopFacts.

(** With the random source that draws 4 for ever the first loop is never
    left: every candidate is 335. *)
Lemma select_p_always_four len :
  forall fuel, select_p Toy.primitives fuel 7 len Toy.always_four = None.
Proof.
  induction fuel as [|fuel IH]; [reflexivity|].
  simpl.
  change (fun n : nat => Toy.always_four (S n)) with Toy.always_four.
  exact IH.
Qed.

(** C7, as the code has it.  [random_solinasPrime] and [random_affinePoint]
    are called with a cap of 100 attempts.  The two loops of the setup
    functions themselves have no cap.  Both [cryptid_setup] and
    [cryptid_setup_ABE] return, with some status, as soon as enough
    iterations are granted, provided that some draw of [r] makes
    [12 * r * q - 1] pass the primality test and that some pass through the
    second loop produces an early return or a point other than the point at
    infinity. *)
Theorem setup_returns_when_searches_end
    (prim : Primitives) (securityLevel : SecurityLevel)
    (pp0 : IBE.PublicParameters) (masterSecret0 : mpz)
    (pk0 : ABE.PublicKey_ABE) (mk0 : ABE.MasterKey_ABE) (rng rng0 : Rand prim)
    (status : CryptidStatus) (q : mpz) :
  random_solinasPrime prim (nth (level_index securityLevel) Q_LENGTH_MAPPING 0)
                      100 rng = (status, q, rng0) ->
  eventually_prime prim q (lengthOfR_for securityLevel) rng0 ->
  (forall n r p rng1,
      select_p prim n q (lengthOfR_for securityLevel) rng0 = Some (r, p, rng1) ->
      eventually_leaves prim (affine_wNAFMultiply prim) r (ellipticCurve_init 0 1 p) rng1
      /\ eventually_leaves prim (AFFINE_MULTIPLY_IMPL prim) r (ellipticCurve_init 0 1 p) rng1) ->
  exists fuel out_ibe out_abe,
    IBE.cryptid_setup prim fuel securityLevel (Some pp0) masterSecret0 rng = Some out_ibe
    /\ ABE.cryptid_setup_ABE prim fuel securityLevel pk0 mk0 rng = Some out_abe.
Proof.
  intros Hq Hprime Hpoint.
  destruct (select_p_eventually prim q _ rng0 Hprime) as [n1 [[[r p] rng1] H1]].
  destruct (Hpoint _ _ _ _ H1) as [Hw Hi].
  destruct (select_pointP_eventually prim _ r _ rng1 Hw) as [n2 [[[st2 P2] g2] H2]].
  destruct (select_pointP_eventually prim _ r _ rng1 Hi) as [n3 [[[st3 P3] g3] H3]].
  set (fuel := (n1 + n2 + n3)%nat).
  assert (F1 : select_p prim fuel q (lengthOfR_for securityLevel) rng0 = Some (r, p, rng1))
    by (apply select_p_more_fuel with (1 := H1); unfold fuel; lia).
  assert (F2 : select_pointP prim (affine_wNAFMultiply prim) fuel r
                 (ellipticCurve_init 0 1 p) rng1 = Some (st2, P2, g2))
    by (apply select_pointP_more_fuel with (1 := H2); unfold fuel; lia).
  assert (F3 : select_pointP prim (AFFINE_MULTIPLY_IMPL prim) fuel r
                 (ellipticCurve_init 0 1 p) rng1 = Some (st3, P3, g3))
    by (apply select_pointP_more_fuel with (1 := H3); unfold fuel; lia).
  exists fuel.
  unfold IBE.cryptid_setup, ABE.cryptid_setup_ABE.
  change SOLINAS_GENERATION_ATTEMPT_LIMIT with 100.
  rewrite Hq.
  destruct (failed status); [eauto|].
  rewrite F1, F2, F3.
  destruct (failed st2), (failed st3);
    repeat match goal with
           | |- context [let '(_, _) := ?e in _] => destruct e
           | |- context [if ?b then _ else _] => destruct b
           end; eauto.
Qed.

Lemma setup_returns_when_searches_end_witness :
  exists fuel out_ibe out_abe,
    IBE.cryptid_setup Toy.primitives fuel LOWEST (Some Examples.blank_pp) 0 Toy.counting
    = Some out_ibe
    /\ ABE.cryptid_setup_ABE Toy.primitives fuel LOWEST Examples.blank_pk
         Examples.blank_mk Toy.counting = Some out_abe.
Proof.
  apply (setup_returns_when_searches_end Toy.primitives LOWEST Examples.blank_pp 0
           Examples.blank_pk Examples.blank_mk Toy.counting Toy.counting
           CRYPTID_SUCCESS 7).
  - reflexivity.
  - exists 0%nat. reflexivity.
  - intros n r p rng1 H.
    destruct n as [|n]; [discriminate|].
    injection H as <- <- <-.
    split; exists 0%nat; reflexivity.
Defined.

(** C7, as the specification has it, fails: with the random source that
    draws 4 for ever neither setup function returns, however many iterations
    are granted. *)
Lemma setup_never_returns_counterexample :
  (forall fuel,
      IBE.cryptid_setup Toy.primitives fuel LOWEST (Some Examples.blank_pp) 0
        Toy.always_four = None)
  /\
  (forall fuel,
      ABE.cryptid_setup_ABE Toy.primitives fuel LOWEST Examples.blank_pk
        Examples.blank_mk Toy.always_four = None).
Proof.
  split; intros fuel.
  - unfold IBE.cryptid_setup. simpl.
    rewrite select_p_always_four. reflexivity.
  - unfold ABE.cryptid_setup_ABE. simpl.
    rewrite select_p_always_four. reflexivity.
Qed.

(* ================================================================== *)
(** ** CP-ABE *)

(** *** Argument checks of [cryptid_encrypt_ABE] *)

(** C10.  A null [message], a null [publickey] and a null [accessTree] all
    make [cryptid_encrypt_ABE] return [CRYPTID_MESSAGE_NULL_ERROR]; a message
    of length zero makes it return [CRYPTID_MESSAGE_LENGTH_ERROR].  The checks
    are made in the order message, length, public key, tree, and nothing is
    stored or drawn before they have passed. *)
Theorem encrypt_ABE_argument_errors
    (prim : Primitives) (Polynom : Type)
    (createPolynom : Z -> mpz -> ABE.PublicKey_ABE -> Rand prim -> Polynom * Rand prim)
    (polynomSum : Polynom -> Z -> mpz) (isLeaf : ABE.AccessTree -> bool)
    (encrypted : ABE.EncryptedMessage_ABE) (rng : Rand prim) :
  (forall publickey accessTree,
      ABE.cryptid_encrypt_ABE prim Polynom createPolynom polynomSum isLeaf
        encrypted None publickey accessTree rng
      = (CRYPTID_MESSAGE_NULL_ERROR, encrypted, accessTree, rng))
  /\
  (forall publickey accessTree,
      ABE.cryptid_encrypt_ABE prim Polynom createPolynom polynomSum isLeaf
        encrypted (Some []) publickey accessTree rng
      = (CRYPTID_MESSAGE_LENGTH_ERROR, encrypted, accessTree, rng))
  /\
  (forall c message accessTree,
      ABE.cryptid_encrypt_ABE prim Polynom createPolynom polynomSum isLeaf
        encrypted (Some (c :: message)) None accessTree rng
      = (CRYPTID_MESSAGE_NULL_ERROR, encrypted, accessTree, rng))
  /\
  (forall c message publickey,
      ABE.cryptid_encrypt_ABE prim Polynom createPolynom polynomSum isLeaf
        encrypted (Some (c :: message)) (Some publickey) None rng
      = (CRYPTID_MESSAGE_NULL_ERROR, encrypted, None, rng)).
Proof. repeat split. Qed.

(** A run of [cryptid_encrypt_ABE] for the one-octet message "A" under the
    gate "a AND b": the loop of [compute_tree] starts at index 1, so that the
    child at index 0 keeps the [Cy] and [CyA] it had. *)
Example encrypt_ABE_example_run :
  let '(status, encrypted, accessTree, _) :=
    ABE.cryptid_encrypt_ABE Toy.primitives Toy.Polynom Toy.createPolynom
      Toy.polynomSum Toy.isLeaf (Examples.encrypted_under Examples.leaf_a)
      (Some [Byte.x41]) (Some Examples.pk) (Some Examples.a_and_b) Toy.counting in
  status = CRYPTID_SUCCESS
  /\ ABE.Ctilde encrypted = mkComplex 1793 0
  /\ ABE.C encrypted = Affine 96 0
  /\ option_map
       (fun t => map (option_map (fun c => (ABE.Cy c, ABE.CyA c))) (ABE.children t))
       accessTree
     = Some [Some (Affine 3 0, Affine 5 0); Some (Affine 72 0, Affine 297 0)].
Proof. vm_compute. repeat split. Qed.

(** *** [Lagrange_coefficient] *)

(** C3 fails on the code.  For the index 1 in the set {1, 2, 3} the
    coefficient at 0 is (0 - 2)/(1 - 2) * (0 - 3)/(1 - 3) = 3, and this is
    what the definition with modular inverses gives, here modulo 11.  The
    code divides each factor as an [int], which turns the second factor 3/2
    into 1, and returns 2.  The two values differ by 1, so they are congruent
    modulo no [q] above 1. *)
Theorem Lagrange_coefficient_divides_integers :
  Lagrange_coefficient 1 [1; 2; 3] 0 = Some 2
  /\ Lagrange_coefficient_mod 11 1 [1; 2; 3] 0 = 3
  /\ option_map (fun code => Lagrange_coefficient_mod 11 1 [1; 2; 3] 0 - code)
       (Lagrange_coefficient 1 [1; 2; 3] 0) = Some 1.
Proof. repeat split. Qed.

(** *** [DecryptNode_ABE] on an internal node *)

Lemma array_store_length {A : Type} (a : list A) :
  forall i v, length (ABE.array_store a i v) = length a.
Proof.
  induction a as [|x a IH]; intros i v; [reflexivity|].
  destruct i; simpl; [reflexivity | now rewrite IH].
Qed.

Lemma array_write_length {A : Type} (a a' : list A) (i : Z) (v : A) :
  ABE.array_write a i v = Some a' -> length a' = length a.
Proof.
  unfold ABE.array_write. destruct (_ && _); [|discriminate].
  intros H. injection H as <-. apply array_store_length.
Qed.

Lemma array_read_past_end {A : Type} (a : list A) (i : Z) :
  Z.of_nat (length a) <= i -> ABE.array_read a i = None.
Proof.
  intros H. unfold ABE.array_read.
  destruct (i <? Z.of_nat (length a)) eqn:E; [apply Z.ltb_lt in E; lia|].
  now rewrite andb_false_r.
Qed.

Lemma automatic_array_length {A : Type} (n : nat) (auto : list A) (filler : A) :
  length (ABE.automatic_array n auto filler) = n.
Proof.
  unfold ABE.automatic_array.
  rewrite length_firstn, length_app, repeat_length. lia.
Qed.

(** The first loop: it has a result when every recursive call has one; [num]
    is then the number of calls that set their code to 1, and at least [num]
    entries of [Sx] are not null. *)
Lemma DecryptNode_children_outcome recurse stack :
  let succeeds (c : option ABE.AccessTree) :=
    match c with
    | Some child =>
        match recurse child stack.(ABE.auto_Complex) 0 with
        | Some (_, _, code) => code =? 1
        | None => false
        end
    | None => false
    end in
  let returns (c : option ABE.AccessTree) :=
    match c with
    | Some child =>
        match recurse child stack.(ABE.auto_Complex) 0 with
        | Some _ => true
        | None => false
        end
    | None => true
    end in
  forall cs auto,
    match ABE.DecryptNode_children recurse stack cs auto with
    | Some (Sx, num) =>
        forallb returns cs = true
        /\ num = Z.of_nat (length (filter succeeds cs))
        /\ num <= Z.of_nat (length (filter (fun p => negb (ABE.is_null p)) Sx))
    | None => forallb returns cs = false
    end.
Proof.
  intros succeeds returns. subst succeeds returns.
  induction cs as [|c cs IH]; intros auto.
  - simpl. repeat split; lia.
  - specialize (IH (tl auto)).
    cbn -[Z.add Z.of_nat].
    destruct c as [child|].
    + destruct (recurse child (ABE.auto_Complex stack) 0) as [[[st F] code]|];
        [|reflexivity].
      destruct (ABE.DecryptNode_children recurse stack cs (tl auto)) as [[rest n]|].
      * destruct IH as (Hr & Hn & Hnn).
        destruct (code =? 1); cbn -[Z.add Z.of_nat].
        -- repeat split; [exact Hr | rewrite Nat2Z.inj_succ; lia | rewrite Nat2Z.inj_succ; lia].
        -- repeat split; [exact Hr | lia |].
           destruct (negb (ABE.is_null (hd ABE.NullPointer auto)));
             cbn -[Z.add Z.of_nat]; [rewrite Nat2Z.inj_succ|]; lia.
      * destruct (code =? 1); cbn -[Z.add Z.of_nat]; exact IH.
    + destruct (ABE.DecryptNode_children recurse stack cs (tl auto)) as [[rest n]|].
      * destruct IH as (Hr & Hn & Hnn). cbn -[Z.add Z.of_nat].
        repeat split; [exact Hr | lia |].
        destruct (negb (ABE.is_null (hd ABE.NullPointer auto)));
          cbn -[Z.add Z.of_nat]; [rewrite Nat2Z.inj_succ|]; lia.
      * exact IH.
Qed.

(** The second loop: it stores through [indexes[c]] once for every entry of
    [Sx] that is not null. *)
Lemma collect_indexes_count :
  forall Sx i indexes c indexes' c',
    ABE.collect_indexes Sx i indexes c = Some (indexes', c') ->
    c' = c + Z.of_nat (length (filter (fun p => negb (ABE.is_null p)) Sx))
    /\ length indexes' = length indexes.
Proof.
  induction Sx as [|p Sx IH]; intros i indexes c indexes' c' H.
  - simpl in H. injection H as <- <-. simpl. split; [lia | reflexivity].
  - cbn -[Z.add Z.of_nat] in *.
    destruct (negb (ABE.is_null p)).
    + destruct (ABE.array_write indexes c i) as [written|] eqn:W; [|discriminate].
      apply IH in H as [-> Hlen].
      apply array_write_length in W.
      cbn -[Z.add Z.of_nat]. rewrite Nat2Z.inj_succ. split; [lia | congruence].
    + apply IH in H. exact H.
Qed.

(** The third loop: its first iteration reads [indexes[c]]. *)
Lemma Fx_loop_reads_past_end prim todo i indexes c Sx p Fx :
  (0 < todo)%nat ->
  Z.of_nat (length indexes) <= c ->
  ABE.Fx_loop prim todo i indexes c Sx p Fx = None.
Proof.
  intros Htodo Hc. destruct todo as [|todo]; [lia|].
  simpl. destruct (Lagrange_coefficient i indexes 0); [|reflexivity].
  now rewrite array_read_past_end.
Qed.

(** What [DecryptNode_ABE] does on a node that is not a leaf. *)
Lemma DecryptNode_gate_outcome
    (prim : Primitives) (isLeaf : ABE.AccessTree -> bool)
    (stack : ABE.Indeterminate) (encrypted : ABE.EncryptedMessage_ABE)
    (secretkey : ABE.SecretKey_ABE) (node : ABE.AccessTree)
    (result : Complex) (statusCode : Z) :
  isLeaf node = false ->
  ABE.DecryptNode_ABE prim isLeaf stack encrypted secretkey node result statusCode
  = if forallb (ABE.child_returns prim isLeaf stack encrypted secretkey)
         node.(ABE.children)
       && (ABE.successful_children prim isLeaf stack encrypted secretkey node =? 0)
    then Some (CRYPTID_SUCCESS, result, statusCode)
    else None.
Proof.
  intros Hleaf.
  destruct node as [v cs a al cy cya].
  unfold ABE.successful_children. simpl.
  rewrite Hleaf.
  pose proof (DecryptNode_children_outcome
                (ABE.DecryptNode_ABE prim isLeaf stack encrypted secretkey)
                stack cs (ABE.auto_Sx stack)) as Hc.
  cbv zeta in Hc.
  unfold ABE.child_returns, ABE.child_succeeds.
  destruct (ABE.DecryptNode_children _ stack cs (ABE.auto_Sx stack)) as [[Sx num]|].
  - destruct Hc as (Hr & Hn & Hnn).
    rewrite Hr. rewrite <- Hn. simpl.
    destruct (0 <? num) eqn:Hpos.
    + apply Z.ltb_lt in Hpos.
      destruct (num =? 0) eqn:E0; [apply Z.eqb_eq in E0; lia|].
      destruct (ABE.collect_indexes Sx 0 _ 0) as [[indexes c]|] eqn:Hcol; [|reflexivity].
      apply collect_indexes_count in Hcol as [-> Hlen].
      rewrite automatic_array_length in Hlen.
      rewrite Fx_loop_reads_past_end; [reflexivity | lia | lia].
    + apply Z.ltb_ge in Hpos.
      destruct (num =? 0) eqn:E0; [reflexivity | apply Z.eqb_neq in E0; lia].
  - rewrite Hc. reflexivity.
Qed.


(** With a pairing that fails, the call on the leaf "a" returns an error for
    the key that holds "a"; the call on the gate above it returns
    [CRYPTID_SUCCESS] all the same and leaves the status code at 0. *)
Example DecryptNode_leaf_reports_pairing_error (stack : ABE.Indeterminate) (r : Complex) :
  ABE.DecryptNode_ABE Toy.primitives_failing_pairing Toy.isLeaf stack
    (Examples.encrypted_under Examples.a_and_b) Examples.sk_a
    Examples.leaf_a r 0
  = Some (CRYPTID_PRIMITIVE_ERROR 1, r, 0).
Proof. reflexivity. Qed.



(** C4 fails on the code.  Take the gate over the leaves "a" and "b" with any
    threshold [k], and the key that holds the attribute "a" only: one child
    succeeds.  For [k = 2] the node is to fail, for [k = 1] it is to deliver
    the value of the child "a" raised to its Lagrange coefficient.  The code
    never looks at [k]: in either case it enters the third loop, and the
    call ends there without a result, whatever the automatic objects held. *)
Theorem DecryptNode_ignores_threshold
    (k : Z) (stack : ABE.Indeterminate) (result : Complex) (statusCode : Z) :
  ABE.value (Examples.gate_a_b k) = k
  /\ ABE.successful_children Toy.primitives Toy.isLeaf stack
       (Examples.encrypted_under (Examples.gate_a_b k)) Examples.sk_a
       (Examples.gate_a_b k) = 1
  /\ ABE.DecryptNode_ABE Toy.primitives Toy.isLeaf stack
       (Examples.encrypted_under (Examples.gate_a_b k)) Examples.sk_a
       (Examples.gate_a_b k) result statusCode
     = None.
Proof.
  split; [reflexivity|]. split; [reflexivity|].
  rewrite DecryptNode_gate_outcome by reflexivity.
  reflexivity.
Qed.

(** *** [cryptid_decrypt_ABE] *)

(** C2 fails on the code.  Whatever the ciphertext and the key are, the
    buffer [result] holds after the call what it held before: the recovered
    value only goes to the standard output. *)
Theorem decrypt_ABE_never_writes_result
    (prim : Primitives) (isLeaf : ABE.AccessTree -> bool)
    (satisfyValue : ABE.AccessTree -> list String.string -> Z)
    (stack : ABE.Indeterminate) (result : list byte)
    (encrypted : ABE.EncryptedMessage_ABE) (secretkey : ABE.SecretKey_ABE) :
  match ABE.cryptid_decrypt_ABE prim isLeaf satisfyValue stack result
          encrypted secretkey with
  | Some (_, result', _) => result' = result
  | None => True
  end.
Proof.
  unfold ABE.cryptid_decrypt_ABE.
  destruct (satisfyValue _ _ =? 0); [reflexivity|].
  destruct (ABE.DecryptNode_ABE _ _ _ _ _ _ _ _) as [[[st A] code]|]; [|exact I].
  destruct (code =? 0); [reflexivity|].
  destruct (tate_performPairing _ _ _ _ _ _) as [st1 eCD].
  destruct (failed st1); [reflexivity|].
  destruct (complex_multiplicativeInverse _ _ _) as [st2 inv].
  destruct (failed st2); reflexivity.
Qed.

(** A run that returns [CRYPTID_SUCCESS]: the tree is the single leaf "a",
    the key holds "a"; the buffer is untouched. *)
Example decrypt_ABE_success_without_plaintext :
  ABE.cryptid_decrypt_ABE Toy.primitives Toy.isLeaf Toy.satisfyValue
    (ABE.mkIndeterminate (mkComplex 9 9) [ABE.NullPointer; ABE.NullPointer] [])
    [Byte.x00; Byte.x00] (Examples.encrypted_under Examples.leaf_a) Examples.sk_a
  = Some (CRYPTID_SUCCESS, [Byte.x00; Byte.x00], Some (mkComplex (-142939) 0)).
Proof. vm_compute. reflexivity. Qed.

(** *** [cryptid_keygen_ABE] *)


(** *** [cryptid_setup_ABE] *)

(** A failure of [random_solinasPrime] leaves both structures as they
    were. *)
Lemma setup_ABE_early_failure_keeps_outputs
    (prim : Primitives) (fuel : nat) (securityLevel : SecurityLevel)
    (pk0 : ABE.PublicKey_ABE) (mk0 : ABE.MasterKey_ABE) (rng rng0 : Rand prim)
    (status : CryptidStatus) (q : mpz) :
  random_solinasPrime prim (nth (level_index securityLevel) Q_LENGTH_MAPPING 0)
                      SOLINAS_GENERATION_ATTEMPT_LIMIT rng = (status, q, rng0) ->
  failed status = true ->
  ABE.cryptid_setup_ABE prim fuel securityLevel pk0 mk0 rng
  = Some (status, pk0, mk0, rng0).
Proof.
  intros Hq Hf. unfold ABE.cryptid_setup_ABE. rewrite Hq, Hf. reflexivity.
Qed.

(** C8 fails on the code.  Once the searches for [p] and for the generator
    have succeeded, [cryptid_setup_ABE] stores the curve and the generator
    into [*publickey] before it calls anything that can fail again.  So
    whatever status the call returns after that point, a failure of one of
    the three multiplications or of the pairing included, [*publickey] holds
    the new curve and the new generator. *)
Theorem setup_ABE_writes_before_it_fails
    (prim : Primitives) (fuel : nat) (securityLevel : SecurityLevel)
    (pk0 : ABE.PublicKey_ABE) (mk0 : ABE.MasterKey_ABE) (rng rng0 rng1 rng2 rng' : Rand prim)
    (q r p : mpz) (pointP : AffinePoint)
    (status : CryptidStatus) (pk' : ABE.PublicKey_ABE) (mk' : ABE.MasterKey_ABE) :
  random_solinasPrime prim (nth (level_index securityLevel) Q_LENGTH_MAPPING 0)
                      SOLINAS_GENERATION_ATTEMPT_LIMIT rng = (CRYPTID_SUCCESS, q, rng0) ->
  select_p prim fuel q (lengthOfR_for securityLevel) rng0 = Some (r, p, rng1) ->
  select_pointP prim (AFFINE_MULTIPLY_IMPL prim) fuel r (ellipticCurve_init 0 1 p) rng1
    = Some (CRYPTID_SUCCESS, pointP, rng2) ->
  ABE.cryptid_setup_ABE prim fuel securityLevel pk0 mk0 rng = Some (status, pk', mk', rng') ->
  ABE.ellipticCurve pk' = ellipticCurve_init 0 1 p /\ ABE.g pk' = pointP.
Proof.
  intros Hq Hp HP Hrun.
  unfold ABE.cryptid_setup_ABE in Hrun.
  rewrite Hq in Hrun. simpl in Hrun.
  rewrite Hp, HP in Hrun. simpl in Hrun.
  destruct (random_mpzInRange prim (p - 1) rng2) as [alpha g3].
  destruct (random_mpzInRange prim (p - 1) g3) as [beta g4].
  destruct (AFFINE_MULTIPLY_IMPL prim beta pointP _) as [s1 h1].
  destruct (failed s1); [injection Hrun as _ <- _ _; split; reflexivity|].
  simpl in Hrun.
  destruct (AFFINE_MULTIPLY_IMPL prim (mpz_invert _ beta p) pointP _) as [s2 f1].
  destruct (failed s2); [injection Hrun as _ <- _ _; split; reflexivity|].
  simpl in Hrun.
  destruct (AFFINE_MULTIPLY_IMPL prim alpha pointP _) as [s3 ga].
  destruct (failed s3); [injection Hrun as _ <- _ _; split; reflexivity|].
  destruct (tate_performPairing prim 2 _ q pointP pointP) as [s4 pv].
  destruct (failed s4); injection Hrun as _ <- _ _; split; reflexivity.
Qed.

(** The run over the instance whose pairing fails: the status is an error,
    and the public key has been overwritten in all members but [eggalpha]. *)
Example setup_ABE_failing_run :
  ABE.cryptid_setup_ABE Toy.primitives_failing_pairing 5 LOWEST
    Examples.blank_pk Examples.blank_mk Toy.counting
  = Some (CRYPTID_PRIMITIVE_ERROR 1, Examples.pk_after_failed_setup,
          Examples.mk_after_failed_setup,
          fun n => Toy.counting (S (S (S (S n))))).
Proof. reflexivity. Qed.

Lemma setup_ABE_writes_before_it_fails_witness :
  ABE.ellipticCurve Examples.pk_after_failed_setup = ellipticCurve_init 0 1 83
  /\ ABE.g Examples.pk_after_failed_setup = Affine 24 0.
Proof.
  apply (setup_ABE_writes_before_it_fails Toy.primitives_failing_pairing 5 LOWEST
           Examples.blank_pk Examples.blank_mk
           Toy.counting Toy.counting
           (fun n => Toy.counting (S n)) (fun n => Toy.counting (S (S n)))
           (fun n => Toy.counting (S (S (S (S n)))))
           7 1 83 (Affine 24 0)
           (CRYPTID_PRIMITIVE_ERROR 1)
           Examples.pk_after_failed_setup Examples.mk_after_failed_setup).
  - reflexivity.
  - reflexivity.
  - reflexivity.
  - reflexivity.
Defined.

(* ================================================================== *)
(** * Further properties of the protocol code *)

(** [H] equates the outcome of a call with a given outcome: the tactic
    identifies the components. *)
Ltac returned H := injection H; intros; subst.

(** ** What the two search loops deliver *)

Lemma select_p_sound (prim : Primitives) fuel :
  forall q len rng r p rng1,
    select_p prim fuel q len rng = Some (r, p, rng1) ->
    p = r * 12 * q - 1 /\ validation_isProbablePrime prim p = true.
Proof.
  induction fuel as [|fuel IH]; intros q len rng r p rng1 H; [discriminate|].
  simpl in H.
  destruct (random_mpzOfLength prim len rng) as [r0 g1].
  destruct (validation_isProbablePrime prim (r0 * 12 * q - 1)) eqn:E; simpl in H.
  - returned H. auto.
  - eauto.
Qed.

Lemma select_pointP_sound (prim : Primitives) multiply fuel :
  forall r ec rng P rng1,
    select_pointP prim multiply fuel r ec rng = Some (CRYPTID_SUCCESS, P, rng1) ->
    affine_isInfinity P = false.
Proof.
  induction fuel as [|fuel IH]; intros r ec rng P rng1 H; [discriminate|].
  simpl in H.
  destruct (random_affinePoint prim ec POINT_GENERATION_ATTEMPT_LIMIT rng)
    as [[st P'] g1].
  destruct (failed st) eqn:F; [returned H; discriminate|].
  destruct (multiply (r * 12) P' ec) as [st2 P2].
  destruct (failed st2) eqn:F2; [returned H; discriminate|].
  destruct (affine_isInfinity P2) eqn:I; [eauto|].
  returned H. exact I.
Qed.

(** ** [cryptid_setup] *)

(** X1.  [cryptid_setup] stores nothing unless it succeeds: when it returns
    a status other than [SUCCESS], the structure behind [publicParameters]
    and [masterSecret] hold what they held before the call. *)
Theorem ibe_setup_failure_keeps_outputs
    (prim : Primitives) (fuel : nat) (securityLevel : SecurityLevel)
    (publicParameters pp' : option IBE.PublicParameters) (masterSecret ms' : mpz)
    (rng rng' : Rand prim) (status : CryptidStatus) :
  IBE.cryptid_setup prim fuel securityLevel publicParameters masterSecret rng
    = Some (status, pp', ms', rng') ->
  status <> CRYPTID_SUCCESS ->
  pp' = publicParameters /\ ms' = masterSecret.
Proof.
  intros H Hst. unfold IBE.cryptid_setup in H.
  destruct publicParameters as [pp0|]; [|returned H; auto].
  destruct (random_solinasPrime prim _ _ rng) as [[st q] g0].
  destruct (failed st); [returned H; auto|].
  destruct (select_p prim fuel q _ g0) as [[[r p] g1]|]; [|discriminate].
  destruct (select_pointP prim _ fuel r _ g1) as [[[st2 P] g2]|]; [|discriminate].
  destruct (failed st2); [returned H; auto|].
  destruct (random_mpzInRange prim (q - 2) g2) as [s g3].
  destruct (affine_wNAFMultiply prim (s + 2) P _) as [st3 Ppub].
  destruct (failed st3); [returned H; auto|].
  returned H. congruence.
Qed.

Lemma ibe_setup_failure_keeps_outputs_witness :
  @None IBE.PublicParameters = None /\ 0 = 0.
Proof.
  apply (ibe_setup_failure_keeps_outputs Toy.primitives 5 LOW None None 0 0
           Toy.counting Toy.counting CRYPTID_PUBLIC_PARAMETERS_NULL_ERROR).
  - reflexivity.
  - discriminate.
Defined.

(** X2.  What [cryptid_setup] has established when it returns [SUCCESS]:
    the curve is y^2 = x^3 + 1 over a field whose order [p] has the form
    [12 r q - 1] and has passed the primality test, the generator is not the
    point at infinity, the public point is the master secret times the
    generator, and the hash function is the one of the security level. *)
Theorem ibe_setup_success_establishes
    (prim : Primitives) (fuel : nat) (securityLevel : SecurityLevel)
    (publicParameters pp' : option IBE.PublicParameters) (masterSecret ms' : mpz)
    (rng rng' : Rand prim) :
  IBE.cryptid_setup prim fuel securityLevel publicParameters masterSecret rng
    = Some (CRYPTID_SUCCESS, pp', ms', rng') ->
  exists pp r,
    pp' = Some pp
    /\ pp.(IBE.ellipticCurve) = ellipticCurve_init 0 1 (r * 12 * pp.(IBE.q) - 1)
    /\ validation_isProbablePrime prim pp.(IBE.ellipticCurve).(fieldOrder) = true
    /\ affine_isInfinity pp.(IBE.pointP) = false
    /\ affine_wNAFMultiply prim ms' pp.(IBE.pointP) pp.(IBE.ellipticCurve)
       = (CRYPTID_SUCCESS, pp.(IBE.pointPpublic))
    /\ pp.(IBE.hashFunction) = hashFunction_initForSecurityLevel prim securityLevel.
Proof.
  intros H. unfold IBE.cryptid_setup in H.
  destruct publicParameters as [pp0|]; [|discriminate].
  destruct (random_solinasPrime prim _ _ rng) as [[st q] g0].
  destruct (failed st) eqn:F0; [returned H; discriminate|].
  destruct (select_p prim fuel q _ g0) as [[[r p] g1]|] eqn:Hp; [|discriminate].
  destruct (select_pointP prim _ fuel r _ g1) as [[[st2 P] g2]|] eqn:HP; [|discriminate].
  destruct (failed st2) eqn:F2; [returned H; discriminate|].
  status_passes F2.
  destruct (random_mpzInRange prim (q - 2) g2) as [s g3].
  destruct (affine_wNAFMultiply prim (s + 2) P _) as [st3 Ppub] eqn:Hmul.
  destruct (failed st3) eqn:F3; [returned H; discriminate|].
  status_passes F3.
  returned H.
  apply select_p_sound in Hp as [-> Hprime].
  apply select_pointP_sound in HP.
  eexists _, r. simpl. repeat split; auto.
Qed.

Lemma ibe_setup_success_establishes_witness :
  exists pp r,
    Some Examples.pp = Some pp
    /\ pp.(IBE.ellipticCurve) = ellipticCurve_init 0 1 (r * 12 * pp.(IBE.q) - 1)
    /\ validation_isProbablePrime Toy.primitives pp.(IBE.ellipticCurve).(fieldOrder) = true
    /\ affine_isInfinity pp.(IBE.pointP) = false
    /\ affine_wNAFMultiply Toy.primitives Examples.masterSecret pp.(IBE.pointP)
         pp.(IBE.ellipticCurve) = (CRYPTID_SUCCESS, pp.(IBE.pointPpublic))
    /\ pp.(IBE.hashFunction) = hashFunction_initForSecurityLevel Toy.primitives LOW.
Proof.
  apply (ibe_setup_success_establishes Toy.primitives 5 LOW (Some Examples.blank_pp)
           (Some Examples.pp) 0 Examples.masterSecret Toy.counting
           (fun n => Toy.counting (S (S (S n))))).
  reflexivity.
Defined.

(** X3.  The master secret lies between 2 and [q - 1]: if
    [random_mpzInRange] keeps its contract of drawing from [0, bound) and the
    Solinas prime [q] is above 2, a successful [cryptid_setup] leaves a
    master secret [s] with [2 <= s < q]. *)
Theorem ibe_setup_master_secret_range
    (prim : Primitives) (fuel : nat) (securityLevel : SecurityLevel)
    (pp0 pp : IBE.PublicParameters) (masterSecret ms' : mpz)
    (rng rng' : Rand prim) :
  (forall bound g, 0 < bound -> 0 <= fst (random_mpzInRange prim bound g) < bound) ->
  IBE.cryptid_setup prim fuel securityLevel (Some pp0) masterSecret rng
    = Some (CRYPTID_SUCCESS, Some pp, ms', rng') ->
  2 < pp.(IBE.q) ->
  2 <= ms' < pp.(IBE.q).
Proof.
  intros Hrange H Hq. unfold IBE.cryptid_setup in H.
  destruct (random_solinasPrime prim _ _ rng) as [[st q] g0].
  destruct (failed st) eqn:F0; [returned H; discriminate|].
  destruct (select_p prim fuel q _ g0) as [[[r p] g1]|]; [|discriminate].
  destruct (select_pointP prim _ fuel r _ g1) as [[[st2 P] g2]|]; [|discriminate].
  destruct (failed st2) eqn:F2; [returned H; discriminate|].
  pose proof (Hrange (q - 2) g2) as Hs.
  destruct (random_mpzInRange prim (q - 2) g2) as [s g3].
  destruct (affine_wNAFMultiply prim (s + 2) P _) as [st3 Ppub].
  destruct (failed st3) eqn:F3; [returned H; discriminate|].
  returned H. simpl in *. lia.
Qed.

Lemma ibe_setup_master_secret_range_witness : 2 <= Examples.masterSecret < 7.
Proof.
  apply (ibe_setup_master_secret_range Toy.primitives 5 LOW Examples.blank_pp
           Examples.pp 0 Examples.masterSecret Toy.counting
           (fun n => Toy.counting (S (S (S n))))).
  - intros bound g Hb. simpl. apply Z.mod_pos_bound. exact Hb.
  - reflexivity.
  - unfold IBE.cipherVLength. simpl. lia.
Defined.

(** ** [cryptid_extract] *)

(** X4.  [cryptid_extract] stores a point only after the identity has been
    hashed to a point: either [*result] is what it was, or [hashToPoint] has
    succeeded with some [Qid] and the call returns the status of the
    multiplication of [Qid] by the master secret together with the point that
    multiplication left, also when that status is a failure. *)
Theorem ibe_extract_stores_only_after_hashing
    (prim : Primitives) (vPP : IBE.PublicParameters -> bool)
    (result : option AffinePoint) (identity : list byte)
    (pp : IBE.PublicParameters) (masterSecret : mpz) :
  let outcome := IBE.cryptid_extract prim vPP result identity pp masterSecret in
  (snd outcome = result /\ fst outcome <> CRYPTID_SUCCESS)
  \/ exists Qid,
       hashToPoint prim pp.(IBE.ellipticCurve) pp.(IBE.ellipticCurve).(fieldOrder)
         pp.(IBE.q) identity pp.(IBE.hashFunction) = (CRYPTID_SUCCESS, Qid)
       /\ identity <> []
       /\ vPP pp = true
       /\ fst outcome = fst (affine_wNAFMultiply prim masterSecret Qid pp.(IBE.ellipticCurve))
       /\ snd outcome
          = Some (snd (affine_wNAFMultiply prim masterSecret Qid pp.(IBE.ellipticCurve))).
Proof.
  unfold IBE.cryptid_extract.
  destruct result as [r0|]; [|left; split; [reflexivity | discriminate]].
  destruct identity as [|i0 id']; [left; split; [reflexivity | discriminate]|].
  cbn [length Nat.eqb].
  destruct (vPP pp) eqn:Hv; cbn [negb]; [|left; split; [reflexivity | discriminate]].
  destruct (hashToPoint prim _ _ _ _ _) as [st Qid] eqn:HQ.
  destruct (failed st) eqn:F.
  - left. split; [reflexivity|]. cbn [fst]. intros ->. discriminate.
  - status_passes F. right. exists Qid.
    destruct (affine_wNAFMultiply prim masterSecret Qid _) as [st2 pt].
    repeat split; auto. discriminate.
Qed.

(** ** [cryptid_encrypt] *)

(** X5.  [cryptid_encrypt] stores a ciphertext only on success: whenever it
    returns a status other than [SUCCESS], be it for a null or empty
    argument, for illegal parameters or for a failing primitive, [*result]
    holds what it held before. *)
Theorem ibe_encrypt_failure_keeps_result
    (prim : Primitives) (vPP : IBE.PublicParameters -> bool)
    (result ct : IBE.CipherTextTuple) (message identity : option (list byte))
    (pp : IBE.PublicParameters) (rng rng' : Rand prim) (status : CryptidStatus) :
  IBE.cryptid_encrypt prim vPP result message identity pp rng = Some (status, ct, rng') ->
  status <> CRYPTID_SUCCESS ->
  ct = result.
Proof.
  intros H Hst. unfold IBE.cryptid_encrypt in H.
  destruct message as [M|]; [|returned H; auto].
  destruct (length M =? 0)%nat; [returned H; auto|].
  destruct identity as [id|]; [|returned H; auto].
  destruct (length id =? 0)%nat; [returned H; auto|].
  destruct (negb (vPP pp)); [returned H; auto|].
  destruct (hashToPoint prim _ _ _ _ _) as [st Qid].
  destruct (failed st); [returned H; auto|].
  destruct (randomBytes prim _ rng) as [drawn g1].
  destruct (copy_loop _ (calloc_fill _ _)) as [lo|]; [|discriminate].
  destruct (copy_loop _ _) as [hi|] in H; [|discriminate].
  destruct (affine_wNAFMultiply prim _ _ _) as [st2 U].
  destruct (failed st2); [returned H; auto|].
  destruct (tate_performPairing prim _ _ _ _ _) as [st3 theta].
  destruct (failed st3); [returned H; auto|].
  destruct (xor_loop _ _ (calloc_fill _ _)) as [V|]; [|discriminate].
  destruct (xor_loop _ _ M) as [W|]; [|discriminate].
  returned H. congruence.
Qed.

Lemma ibe_encrypt_failure_keeps_result_witness : Examples.blank_ct = Examples.blank_ct.
Proof.
  apply (ibe_encrypt_failure_keeps_result Toy.primitives Toy.isPublicParametersValid
           Examples.blank_ct Examples.blank_ct (Some Examples.hello) (Some [])
           Examples.pp Toy.counting Toy.counting CRYPTID_IDENTITY_LENGTH_ERROR).
  - reflexivity.
  - discriminate.
Defined.

(** X6.  The shape of a ciphertext: when [cryptid_encrypt] returns
    [SUCCESS] for the message [M], the point of the ciphertext is
    [l * pointP] for the integer [l] of the encryption, [cipherV] has the
    length of a digest, [cipherW] has the length of [M], and the random
    source has served exactly the one call of [randomBytes]. *)
Theorem ibe_encrypt_ciphertext_shape
    (prim : Primitives) (vPP : IBE.PublicParameters -> bool)
    (result ct : IBE.CipherTextTuple) (M : list byte) (identity : option (list byte))
    (pp : IBE.PublicParameters) (rng rng' : Rand prim) :
  IBE.cryptid_encrypt prim vPP result (Some M) identity pp rng
    = Some (CRYPTID_SUCCESS, ct, rng') ->
  affine_wNAFMultiply prim (IBE.encrypt_l prim M pp rng) pp.(IBE.pointP)
    pp.(IBE.ellipticCurve) = (CRYPTID_SUCCESS, ct.(IBE.cipherU))
  /\ IBE.cipherVLength ct = hashLength pp.(IBE.hashFunction)
  /\ IBE.cipherWLength ct = length M
  /\ rng' = snd (randomBytes prim (hashLength pp.(IBE.hashFunction)) rng).
Proof.
  intros H. unfold IBE.cryptid_encrypt in H. unfold IBE.encrypt_l.
  destruct (length M =? 0)%nat; [discriminate|].
  destruct identity as [id|]; [|discriminate].
  destruct (length id =? 0)%nat; [discriminate|].
  destruct (negb (vPP pp)); [discriminate|].
  destruct (hashToPoint prim _ _ _ _ _) as [st Qid].
  destruct (failed st) eqn:F; [returned H; discriminate|].
  destruct (randomBytes prim _ rng) as [drawn g1].
  cbn [fst snd].
  set (hashLen := hashLength (IBE.hashFunction pp)) in *.
  destruct (copy_loop hashLen (calloc_fill _ _)) as [lo|] eqn:Hlo; [|discriminate].
  destruct (copy_loop hashLen _) as [hi|] eqn:Hhi in H; [|discriminate].
  apply copy_loop_firstn in Hlo, Hhi.
  rewrite firstn_all2 in Hlo by (rewrite calloc_fill_length; lia).
  subst lo hi.
  destruct (affine_wNAFMultiply prim _ _ _) as [st2 U] eqn:HU.
  destruct (failed st2) eqn:F2; [returned H; discriminate|].
  status_passes F2.
  destruct (tate_performPairing prim _ _ _ _ _) as [st3 theta].
  destruct (failed st3) eqn:F3; [returned H; discriminate|].
  destruct (xor_loop hashLen _ (calloc_fill _ _)) as [V|] eqn:HV; [|discriminate].
  destruct (xor_loop _ _ M) as [W|] eqn:HW; [|discriminate].
  apply xor_loop_length in HV, HW.
  returned H.
  unfold IBE.cipherVLength, IBE.cipherWLength. simpl.
  rewrite !firstn_all2 by lia. auto.
Qed.

Lemma ibe_encrypt_ciphertext_shape_witness :
  affine_wNAFMultiply Toy.primitives
    (IBE.encrypt_l Toy.primitives Examples.hello Examples.pp Toy.counting)
    Examples.pp.(IBE.pointP) Examples.pp.(IBE.ellipticCurve)
  = (CRYPTID_SUCCESS, Examples.ct_hello.(IBE.cipherU))
  /\ IBE.cipherVLength Examples.ct_hello = hashLength Examples.pp.(IBE.hashFunction)
  /\ IBE.cipherWLength Examples.ct_hello = length Examples.hello
  /\ Examples.counting_from_3
     = snd (randomBytes Toy.primitives (hashLength Examples.pp.(IBE.hashFunction))
              Toy.counting).
Proof.
  apply (ibe_encrypt_ciphertext_shape Toy.primitives Toy.isPublicParametersValid
           Examples.blank_ct Examples.ct_hello Examples.hello (Some Examples.alice)
           Examples.pp Toy.counting Examples.counting_from_3).
  reflexivity.
Defined.

(** ** [cryptid_decrypt] *)

(** X7.  [cryptid_decrypt] stores a plaintext exactly when it returns
    [SUCCESS], and the plaintext then has as many octets as [cipherW]; with
    any other status [*result] holds what it held before. *)
Theorem ibe_decrypt_stores_only_on_success
    (prim : Primitives)
    (vPP : IBE.PublicParameters -> bool) (vCT : IBE.CipherTextTuple -> mpz -> bool)
    (result result' : option (list byte)) (privateKey : AffinePoint)
    (ct : IBE.CipherTextTuple) (pp : IBE.PublicParameters) (status : CryptidStatus) :
  IBE.cryptid_decrypt prim vPP vCT result privateKey ct pp = Some (status, result') ->
  (status = CRYPTID_SUCCESS ->
   exists m, result' = Some m /\ length m = IBE.cipherWLength ct)
  /\ (status <> CRYPTID_SUCCESS -> result' = result).
Proof.
  intros H. unfold IBE.cryptid_decrypt in H.
  destruct (negb (vPP pp)); [returned H; split; [discriminate | auto]|].
  destruct (negb (validation_isAffinePointValid prim _ _));
    [returned H; split; [discriminate | auto]|].
  destruct (negb (vCT ct _)); [returned H; split; [discriminate | auto]|].
  destruct (tate_performPairing prim _ _ _ _ _) as [st theta].
  destruct (failed st) eqn:F;
    [returned H; split; [intros ->; discriminate | auto]|].
  destruct (IBE.decrypt_recompute prim theta ct pp) as [[m l]|] eqn:Hre; [|discriminate].
  destruct (affine_wNAFMultiply prim l _ _) as [st2 T].
  destruct (failed st2) eqn:F2;
    [returned H; split; [intros ->; discriminate | auto]|].
  destruct (affine_isEquals _ T).
  - returned H. split; [|congruence]. intros _. exists m. split; [reflexivity|].
    unfold IBE.decrypt_recompute in Hre.
    destruct (xor_loop _ _ (IBE.cipherV ct)) as [rho|]; [|discriminate].
    destruct (xor_loop (IBE.cipherWLength ct) _ _) as [m'|] eqn:Hm; [|discriminate].
    destruct (copy_loop _ rho); [|discriminate].
    destruct (copy_loop _ _) in Hre; [|discriminate].
    injection Hre as <- _. now apply xor_loop_length in Hm.
  - returned H. split; [discriminate | auto].
Qed.

Lemma ibe_decrypt_stores_only_on_success_witness :
  (CRYPTID_SUCCESS = CRYPTID_SUCCESS ->
   exists m, Some Examples.hello = Some m /\ length m = IBE.cipherWLength Examples.ct_hello)
  /\ (CRYPTID_SUCCESS <> CRYPTID_SUCCESS -> Some Examples.hello = None).
Proof.
  apply (ibe_decrypt_stores_only_on_success Toy.primitives
           Toy.isPublicParametersValid Toy.isCipherTextTupleValid
           None (Some Examples.hello) Examples.sk_alice Examples.ct_hello
           Examples.pp CRYPTID_SUCCESS).
  reflexivity.
Defined.

Lemma xor_loop_short n : forall a b, (length b < n)%nat -> xor_loop n a b = None.
Proof.
  induction n as [|n IH]; intros a b H; [lia|].
  simpl. destruct a as [|x a]; [reflexivity|].
  destruct b as [|y b]; [reflexivity|].
  simpl in H. rewrite IH by lia. reflexivity.
Qed.

(** X8.  [cryptid_decrypt] never compares the length of [cipherV] with the
    length of a digest: for a ciphertext that passes the validation and
    whose [cipherV] is shorter than a digest, the loop that recovers [rho]
    reads [cipherV] past its end once the pairing has succeeded. *)
Theorem ibe_decrypt_reads_past_short_cipherV
    (prim : Primitives)
    (vPP : IBE.PublicParameters -> bool) (vCT : IBE.CipherTextTuple -> mpz -> bool)
    (result : option (list byte)) (privateKey : AffinePoint)
    (ct : IBE.CipherTextTuple) (pp : IBE.PublicParameters) (theta : Complex) :
  vPP pp = true ->
  validation_isAffinePointValid prim privateKey pp.(IBE.ellipticCurve).(fieldOrder) = true ->
  vCT ct pp.(IBE.ellipticCurve).(fieldOrder) = true ->
  tate_performPairing prim 2 pp.(IBE.ellipticCurve) pp.(IBE.q) ct.(IBE.cipherU) privateKey
    = (CRYPTID_SUCCESS, theta) ->
  (IBE.cipherVLength ct < hashLength pp.(IBE.hashFunction))%nat ->
  IBE.cryptid_decrypt prim vPP vCT result privateKey ct pp = None.
Proof.
  intros Hpp Hsk Hct Hpair Hshort.
  unfold IBE.cryptid_decrypt.
  rewrite Hpp, Hsk, Hct, Hpair. simpl.
  unfold IBE.decrypt_recompute.
  rewrite xor_loop_short by exact Hshort. reflexivity.
Qed.

Lemma ibe_decrypt_reads_past_short_cipherV_witness :
  IBE.cryptid_decrypt Toy.primitives Toy.isPublicParametersValid
    Toy.isCipherTextTupleValid None Examples.sk_alice
    (IBE.mkCipherTextTuple (Affine 48 0) [Byte.x11] [Byte.x6b]) Examples.pp
  = None.
Proof.
  apply (ibe_decrypt_reads_past_short_cipherV Toy.primitives
           Toy.isPublicParametersValid Toy.isCipherTextTupleValid
           None Examples.sk_alice
           (IBE.mkCipherTextTuple (Affine 48 0) [Byte.x11] [Byte.x6b]) Examples.pp
           (mkComplex 122640 0)).
  - reflexivity.
  - reflexivity.
  - reflexivity.
  - reflexivity.
  - unfold IBE.cipherVLength. simpl. lia.
Defined.

(* ================================================================== *)
(** ** [mpz_invert] *)

Lemma mpz_invert_inverse_or_zero (a m : Z) :
  m <> 0 -> inverse_or_zero a m (mpz_invert mpz_init a m).
Proof.
  intros Hm. unfold inverse_or_zero, mpz_invert, mpz_init.
  destruct (Z.gcd a m =? 1) eqn:E.
  - apply Z.eqb_eq in E. left. split; [exact E|].
    assert (Hco : Z.coprime a (Z.abs m)).
    { unfold Z.coprime. now rewrite Z.gcd_abs_r. }
    split.
    + rewrite <- (Z.mod_invmod (Z.abs m) a). apply Z.mod_pos_bound. lia.
    + now apply Z.invmod_coprime'.
  - apply Z.eqb_neq in E. right. split; [exact E | reflexivity].
Qed.

Lemma inverse_or_zero_unique (a m k1 k2 : Z) :
  inverse_or_zero a m k1 -> inverse_or_zero a m k2 -> k1 = k2.
Proof.
  intros [(G1 & R1 & I1) | (G1 & ->)] [(G2 & R2 & I2) | (G2 & ->)];
    try contradiction; [|reflexivity].
  destruct (Z.eq_dec (Z.abs m) 1) as [E1|E1]; [lia|].
  assert (H1 : 1 mod Z.abs m = 1) by (apply Z.mod_small; lia).
  rewrite H1 in I1, I2.
  assert (Ha : (k1 * (k2 * a)) mod Z.abs m = k1).
  { rewrite <- Z.mul_mod_idemp_r by lia. rewrite I2, Z.mul_1_r.
    apply Z.mod_small. lia. }
  assert (Hb : (k2 * (k1 * a)) mod Z.abs m = k2).
  { rewrite <- Z.mul_mod_idemp_r by lia. rewrite I1, Z.mul_1_r.
    apply Z.mod_small. lia. }
  replace (k2 * (k1 * a)) with (k1 * (k2 * a)) in Hb by ring.
  congruence.
Qed.

(* ================================================================== *)
(** ** [cryptid_setup_ABE] *)

(** X9.  What [cryptid_setup_ABE] has established when it returns
    [CRYPTID_SUCCESS]: the curve is y^2 = x^3 + 1 over a field whose order
    has the form [12 r q - 1] and has passed the primality test, the
    generator [g] is not the point at infinity, [h] is [beta g], [g_alpha]
    is [alpha g] and [eggalpha] is the pairing of [g] with itself raised to
    [alpha], for some [alpha]; the master key points to the public key.  As
    to [f], it is [k g], where [k] is the inverse of [beta] modulo the field
    order if [beta] has one and 0 if it has none: the code does not look at
    what [mpz_invert] returns.  The primality test is taken to reject 0. *)
Theorem abe_setup_success_establishes
    (prim : Primitives) (fuel : nat) (securityLevel : SecurityLevel)
    (pk0 pk : ABE.PublicKey_ABE) (mk0 mk : ABE.MasterKey_ABE) (rng rng' : Rand prim) :
  validation_isProbablePrime prim 0 = false ->
  ABE.cryptid_setup_ABE prim fuel securityLevel pk0 mk0 rng
    = Some (CRYPTID_SUCCESS, pk, mk, rng') ->
  let ec := pk.(ABE.ellipticCurve) in
  exists r alpha pairValue k,
    ec = ellipticCurve_init 0 1 (r * 12 * pk.(ABE.q) - 1)
    /\ validation_isProbablePrime prim ec.(fieldOrder) = true
    /\ affine_isInfinity pk.(ABE.g) = false
    /\ AFFINE_MULTIPLY_IMPL prim mk.(ABE.beta) pk.(ABE.g) ec = (CRYPTID_SUCCESS, pk.(ABE.h))
    /\ inverse_or_zero mk.(ABE.beta) ec.(fieldOrder) k
    /\ AFFINE_MULTIPLY_IMPL prim k pk.(ABE.g) ec = (CRYPTID_SUCCESS, pk.(ABE.f))
    /\ AFFINE_MULTIPLY_IMPL prim alpha pk.(ABE.g) ec = (CRYPTID_SUCCESS, mk.(ABE.g_alpha))
    /\ tate_performPairing prim 2 ec pk.(ABE.q) pk.(ABE.g) pk.(ABE.g)
       = (CRYPTID_SUCCESS, pairValue)
    /\ pk.(ABE.eggalpha) = complex_modPow prim pairValue alpha ec.(fieldOrder)
    /\ pk.(ABE.hashFunction) = hashFunction_initForSecurityLevel prim securityLevel
    /\ mk.(ABE.mk_pubkey) = pk.
Proof.
  intros Hzero H. unfold ABE.cryptid_setup_ABE in H.
  destruct (random_solinasPrime prim _ _ rng) as [[st q] g0].
  destruct (failed st) eqn:F0; [returned H; discriminate|].
  destruct (select_p prim fuel q _ g0) as [[[r p] g1]|] eqn:Hp; [|discriminate].
  destruct (select_pointP prim _ fuel r _ g1) as [[[st1 P] g2]|] eqn:HP; [|discriminate].
  destruct (failed st1) eqn:F1; [returned H; discriminate|].
  status_passes F1.
  destruct (random_mpzInRange prim (p - 1) g2) as [alpha g3].
  destruct (random_mpzInRange prim (p - 1) g3) as [beta g4].
  simpl in H.
  destruct (AFFINE_MULTIPLY_IMPL prim beta P _) as [s1 h1] eqn:H1.
  destruct (failed s1) eqn:E1; [returned H; discriminate|].
  status_passes E1. simpl in H.
  destruct (AFFINE_MULTIPLY_IMPL prim (mpz_invert _ beta p) P _) as [s2 f1] eqn:H2.
  destruct (failed s2) eqn:E2; [returned H; discriminate|].
  status_passes E2. simpl in H.
  destruct (AFFINE_MULTIPLY_IMPL prim alpha P _) as [s3 ga] eqn:H3.
  destruct (failed s3) eqn:E3; [returned H; discriminate|].
  status_passes E3. simpl in H.
  destruct (tate_performPairing prim 2 _ q P P) as [s4 pv] eqn:H4.
  destruct (failed s4) eqn:E4; [returned H; discriminate|].
  status_passes E4.
  returned H.
  apply select_p_sound in Hp as [-> Hprime].
  apply select_pointP_sound in HP.
  exists r, alpha, pv, (mpz_invert mpz_init beta (r * 12 * q - 1)).
  cbn. repeat split; auto.
  apply mpz_invert_inverse_or_zero.
  intros E. rewrite E in Hprime. congruence.
Qed.

Lemma abe_setup_success_establishes_witness :
  let ec := Examples.pk.(ABE.ellipticCurve) in
  exists r alpha pairValue k,
    ec = ellipticCurve_init 0 1 (r * 12 * Examples.pk.(ABE.q) - 1)
    /\ validation_isProbablePrime Toy.primitives ec.(fieldOrder) = true
    /\ affine_isInfinity Examples.pk.(ABE.g) = false
    /\ AFFINE_MULTIPLY_IMPL Toy.primitives Examples.mk.(ABE.beta) Examples.pk.(ABE.g) ec
       = (CRYPTID_SUCCESS, Examples.pk.(ABE.h))
    /\ inverse_or_zero Examples.mk.(ABE.beta) ec.(fieldOrder) k
    /\ AFFINE_MULTIPLY_IMPL Toy.primitives k Examples.pk.(ABE.g) ec
       = (CRYPTID_SUCCESS, Examples.pk.(ABE.f))
    /\ AFFINE_MULTIPLY_IMPL Toy.primitives alpha Examples.pk.(ABE.g) ec
       = (CRYPTID_SUCCESS, Examples.mk.(ABE.g_alpha))
    /\ tate_performPairing Toy.primitives 2 ec Examples.pk.(ABE.q) Examples.pk.(ABE.g)
         Examples.pk.(ABE.g) = (CRYPTID_SUCCESS, pairValue)
    /\ Examples.pk.(ABE.eggalpha) = complex_modPow Toy.primitives pairValue alpha ec.(fieldOrder)
    /\ Examples.pk.(ABE.hashFunction) = hashFunction_initForSecurityLevel Toy.primitives LOWEST
    /\ Examples.mk.(ABE.mk_pubkey) = Examples.pk.
Proof.
  apply (abe_setup_success_establishes Toy.primitives 5 LOWEST
           Examples.blank_pk Examples.pk Examples.blank_mk Examples.mk
           Toy.counting (fun n => Toy.counting (S (S (S (S n)))))).
  - reflexivity.
  - reflexivity.
Defined.

Lemma select_p_fuel_independent (prim : Primitives) n m q len rng x y :
  select_p prim n q len rng = Some x ->
  select_p prim m q len rng = Some y ->
  x = y.
Proof.
  intros Hx Hy.
  pose proof (select_p_more_fuel prim n q len rng x Hx (n + m) ltac:(lia)) as H1.
  pose proof (select_p_more_fuel prim m q len rng y Hy (n + m) ltac:(lia)) as H2.
  congruence.
Qed.

Lemma select_pointP_fuel_independent (prim : Primitives) mul n m r ec rng x y :
  select_pointP prim mul n r ec rng = Some x ->
  select_pointP prim mul m r ec rng = Some y ->
  x = y.
Proof.
  intros Hx Hy.
  pose proof (select_pointP_more_fuel prim mul n r ec rng x Hx (n + m) ltac:(lia)) as H1.
  pose proof (select_pointP_more_fuel prim mul m r ec rng y Hy (n + m) ltac:(lia)) as H2.
  congruence.
Qed.

(** X10.  The two setup functions build the same group.  Where
    [AFFINE_MULTIPLY_IMPL] is [affine_wNAFMultiply], a successful
    [cryptid_setup] and a successful [cryptid_setup_ABE] that start from the
    same state of the random source end with the same curve, the same
    subgroup order [q] and the same generator. *)
Theorem setups_build_the_same_group
    (prim : Primitives) (fuel1 fuel2 : nat) (securityLevel : SecurityLevel)
    (pp0 pp : IBE.PublicParameters) (ms0 ms : mpz)
    (pk0 pk : ABE.PublicKey_ABE) (mk0 mk : ABE.MasterKey_ABE)
    (rng rng1 rng2 : Rand prim) :
  AFFINE_MULTIPLY_IMPL prim = affine_wNAFMultiply prim ->
  IBE.cryptid_setup prim fuel1 securityLevel (Some pp0) ms0 rng
    = Some (CRYPTID_SUCCESS, Some pp, ms, rng1) ->
  ABE.cryptid_setup_ABE prim fuel2 securityLevel pk0 mk0 rng
    = Some (CRYPTID_SUCCESS, pk, mk, rng2) ->
  pp.(IBE.ellipticCurve) = pk.(ABE.ellipticCurve)
  /\ pp.(IBE.q) = pk.(ABE.q)
  /\ pp.(IBE.pointP) = pk.(ABE.g).
Proof.
  intros Himpl HI HA.
  unfold IBE.cryptid_setup in HI. unfold ABE.cryptid_setup_ABE in HA.
  rewrite Himpl in HA.
  destruct (random_solinasPrime prim _ _ rng) as [[st q] g0].
  destruct (failed st) eqn:F0; [returned HI; discriminate|].
  destruct (select_p prim fuel1 q _ g0) as [[[r p] g1]|] eqn:Hp1; [|discriminate].
  destruct (select_p prim fuel2 q _ g0) as [[[r' p'] g1']|] eqn:Hp2; [|discriminate].
  pose proof (select_p_fuel_independent _ _ _ _ _ _ _ _ Hp1 Hp2) as E.
  injection E as <- <- <-.
  destruct (select_pointP prim _ fuel1 r _ g1) as [[[s1 P] g2]|] eqn:HP1; [|discriminate].
  destruct (select_pointP prim _ fuel2 r _ g1) as [[[s1' P'] g2']|] eqn:HP2; [|discriminate].
  pose proof (select_pointP_fuel_independent _ _ _ _ _ _ _ _ _ HP1 HP2) as E.
  injection E as <- <- <-.
  destruct (failed s1) eqn:F1; [returned HI; discriminate|].
  destruct (random_mpzInRange prim (q - 2) g2) as [s g3].
  destruct (affine_wNAFMultiply prim (s + 2) P _) as [st3 Ppub].
  destruct (failed st3) eqn:F3; [returned HI; discriminate|].
  destruct (random_mpzInRange prim (p - 1) g2) as [alpha g4].
  destruct (random_mpzInRange prim (p - 1) g4) as [beta g5].
  simpl in HA.
  destruct (affine_wNAFMultiply prim beta P _) as [a1 h1].
  destruct (failed a1) eqn:Ea1; [returned HA; discriminate|].
  simpl in HA.
  destruct (affine_wNAFMultiply prim (mpz_invert _ beta p) P _) as [a2 f1].
  destruct (failed a2) eqn:Ea2; [returned HA; discriminate|].
  simpl in HA.
  destruct (affine_wNAFMultiply prim alpha P _) as [a3 ga].
  destruct (failed a3) eqn:Ea3; [returned HA; discriminate|].
  destruct (tate_performPairing prim 2 _ q P P) as [a4 pv].
  destruct (failed a4) eqn:Ea4; [returned HA; discriminate|].
  returned HI. returned HA. cbn. auto.
Qed.

Lemma setups_build_the_same_group_witness :
  Examples.pp.(IBE.ellipticCurve) = Examples.pk.(ABE.ellipticCurve)
  /\ Examples.pp.(IBE.q) = Examples.pk.(ABE.q)
  /\ Examples.pp.(IBE.pointP) = Examples.pk.(ABE.g).
Proof.
  apply (setups_build_the_same_group Toy.primitives 5 3 LOWEST
           Examples.blank_pp Examples.pp 0 Examples.masterSecret
           Examples.blank_pk Examples.pk Examples.blank_mk Examples.mk
           Toy.counting (fun n => Toy.counting (S (S (S n))))
           (fun n => Toy.counting (S (S (S (S n)))))).
  - reflexivity.
  - reflexivity.
  - reflexivity.
Defined.

(* ================================================================== *)
(** ** [compute_tree] *)

Section ComputeTreeFacts.

Variable prim : Primitives.
Variable Polynom : Type.
Variable createPolynom : Z -> mpz -> ABE.PublicKey_ABE -> Rand prim -> Polynom * Rand prim.
Variable polynomSum : Polynom -> Z -> mpz.
Variable isLeaf : ABE.AccessTree -> bool.

#[local] Abbreviation compute :=
  (ABE.compute_tree prim Polynom createPolynom polynomSum isLeaf).

(** [compute_tree] on a node that is not a leaf, with its loop named. *)
Lemma compute_tree_internal_unfold
    (accessTree : ABE.AccessTree) (s : mpz) (publickey : ABE.PublicKey_ABE)
    (rng : Rand prim) :
  isLeaf accessTree = false ->
  compute accessTree s publickey rng
  = let '(qx, rng) := createPolynom (accessTree.(ABE.value) - 1) s publickey rng in
    match accessTree.(ABE.children) with
    | [] => (CRYPTID_SUCCESS, accessTree, rng)
    | child0 :: others =>
        let '(others', rng) :=
          compute_tree_children (fun child sum g => compute child sum publickey g)
            (polynomSum qx) others 1 rng in
        (CRYPTID_SUCCESS, ABE.set_children accessTree (child0 :: others'), rng)
    end.
Proof.
  intros Hleaf. unfold compute.
  destruct accessTree as [v cs a al cy cya]. simpl.
  destruct (createPolynom (v - 1) s publickey rng) as [qx g1].
  rewrite Hleaf. reflexivity.
Qed.

Lemma compute_tree_children_length {R : Type} recurse share :
  forall cs i (rng : R),
    length (fst (compute_tree_children recurse share cs i rng)) = length cs.
Proof.
  induction cs as [|c cs IH]; intros i rng; [reflexivity|].
  simpl. destruct c as [child|].
  - destruct (recurse child (share i) rng) as [[st child'] g'].
    specialize (IH (i + 1) g').
    destruct (compute_tree_children recurse share cs (i + 1) g') as [rest g''].
    simpl in *. congruence.
  - specialize (IH (i + 1) rng).
    destruct (compute_tree_children recurse share cs (i + 1) rng) as [rest g''].
    simpl in *. congruence.
Qed.

(** X11.  On a node that is not a leaf [compute_tree] returns
    [CRYPTID_SUCCESS] whatever happens below it, for the status of the
    recursive calls is dropped.  The node keeps its threshold and the number
    of its child slots, and the child at index 0 is not visited: it is after
    the call what it was before, annotations included. *)
Theorem compute_tree_internal_node
    (accessTree : ABE.AccessTree) (s : mpz) (publickey : ABE.PublicKey_ABE)
    (rng : Rand prim) :
  isLeaf accessTree = false ->
  let '(status, tree', _) := compute accessTree s publickey rng in
  status = CRYPTID_SUCCESS
  /\ tree'.(ABE.value) = accessTree.(ABE.value)
  /\ length tree'.(ABE.children) = length accessTree.(ABE.children)
  /\ hd None tree'.(ABE.children) = hd None accessTree.(ABE.children).
Proof.
  intros Hleaf. rewrite compute_tree_internal_unfold by exact Hleaf.
  destruct (createPolynom _ s publickey rng) as [qx g1].
  destruct (ABE.children accessTree) as [|child0 others] eqn:Hcs.
  - rewrite Hcs. auto.
  - pose proof (compute_tree_children_length
                  (fun child sum g => compute child sum publickey g)
                  (polynomSum qx) others 1 g1) as Hlen.
    destruct (compute_tree_children _ _ others 1 g1) as [others' g2].
    simpl in *. auto.
Qed.

Lemma compute_tree_policy (accessTree : ABE.AccessTree) :
  forall (s : mpz) (publickey : ABE.PublicKey_ABE) (rng : Rand prim),
    policy_of (snd (fst (compute accessTree s publickey rng))) = policy_of accessTree.
Proof.
  induction accessTree as [v cs a al cy cya IH] using AccessTree_induction.
  intros s publickey rng.
  destruct (isLeaf (ABE.mkAccessTree v cs a al cy cya)) eqn:Hleaf.
  - unfold compute. simpl.
    destruct (createPolynom (v - 1) s publickey rng) as [qx g1].
    rewrite Hleaf. simpl.
    destruct (AFFINE_MULTIPLY_IMPL prim s _ _) as [s1 Cy1].
    destruct (failed s1); [reflexivity|].
    destruct (hashToPoint prim _ _ _ _ _) as [s2 H1].
    destruct (failed s2); [reflexivity|].
    destruct (AFFINE_MULTIPLY_IMPL prim s H1 _) as [s3 CyA1].
    destruct (failed s3); reflexivity.
  - rewrite compute_tree_internal_unfold by exact Hleaf.
    cbn [ABE.value ABE.children].
    destruct (createPolynom (v - 1) s publickey rng) as [qx g1].
    destruct cs as [|child0 others]; [reflexivity|].
    apply Forall_inv_tail in IH.
    assert (Hloop : forall i g,
               map (fun c => match c with
                             | Some child => Some (policy_of child)
                             | None => None
                             end)
                   (fst (compute_tree_children
                           (fun child sum g => compute child sum publickey g)
                           (polynomSum qx) others i g))
               = map (fun c => match c with
                               | Some child => Some (policy_of child)
                               | None => None
                               end) others).
    { clear Hleaf. induction others as [|c others IHo]; intros i g; [reflexivity|].
      pose proof (Forall_inv IH) as Hc. apply Forall_inv_tail in IH.
      specialize (IHo IH). simpl.
      destruct c as [child|].
      - specialize (Hc (polynomSum qx i) publickey g).
        destruct (compute child (polynomSum qx i) publickey g) as [[st child'] g'].
        specialize (IHo (i + 1) g').
        destruct (compute_tree_children _ _ others (i + 1) g') as [rest g''].
        simpl in *. congruence.
      - specialize (IHo (i + 1) g).
        destruct (compute_tree_children _ _ others (i + 1) g) as [rest g''].
        simpl in *. congruence. }
    specialize (Hloop 1 g1).
    destruct (compute_tree_children _ _ others 1 g1) as [others' g2].
    simpl in *. congruence.
Qed.

(** X12.  [compute_tree] only annotates: the tree after the call describes
    the policy of the tree before the call, at every depth and whatever the
    status of the call. *)
Theorem compute_tree_preserves_policy
    (accessTree : ABE.AccessTree) (s : mpz) (publickey : ABE.PublicKey_ABE)
    (rng : Rand prim) :
  let '(_, tree', _) := compute accessTree s publickey rng in
  policy_of tree' = policy_of accessTree.
Proof.
  pose proof (compute_tree_policy accessTree s publickey rng) as H.
  destruct (compute accessTree s publickey rng) as [[status tree'] rng'].
  exact H.
Qed.


End ComputeTreeFacts.

Lemma compute_tree_internal_node_witness :
  let '(status, tree', _) :=
    ABE.compute_tree Toy.primitives Toy.Polynom Toy.createPolynom Toy.polynomSum
      Toy.isLeaf Examples.a_and_b 5 Examples.pk Toy.counting in
  status = CRYPTID_SUCCESS
  /\ tree'.(ABE.value) = Examples.a_and_b.(ABE.value)
  /\ length tree'.(ABE.children) = length Examples.a_and_b.(ABE.children)
  /\ hd None tree'.(ABE.children) = hd None Examples.a_and_b.(ABE.children).
Proof.
  apply (compute_tree_internal_node Toy.primitives Toy.Polynom Toy.createPolynom
           Toy.polynomSum Toy.isLeaf Examples.a_and_b 5 Examples.pk Toy.counting).
  reflexivity.
Defined.


(* ================================================================== *)
(** ** [cryptid_encrypt_ABE] *)

(** X14.  Once its four argument checks have passed, [cryptid_encrypt_ABE]
    reports nothing but the last multiplication: the status of
    [compute_tree] is dropped, so the call returns [CRYPTID_SUCCESS] exactly
    when [s h] can be computed for the [s] it has drawn.  Whatever that
    status is, [*encrypted] has been written: it holds the annotated tree,
    which describes the same policy as before, the value [Ctilde] and the
    point left by the multiplication. *)
Theorem encrypt_ABE_reports_last_multiplication_only
    (prim : Primitives) (Polynom : Type)
    (createPolynom : Z -> mpz -> ABE.PublicKey_ABE -> Rand prim -> Polynom * Rand prim)
    (polynomSum : Polynom -> Z -> mpz) (isLeaf : ABE.AccessTree -> bool)
    (encrypted : ABE.EncryptedMessage_ABE) (c : byte) (message : list byte)
    (pk : ABE.PublicKey_ABE) (accessTree : ABE.AccessTree) (rng : Rand prim) :
  let p := pk.(ABE.ellipticCurve).(fieldOrder) in
  let s := fst (random_mpzInRange prim (p - 1) rng) in
  let last := AFFINE_MULTIPLY_IMPL prim s pk.(ABE.h) pk.(ABE.ellipticCurve) in
  let '(status, encrypted', tree', _) :=
    ABE.cryptid_encrypt_ABE prim Polynom createPolynom polynomSum isLeaf
      encrypted (Some (c :: message)) (Some pk) (Some accessTree) rng in
  status = (if failed (fst last) then fst last else CRYPTID_SUCCESS)
  /\ encrypted'.(ABE.C) = snd last
  /\ encrypted'.(ABE.Ctilde)
     = complex_modMulScalar prim (complex_modPow prim pk.(ABE.eggalpha) s p)
         (ABE.mpz_import_words (map ABE.char_to_ulong (c :: message))) p
  /\ tree' = Some encrypted'.(ABE.tree)
  /\ policy_of encrypted'.(ABE.tree) = policy_of accessTree.
Proof.
  unfold ABE.cryptid_encrypt_ABE. cbn [length Nat.eqb].
  destruct (random_mpzInRange prim _ rng) as [s g1]. cbn [fst].
  pose proof (compute_tree_policy prim Polynom createPolynom polynomSum
                isLeaf accessTree s pk g1) as Hpol.
  destruct (ABE.compute_tree prim Polynom createPolynom polynomSum isLeaf
              accessTree s pk g1) as [[st t'] g2].
  cbn [fst snd] in Hpol.
  destruct (AFFINE_MULTIPLY_IMPL prim s _ _) as [st2 C2]. cbn [fst snd].
  destruct (failed st2); cbn; auto.
Qed.

(** The words that [mpz_import] receives. *)
Lemma char_to_ulong_range (c : byte) : 0 <= ABE.char_to_ulong c < ULONG_MODULUS.
Proof.
  unfold ABE.char_to_ulong, ULONG_MODULUS.
  pose proof (Byte.to_N_bounded c) as Hb.
  assert (0 <= Z.of_N (Byte.to_N c) <= 255) by lia.
  destruct (Z.of_N (Byte.to_N c) <? 128) eqn:E.
  - apply Z.ltb_lt in E. lia.
  - apply Z.ltb_ge in E. lia.
Qed.

Lemma char_to_ulong_positive (c : byte) : c <> Byte.x00 -> 1 <= ABE.char_to_ulong c.
Proof.
  intros Hc. unfold ABE.char_to_ulong, ULONG_MODULUS.
  assert (Hn : Byte.to_N c <> 0%N).
  { intros E. apply Hc. pose proof (Byte.of_to_N c) as Ho. rewrite E in Ho.
    simpl in Ho. congruence. }
  pose proof (Byte.to_N_bounded c) as Hb.
  destruct (Z.of_N (Byte.to_N c) <? 128) eqn:E; lia.
Qed.

Lemma mpz_import_words_acc (values : list Z) :
  forall acc,
    fold_left (fun a w => a * ULONG_MODULUS + w) values acc
    = acc * ULONG_MODULUS ^ Z.of_nat (length values) + ABE.mpz_import_words values.
Proof.
  unfold ABE.mpz_import_words.
  induction values as [|w values IH]; intros acc.
  - simpl. lia.
  - cbn [fold_left length]. rewrite IH. rewrite (IH (0 * ULONG_MODULUS + w)).
    rewrite Nat2Z.inj_succ, Z.pow_succ_r by lia. ring.
Qed.

Lemma mpz_import_words_range (values : list Z) :
  Forall (fun w => 0 <= w < ULONG_MODULUS) values ->
  0 <= ABE.mpz_import_words values < ULONG_MODULUS ^ Z.of_nat (length values).
Proof.
  induction 1 as [|w values Hw Hall IH].
  - unfold ABE.mpz_import_words. simpl. lia.
  - unfold ABE.mpz_import_words. cbn [fold_left length].
    rewrite mpz_import_words_acc.
    rewrite Nat2Z.inj_succ, Z.pow_succ_r by lia.
    assert (0 < ULONG_MODULUS ^ Z.of_nat (length values))
      by (apply Z.pow_pos_nonneg; [reflexivity | lia]).
    nia.
Qed.

(** X15.  [cryptid_encrypt_ABE] spends one 64-bit word on every octet of the
    message: for a message of [n + 1] octets whose first octet is not zero,
    the integer [M] that is multiplied into [eggalpha^s] lies between
    [2^(64 n)] and [2^(64 (n + 1))]. *)
Theorem encrypt_ABE_message_integer_size (c : byte) (message : list byte) :
  c <> Byte.x00 ->
  let M := ABE.mpz_import_words (map ABE.char_to_ulong (c :: message)) in
  2 ^ (64 * Z.of_nat (length message)) <= M < 2 ^ (64 * Z.of_nat (S (length message))).
Proof.
  intros Hc M. subst M.
  assert (Hall : Forall (fun w => 0 <= w < ULONG_MODULUS) (map ABE.char_to_ulong message)).
  { apply Forall_forall. intros w Hw. apply in_map_iff in Hw as [b [<- _]].
    apply char_to_ulong_range. }
  pose proof (mpz_import_words_range _ Hall) as Hrest.
  rewrite length_map in Hrest.
  pose proof (char_to_ulong_range c) as Hr.
  pose proof (char_to_ulong_positive c Hc) as Hp.
  unfold ABE.mpz_import_words at 1 2. cbn [map fold_left].
  rewrite mpz_import_words_acc, length_map.
  replace (2 ^ (64 * Z.of_nat (length message)))
    with (ULONG_MODULUS ^ Z.of_nat (length message))
    by (unfold ULONG_MODULUS; rewrite <- Z.pow_mul_r by lia; reflexivity).
  replace (2 ^ (64 * Z.of_nat (S (length message))))
    with (ULONG_MODULUS * ULONG_MODULUS ^ Z.of_nat (length message))
    by (unfold ULONG_MODULUS; rewrite Nat2Z.inj_succ, <- Z.pow_succ_r by lia;
        rewrite <- Z.pow_mul_r by lia; f_equal; lia).
  assert (0 < ULONG_MODULUS ^ Z.of_nat (length message))
    by (apply Z.pow_pos_nonneg; [reflexivity | lia]).
  nia.
Qed.

Lemma encrypt_ABE_message_integer_size_witness :
  let M := ABE.mpz_import_words (map ABE.char_to_ulong (Byte.x41 :: [Byte.x42])) in
  2 ^ (64 * Z.of_nat (length [Byte.x42])) <= M
  < 2 ^ (64 * Z.of_nat (S (length [Byte.x42]))).
Proof.
  apply (encrypt_ABE_message_integer_size Byte.x41 [Byte.x42]).
  discriminate.
Defined.

(* ================================================================== *)
(** ** [cryptid_keygen_ABE] *)

Lemma array_store_other {A : Type} (a : list A) :
  forall i j v d, i <> j -> nth j (ABE.array_store a i v) d = nth j a d.
Proof.
  induction a as [|x a IH]; intros i j v d Hij; [reflexivity|].
  destruct i, j; simpl; try congruence; try reflexivity.
  apply IH. congruence.
Qed.

Section KeygenFacts.

Variable prim : Primitives.
Variable ATTRIBUTE_LENGTH : nat.
Variable ABE_randomNumber : ABE.PublicKey_ABE -> Rand prim -> mpz * Rand prim.

#[local] Abbreviation loop := (ABE.keygen_loop prim ATTRIBUTE_LENGTH ABE_randomNumber).

(** The loop over the attributes never touches [D]; it keeps the length of
    the three arrays; and it leaves alone every entry below its starting
    index and every entry whose attribute is the empty string. *)
Lemma keygen_loop_frame (masterkey : ABE.MasterKey_ABE) (Gr : AffinePoint)
    (attrs : list String.string) :
  forall (i : nat) (secretkey : ABE.SecretKey_ABE) (rng : Rand prim),
    let sk' := snd (fst (loop masterkey Gr attrs i secretkey rng)) in
    sk'.(ABE.D) = secretkey.(ABE.D)
    /\ length sk'.(ABE.Dj) = length secretkey.(ABE.Dj)
    /\ length sk'.(ABE.DjA) = length secretkey.(ABE.DjA)
    /\ length sk'.(ABE.attributes) = length secretkey.(ABE.attributes)
    /\ forall j,
         ((j < i)%nat \/ ABE.nonempty (nth (j - i) attrs String.EmptyString) = false) ->
         (forall d, nth j sk'.(ABE.Dj) d = nth j secretkey.(ABE.Dj) d)
         /\ (forall d, nth j sk'.(ABE.DjA) d = nth j secretkey.(ABE.DjA) d)
         /\ (forall d, nth j sk'.(ABE.attributes) d = nth j secretkey.(ABE.attributes) d).
Proof.
  induction attrs as [|attr rest IH]; intros i secretkey rng.
  - simpl. repeat split; reflexivity.
  - cbn [ABE.keygen_loop].
    destruct (ABE.nonempty attr) eqn:Hne.
    + destruct (ABE_randomNumber _ rng) as [rj g1].
      destruct (hashToPoint prim _ _ _ _ _) as [s1 Hj].
      destruct (failed s1); [simpl; repeat split; reflexivity|].
      destruct (AFFINE_MULTIPLY_IMPL prim rj Hj _) as [s2 HjRj].
      destruct (failed s2); [simpl; repeat split; reflexivity|].
      destruct (affine_add prim HjRj Gr _) as [s3 Dj1].
      destruct (AFFINE_MULTIPLY_IMPL prim rj _ _) as [s4 DjA1].
      destruct (failed s4).
      * simpl. repeat split; try reflexivity; try apply array_store_length.
        all: intros d; try reflexivity.
        apply array_store_other.
        destruct H as [H|H]; [lia|].
        intros ->. rewrite Nat.sub_diag in H. simpl in H. congruence.
      * match goal with
        | |- context [loop masterkey Gr rest (S i) ?sk ?g] =>
            specialize (IH (S i) sk g); simpl in IH;
            destruct IH as [HD [HDj [HDjA [Hat Hfr]]]]
        end.
        simpl in *. rewrite !array_store_length in *.
        repeat split; auto.
        all: assert (Hj' : (j < S i)%nat
                           \/ ABE.nonempty (nth (j - S i) rest String.EmptyString) = false)
            by (destruct H as [H|H]; [left; lia|];
                destruct (j - i)%nat as [|k] eqn:E;
                [simpl in H; congruence
                | right; replace (j - S i)%nat with k by lia; exact H]).
        all: assert (Hij : i <> j)
            by (destruct H as [H|H]; [lia|];
                intros ->; rewrite Nat.sub_diag in H; simpl in H; congruence).
        all: destruct (Hfr j Hj') as [E1 [E2 E3]]; intros d.
        -- rewrite E1. now apply array_store_other.
        -- rewrite E2. now apply array_store_other.
        -- rewrite E3. now apply array_store_other.
    + specialize (IH (S i) secretkey rng). simpl in IH.
      destruct IH as [HD [HDj [HDjA [Hat Hfr]]]].
      repeat split; auto.
      all: apply Hfr.
      all: destruct H as [H|H]; [left; lia|].
      all: destruct (j - i)%nat as [|k] eqn:E;
        [left; lia | right; replace (j - S i)%nat with k by lia; exact H].
Qed.

(** X16.  [cryptid_keygen_ABE] stores [D] before it turns to the attributes.
    Let the field order be other than 0 and let [k] be the inverse of [beta]
    modulo the field order, or 0 if [beta] has no inverse.  When the three
    multiplications that lead to [D] succeed, the key holds [D],
    [k] times ([r] times [g_alpha]), whatever status the call returns: a
    failure for one of the attributes leaves a key with [D] and with the
    components of the attributes handled before. *)
Theorem keygen_ABE_stores_D_first
    (masterkey : ABE.MasterKey_ABE) (attributes_ : list String.string)
    (secretkey : ABE.SecretKey_ABE) (rng rng1 : Rand prim)
    (r k : mpz) (Gr Gar GarBi : AffinePoint) :
  let publickey := masterkey.(ABE.mk_pubkey) in
  let ec := publickey.(ABE.ellipticCurve) in
  ABE_randomNumber publickey rng = (r, rng1) ->
  AFFINE_MULTIPLY_IMPL prim r publickey.(ABE.g) ec = (CRYPTID_SUCCESS, Gr) ->
  AFFINE_MULTIPLY_IMPL prim r masterkey.(ABE.g_alpha) ec = (CRYPTID_SUCCESS, Gar) ->
  ec.(fieldOrder) <> 0 ->
  inverse_or_zero masterkey.(ABE.beta) ec.(fieldOrder) k ->
  AFFINE_MULTIPLY_IMPL prim k Gar ec = (CRYPTID_SUCCESS, GarBi) ->
  ABE.D (snd (fst (ABE.cryptid_keygen_ABE prim ATTRIBUTE_LENGTH ABE_randomNumber
                     masterkey attributes_ secretkey rng)))
  = GarBi.
Proof.
  intros publickey ec Hr HGr HGar Hp Hk HD.
  rewrite (inverse_or_zero_unique _ _ _ _ Hk
             (mpz_invert_inverse_or_zero masterkey.(ABE.beta) ec.(fieldOrder) Hp)) in HD.
  unfold ABE.cryptid_keygen_ABE. fold publickey. rewrite Hr.
  fold ec. rewrite HGr. cbn [failed]. rewrite HGar. cbn [failed].
  rewrite HD. cbn [failed].
  destruct (keygen_loop_frame masterkey Gr attributes_ 0
              (ABE.set_D secretkey GarBi) rng1) as [E _].
  exact E.
Qed.

(** X17.  [cryptid_keygen_ABE] does not clear the key it fills.  For every
    index at which the array of attributes holds the empty string, the
    entries of [Dj], [DjA] and [attributes] of the key are after the call
    what they were before, whatever the status; and the three arrays keep
    their lengths. *)
Theorem keygen_ABE_keeps_unused_entries
    (masterkey : ABE.MasterKey_ABE) (attributes_ : list String.string)
    (secretkey : ABE.SecretKey_ABE) (rng : Rand prim) (j : nat) :
  ABE.nonempty (nth j attributes_ String.EmptyString) = false ->
  let sk' := snd (fst (ABE.cryptid_keygen_ABE prim ATTRIBUTE_LENGTH ABE_randomNumber
                         masterkey attributes_ secretkey rng)) in
  (forall d, nth j sk'.(ABE.Dj) d = nth j secretkey.(ABE.Dj) d)
  /\ (forall d, nth j sk'.(ABE.DjA) d = nth j secretkey.(ABE.DjA) d)
  /\ (forall d, nth j sk'.(ABE.attributes) d = nth j secretkey.(ABE.attributes) d)
  /\ length sk'.(ABE.Dj) = length secretkey.(ABE.Dj)
  /\ length sk'.(ABE.DjA) = length secretkey.(ABE.DjA)
  /\ length sk'.(ABE.attributes) = length secretkey.(ABE.attributes).
Proof.
  intros Hj. unfold ABE.cryptid_keygen_ABE.
  destruct (ABE_randomNumber _ rng) as [r g1].
  destruct (AFFINE_MULTIPLY_IMPL prim r _ _) as [s1 Gr].
  destruct (failed s1); [cbn; repeat split; reflexivity|].
  destruct (AFFINE_MULTIPLY_IMPL prim r (ABE.g_alpha masterkey) _) as [s2 Gar].
  destruct (failed s2); [cbn; repeat split; reflexivity|].
  destruct (AFFINE_MULTIPLY_IMPL prim _ Gar _) as [s3 GarBi].
  destruct (failed s3); [cbn; repeat split; reflexivity|].
  destruct (keygen_loop_frame masterkey Gr attributes_ 0
              (ABE.set_D secretkey GarBi) g1) as [_ [L1 [L2 [L3 Hfr]]]].
  destruct (Hfr j) as [E1 [E2 E3]];
    [right; rewrite Nat.sub_0_r; exact Hj|].
  cbn in *. repeat split; auto.
Qed.

End KeygenFacts.

Lemma keygen_ABE_stores_D_first_witness :
  ABE.D (snd (fst (ABE.cryptid_keygen_ABE Toy.primitives Toy.ATTRIBUTE_LENGTH
                     Toy.ABE_randomNumber Examples.mk Examples.attributes_a
                     Examples.blank_sk Toy.counting)))
  = Affine 1512 0.
Proof.
  apply (keygen_ABE_stores_D_first Toy.primitives Toy.ATTRIBUTE_LENGTH
           Toy.ABE_randomNumber Examples.mk Examples.attributes_a Examples.blank_sk
           Toy.counting (fun n => Toy.counting (S n)) 1 21
           (Affine 24 0) (Affine 72 0) (Affine 1512 0)).
  - reflexivity.
  - reflexivity.
  - reflexivity.
  - vm_compute. discriminate.
  - left. vm_compute. repeat split; discriminate.
  - reflexivity.
Defined.

Lemma keygen_ABE_keeps_unused_entries_witness :
  let sk' := snd (fst (ABE.cryptid_keygen_ABE Toy.primitives Toy.ATTRIBUTE_LENGTH
                         Toy.ABE_randomNumber Examples.mk Examples.attributes_a
                         Examples.sk_a Toy.counting)) in
  (forall d, nth 1 sk'.(ABE.Dj) d = nth 1 Examples.sk_a.(ABE.Dj) d)
  /\ (forall d, nth 1 sk'.(ABE.DjA) d = nth 1 Examples.sk_a.(ABE.DjA) d)
  /\ (forall d, nth 1 sk'.(ABE.attributes) d = nth 1 Examples.sk_a.(ABE.attributes) d)
  /\ length sk'.(ABE.Dj) = length Examples.sk_a.(ABE.Dj)
  /\ length sk'.(ABE.DjA) = length Examples.sk_a.(ABE.DjA)
  /\ length sk'.(ABE.attributes) = length Examples.sk_a.(ABE.attributes).
Proof.
  apply (keygen_ABE_keeps_unused_entries Toy.primitives Toy.ATTRIBUTE_LENGTH
           Toy.ABE_randomNumber Examples.mk Examples.attributes_a Examples.sk_a
           Toy.counting 1).
  reflexivity.
Defined.

(* ================================================================== *)
(** ** The attribute search of [DecryptNode_ABE] *)

Lemma find_attribute_from (attrs : list String.string) (target : String.string) :
  forall i,
    let found := ABE.find_attribute attrs target i in
    (found = -1
     /\ forall a, In a attrs -> ABE.nonempty a = true -> a <> target)
    \/ (i <= found < i + Z.of_nat (length attrs)
        /\ nth (Z.to_nat (found - i)) attrs String.EmptyString = target
        /\ ABE.nonempty target = true
        /\ forall k, (k < Z.to_nat (found - i))%nat ->
                     ABE.nonempty (nth k attrs String.EmptyString) = true ->
                     nth k attrs String.EmptyString <> target)
    \/ (i < 0 /\ found < 0).
Proof.
  induction attrs as [|a rest IH]; intros i.
  - left. split; [reflexivity|]. intros a [].
  - cbn [ABE.find_attribute].
    destruct (ABE.nonempty a && String.eqb a target) eqn:E.
    + apply andb_true_iff in E as [Hne Heq]. apply String.eqb_eq in Heq. subst a.
      right. left. cbn [length]. rewrite Z.sub_diag. simpl Z.to_nat.
      repeat split; try lia; auto; intros; lia.
    + assert (Hskip : ABE.nonempty a = true -> a <> target).
      { intros Hne ->. rewrite Hne, String.eqb_refl in E. discriminate. }
      specialize (IH (i + 1)). cbv zeta in IH.
      destruct IH as [[Hm Hall] | [[Hr [Hn [Hne Hfirst]]] | [Hi Hf]]].
      * left. split; [exact Hm|]. intros b [<-|Hb]; auto.
      * right. left. cbn [length].
        replace (Z.to_nat (ABE.find_attribute rest target (i + 1) - i))
          with (S (Z.to_nat (ABE.find_attribute rest target (i + 1) - (i + 1)))) by lia.
        repeat split; try lia; auto.
        intros k Hk Hnek. destruct k as [|k]; [now apply Hskip|].
        apply Hfirst; [lia | exact Hnek].
      * destruct (Z.eq_dec (ABE.find_attribute rest target (i + 1)) (-1)) as [Em|Em].
        -- destruct (Z_lt_ge_dec i 0) as [Hi0|Hi0]; [right; right; lia|].
           lia.
        -- right. right. lia.
Qed.

(** X18.  The search for the attribute of a leaf among the attributes of the
    key.  It gives -1 when no entry in use equals the attribute; otherwise
    it gives the index of the first such entry, an index inside the array.
    The empty string is never found, since an empty entry counts as not in
    use. *)
Theorem find_attribute_first_match (attrs : list String.string) (target : String.string) :
  let found := ABE.find_attribute attrs target 0 in
  ((found = -1
    /\ forall a, In a attrs -> ABE.nonempty a = true -> a <> target)
   \/ (0 <= found < Z.of_nat (length attrs)
       /\ nth (Z.to_nat found) attrs String.EmptyString = target
       /\ ABE.nonempty target = true
       /\ forall k, (k < Z.to_nat found)%nat ->
                    ABE.nonempty (nth k attrs String.EmptyString) = true ->
                    nth k attrs String.EmptyString <> target))
  /\ ABE.find_attribute attrs String.EmptyString 0 = -1.
Proof.
  split.
  - destruct (find_attribute_from attrs target 0) as [H | [H | [H _]]].
    + left. exact H.
    + right. rewrite Z.sub_0_r in H. exact H.
    + lia.
  - destruct (find_attribute_from attrs String.EmptyString 0)
      as [[H _] | [[_ [_ [H _]]] | [H _]]]; [exact H | discriminate | lia].
Qed.

(* ================================================================== *)
(** ** [DecryptNode_ABE] *)

(** X19.  On a leaf [DecryptNode_ABE] always returns.  Whenever the call
    returns, on a leaf or not, it has either left both [*result] and
    [*statusCode] as they were, or it has stored a value in [*result] and 1
    in [*statusCode] and returns [CRYPTID_SUCCESS]; the latter happens on a
    leaf only.  A failing status therefore comes with untouched out
    parameters. *)
Theorem DecryptNode_changes_outputs_together
    (prim : Primitives) (isLeaf : ABE.AccessTree -> bool)
    (stack : ABE.Indeterminate) (encrypted : ABE.EncryptedMessage_ABE)
    (secretkey : ABE.SecretKey_ABE) (node : ABE.AccessTree)
    (result : Complex) (statusCode : Z) :
  match ABE.DecryptNode_ABE prim isLeaf stack encrypted secretkey node
          result statusCode with
  | Some (status, result', statusCode') =>
      (result' = result /\ statusCode' = statusCode)
      \/ (statusCode' = 1 /\ status = CRYPTID_SUCCESS /\ isLeaf node = true)
  | None => isLeaf node = false
  end.
Proof.
  destruct (isLeaf node) eqn:Hleaf.
  - destruct node as [v cs a al cy cya]. simpl. rewrite Hleaf.
    destruct (0 <=? _); [|auto].
    destruct (tate_performPairing prim _ _ _ _ cy) as [s1 pv].
    destruct (failed s1); [auto|].
    destruct (tate_performPairing prim _ _ _ _ cya) as [s2 pvA].
    destruct (failed s2); [auto|].
    destruct (complex_multiplicativeInverse prim pvA _) as [s3 inv].
    destruct (failed s3); auto.
  - rewrite DecryptNode_gate_outcome by exact Hleaf.
    destruct (_ && _); auto.
Qed.

(* ================================================================== *)
(** ** [cryptid_decrypt_ABE] *)

(** X20.  [cryptid_decrypt_ABE] hides the error of a pairing.  When the tree
    is a single leaf, the key holds its attribute and the pairing of the
    matching [Dj] with [Cy] fails with some status, the call does not return
    that status: it returns [CRYPTID_ILLEGAL_PRIVATE_KEY_ERROR], as for a key
    that does not satisfy the tree. *)
Theorem decrypt_ABE_hides_pairing_error
    (prim : Primitives) (isLeaf : ABE.AccessTree -> bool)
    (satisfyValue : ABE.AccessTree -> list String.string -> Z)
    (stack : ABE.Indeterminate) (result : list byte)
    (encrypted : ABE.EncryptedMessage_ABE) (secretkey : ABE.SecretKey_ABE)
    (status : CryptidStatus) (junk : Complex) :
  let root := encrypted.(ABE.tree) in
  let pubkey := secretkey.(ABE.sk_pubkey) in
  let found := ABE.find_attribute secretkey.(ABE.attributes) root.(ABE.attribute) 0 in
  satisfyValue root secretkey.(ABE.attributes) <> 0 ->
  isLeaf root = true ->
  0 <= found ->
  tate_performPairing prim 2 pubkey.(ABE.ellipticCurve) pubkey.(ABE.q)
    (nth (Z.to_nat found) secretkey.(ABE.Dj) Infinity) root.(ABE.Cy) = (status, junk) ->
  failed status = true ->
  ABE.cryptid_decrypt_ABE prim isLeaf satisfyValue stack result encrypted secretkey
  = Some (CRYPTID_ILLEGAL_PRIVATE_KEY_ERROR, result, None).
Proof.
  intros root pubkey found Hsat Hleaf Hfound Hpair Hfail.
  unfold ABE.cryptid_decrypt_ABE. fold root.
  destruct (satisfyValue root _ =? 0) eqn:E; [apply Z.eqb_eq in E; contradiction|].
  destruct root as [v cs a al cy cya] eqn:Hroot. simpl in *.
  rewrite Hleaf. fold found.
  destruct (0 <=? found) eqn:E0; [|apply Z.leb_gt in E0; lia].
  fold pubkey. rewrite Hpair, Hfail. reflexivity.
Qed.

Lemma decrypt_ABE_hides_pairing_error_witness :
  ABE.cryptid_decrypt_ABE Toy.primitives_failing_pairing Toy.isLeaf Toy.satisfyValue
    (ABE.mkIndeterminate (mkComplex 9 9) [ABE.NullPointer; ABE.NullPointer] [])
    [Byte.x00] (Examples.encrypted_under Examples.leaf_a) Examples.sk_a
  = Some (CRYPTID_ILLEGAL_PRIVATE_KEY_ERROR, [Byte.x00], None).
Proof.
  apply (decrypt_ABE_hides_pairing_error Toy.primitives_failing_pairing Toy.isLeaf
           Toy.satisfyValue
           (ABE.mkIndeterminate (mkComplex 9 9) [ABE.NullPointer; ABE.NullPointer] [])
           [Byte.x00] (Examples.encrypted_under Examples.leaf_a) Examples.sk_a
           (CRYPTID_PRIMITIVE_ERROR 1) (mkComplex 0 0)).
  - vm_compute. discriminate.
  - reflexivity.
  - vm_compute. discriminate.
  - reflexivity.
  - reflexivity.
Defined.

(** X21.  For a tree whose root is a gate, [cryptid_decrypt_ABE] never
    returns [CRYPTID_SUCCESS] and never prints a value.  When the key does
    not satisfy the tree, or when every call on a child of the root returns
    and none of them succeeds, it returns
    [CRYPTID_ILLEGAL_PRIVATE_KEY_ERROR] and the buffer is what it was.  In
    every other case, in particular when the key satisfies the tree and a
    child of the root succeeds, the call has no result, for
    [DecryptNode_ABE] has none on the root. *)
Theorem decrypt_ABE_gate_root_never_succeeds
    (prim : Primitives) (isLeaf : ABE.AccessTree -> bool)
    (satisfyValue : ABE.AccessTree -> list String.string -> Z)
    (stack : ABE.Indeterminate) (result : list byte)
    (encrypted : ABE.EncryptedMessage_ABE) (secretkey : ABE.SecretKey_ABE) :
  let root := encrypted.(ABE.tree) in
  isLeaf root = false ->
  ABE.cryptid_decrypt_ABE prim isLeaf satisfyValue stack result encrypted secretkey
  = if (satisfyValue root secretkey.(ABE.attributes) =? 0)
       || (forallb (ABE.child_returns prim isLeaf stack encrypted secretkey)
             root.(ABE.children)
           && (ABE.successful_children prim isLeaf stack encrypted secretkey root =? 0))
    then Some (CRYPTID_ILLEGAL_PRIVATE_KEY_ERROR, result, None)
    else None.
Proof.
  intros root Hleaf.
  unfold ABE.cryptid_decrypt_ABE. fold root.
  destruct (satisfyValue root _ =? 0); [reflexivity|].
  rewrite DecryptNode_gate_outcome by exact Hleaf.
  cbn [orb].
  destruct (_ && _); reflexivity.
Qed.

Lemma decrypt_ABE_gate_root_never_succeeds_witness :
  ABE.cryptid_decrypt_ABE Toy.primitives Toy.isLeaf Toy.satisfyValue
    (ABE.mkIndeterminate (mkComplex 9 9) [ABE.NullPointer; ABE.NullPointer] [])
    [Byte.x00] (Examples.encrypted_under Examples.a_and_b_or_a) Examples.sk_a
  = None.
Proof.
  apply (decrypt_ABE_gate_root_never_succeeds Toy.primitives Toy.isLeaf
           Toy.satisfyValue
           (ABE.mkIndeterminate (mkComplex 9 9) [ABE.NullPointer; ABE.NullPointer] [])
           [Byte.x00] (Examples.encrypted_under Examples.a_and_b_or_a) Examples.sk_a).
  reflexivity.
Defined.

(* ================================================================== *)
(** ** [Lagrange_coefficient] *)

Lemma wrap_int_in_range (z : Z) :
  INT_MIN <= z < 2 ^ 31 -> wrap_int z = z.
Proof.
  unfold wrap_int, INT_MIN, INT_MODULUS. intros H.
  rewrite Z.mod_small; lia.
Qed.

(** Once the product is 0 it stays 0, and for indexes that are [int]s from 0
    up no division of the loop is without a result. *)
Lemma Lagrange_coefficient_loop_zero (xi : Z) (S : list Z) :
  0 <= xi < 2 ^ 31 ->
  Forall (fun Si => 0 <= Si < 2 ^ 31) S ->
  Lagrange_coefficient_loop xi S 0 0 = Some 0.
Proof.
  intros Hxi HS. induction HS as [|Si rest HSi _ IH]; [reflexivity|].
  cbn [Lagrange_coefficient_loop]. destruct (Si =? xi) eqn:E; [exact IH|].
  apply Z.eqb_neq in E. cbn [negb].
  unfold int_sub.
  rewrite !wrap_int_in_range by (unfold INT_MIN; lia).
  unfold int_div.
  destruct (xi - Si =? 0) eqn:E0; [apply Z.eqb_eq in E0; lia|].
  destruct (0 - Si =? INT_MIN) eqn:E1; [apply Z.eqb_eq in E1; unfold INT_MIN in E1; lia|].
  cbn [andb]. unfold int_mul. rewrite Z.mul_0_l. change (wrap_int 0) with 0. exact IH.
Qed.

(** X22.  When the index 0 is the first member of the set, every other
    coefficient at 0 vanishes: the factor of the member 0 is
    (0 - 0)/(xi - 0) = 0, and no later factor brings the product back.  This
    is stated for sets of indexes that are [int]s from 0 up, as
    [DecryptNode_ABE] collects them in ascending order; no division of the
    function is then without a result and no product leaves the range of
    [int]. *)
Theorem Lagrange_coefficient_vanishes_with_index_zero (xi : Z) (rest : list Z) :
  0 < xi < 2 ^ 31 ->
  Forall (fun Si => 0 <= Si < 2 ^ 31) rest ->
  Lagrange_coefficient xi (0 :: rest) 0 = Some 0.
Proof.
  intros Hxi Hrest. unfold Lagrange_coefficient.
  cbn [Lagrange_coefficient_loop].
  destruct (0 =? xi) eqn:E; [apply Z.eqb_eq in E; lia|]. cbn [negb].
  unfold int_sub. rewrite Z.sub_diag, Z.sub_0_r.
  rewrite !wrap_int_in_range by (unfold INT_MIN; lia).
  unfold int_div.
  destruct (xi =? 0) eqn:E0; [apply Z.eqb_eq in E0; lia|].
  change (0 =? INT_MIN) with false. cbn [andb].
  rewrite Z.quot_0_l by lia.
  unfold int_mul. rewrite Z.mul_0_r. change (wrap_int 0) with 0.
  apply Lagrange_coefficient_loop_zero; [lia | exact Hrest].
Qed.

Lemma Lagrange_coefficient_vanishes_with_index_zero_witness :
  Lagrange_coefficient 1 [0; 2] 0 = Some 0.
Proof.
  apply (Lagrange_coefficient_vanishes_with_index_zero 1 [2]).
  - lia.
  - repeat constructor; lia.
Defined.

(* ================================================================== *)
(** ** The tree builder of the formal-language test *)

Lemma string_length_append (a b : String.string) :
  String.length (String.append a b) = (String.length a + String.length b)%nat.
Proof.
  induction a as [|c a IH]; simpl; [reflexivity | now rewrite IH].
Qed.

Section TreeBuilderFacts.

Import String.StringSyntax.
Local Open Scope string_scope.

Variable Heap : Type.
Variable allocate : Z -> Heap -> bool * Heap.
Variables sizeof_tree sizeof_operators : Z.

#[local] Abbreviation build :=
  (FormalLanguageTest.buildRandomAuthorizationTree Heap allocate
     sizeof_tree sizeof_operators).

Lemma size_add_small (a b : Z) :
  0 <= a + b < FormalLanguageTest.SIZE_MODULUS ->
  FormalLanguageTest.size_add a b = a + b.
Proof. intros H. unfold FormalLanguageTest.size_add. now apply Z.mod_small. Qed.

Lemma formula_size_bound (depth : Z) :
  0 <= depth <= 59 -> 0 < 2 ^ depth /\ 19 * 2 ^ depth < FormalLanguageTest.SIZE_MODULUS.
Proof.
  intros H.
  pose proof (Z.pow_le_mono_r 2 depth 59 ltac:(lia) ltac:(lia)) as Hle.
  pose proof (Z.pow_pos_nonneg 2 depth ltac:(lia) ltac:(lia)) as Hpos.
  change (2 ^ 59) with 576460752303423488 in Hle.
  unfold FormalLanguageTest.SIZE_MODULUS.
  change (2 ^ 64) with 18446744073709551616. lia.
Qed.

(** X23.  Take a depth from 0 to 59, a pointer [authorizationFormula] that
    points to an object, and an allocator that serves every request of
    [buildRandomAuthorizationTree] up to the size of the formula.  Then the
    call returns, and no [strcpy] or [strcat] of it writes past the buffer
    allocated for it.  The tree it stores is a perfect tree of AND gates of
    that depth, the string it returns is the formula of that tree, and the
    string is 19 * 2^depth - 5 characters long.  (From the depth 60 on the
    size of the formula is no [size_t].) *)
Theorem buildRandomAuthorizationTree_returns_formula_of_tree
    (fuel : nat) (depth : Z) (heap : Heap) :
  0 <= depth <= 59 ->
  (Z.to_nat depth < fuel)%nat ->
  0 <= sizeof_tree < FormalLanguageTest.SIZE_MODULUS ->
  (forall size h,
      size = sizeof_tree \/ size = sizeof_operators \/ 0 <= size <= 19 * 2 ^ depth ->
      fst (allocate size h) = true) ->
  exists tree formula heap',
    build fuel true depth heap = FormalLanguageTest.Returns (tree, formula, heap')
    /\ FormalLanguageTest.formula_of tree = Some formula
    /\ FormalLanguageTest.perfect (Z.to_nat depth) tree = true
    /\ Z.of_nat (String.length formula) = 19 * 2 ^ depth - 5.
Proof.
  intros Hd Hf Hsize Halloc.
  assert (Hcalloc1 : forall h,
             FormalLanguageTest.calloc Heap allocate 1 sizeof_tree h
             = (true, snd (allocate sizeof_tree h))).
  { intros h. unfold FormalLanguageTest.calloc. rewrite Z.mul_1_l.
    destruct (sizeof_tree <? _) eqn:E; [|apply Z.ltb_ge in E; lia].
    specialize (Halloc sizeof_tree h (or_introl eq_refl)).
    destruct (allocate sizeof_tree h). simpl in *. now subst. }
  revert depth heap Hd Hf Halloc.
  induction fuel as [|fuel IH]; intros depth heap Hd Hf Halloc; [lia|].
  cbn [FormalLanguageTest.buildRandomAuthorizationTree].
  rewrite Hcalloc1. cbn [negb].
  destruct (depth =? 0) eqn:E.
  - apply Z.eqb_eq in E. subst depth.
    unfold FormalLanguageTest.malloc.
    pose proof (Halloc 18 (snd (allocate sizeof_tree heap))
                  ltac:(right; right; simpl; lia)) as A1.
    change (FormalLanguageTest.size_add
              (FormalLanguageTest.strlen FormalLanguageTest.leaf_value)
              (FormalLanguageTest.size_mul 1 FormalLanguageTest.sizeof_int)) with 18.
    destruct (allocate 18 _) as [ok1 h1]. simpl in A1. subst ok1. cbn [negb].
    change (FormalLanguageTest.strcpy 18 FormalLanguageTest.leaf_value)
      with (Some FormalLanguageTest.leaf_value).
    change (FormalLanguageTest.size_add
              (FormalLanguageTest.strlen FormalLanguageTest.leaf_value) 1) with 15.
    unfold FormalLanguageTest.calloc.
    change (15 * FormalLanguageTest.sizeof_char <? FormalLanguageTest.SIZE_MODULUS)
      with true.
    change (15 * FormalLanguageTest.sizeof_char) with 15.
    pose proof (Halloc 15 h1 ltac:(right; right; simpl; lia)) as A2.
    destruct (allocate 15 h1) as [ok2 h2]. simpl in A2. subst ok2. cbn [negb].
    change (FormalLanguageTest.strcpy 15 FormalLanguageTest.leaf_value)
      with (Some FormalLanguageTest.leaf_value).
    eexists _, _, _. repeat split; reflexivity.
  - apply Z.eqb_neq in E.
    destruct (formula_size_bound depth Hd) as [Hpos Hbound].
    assert (Hpow : 2 ^ depth = 2 * 2 ^ (depth - 1)).
    { replace depth with (Z.succ (depth - 1)) at 1 by lia.
      apply Z.pow_succ_r. lia. }
    unfold FormalLanguageTest.malloc.
    pose proof (Halloc sizeof_operators (snd (allocate sizeof_tree heap))
                  ltac:(right; left; reflexivity)) as A1.
    destruct (allocate sizeof_operators _) as [ok1 h1]. simpl in A1. subst ok1.
    cbn [negb].
    rewrite Hcalloc1.
    unfold int_sub. rewrite wrap_int_in_range by (unfold INT_MIN; lia).
    assert (Halloc' : forall size h,
               size = sizeof_tree \/ size = sizeof_operators
               \/ 0 <= size <= 19 * 2 ^ (depth - 1) ->
               fst (allocate size h) = true).
    { intros size h [Hs | [Hs | Hs]]; apply Halloc; auto.
      right; right. lia. }
    destruct (IH (depth - 1) (snd (allocate sizeof_tree h1))
                ltac:(lia) ltac:(lia) Halloc')
      as (tl & fl & hl & Hbl & Hforml & Hperfl & Hlenl).
    rewrite Hbl. rewrite Hcalloc1.
    destruct (IH (depth - 1) (snd (allocate sizeof_tree hl))
                ltac:(lia) ltac:(lia) Halloc')
      as (tr & fr & hr & Hbr & Hformr & Hperfr & Hlenr).
    rewrite Hbr.
    unfold FormalLanguageTest.strlen.
    assert (Hcap : FormalLanguageTest.size_add
                     (FormalLanguageTest.size_add
                        (FormalLanguageTest.size_add (Z.of_nat (String.length fl)) 5)
                        (Z.of_nat (String.length fr))) 1
                   = Z.of_nat (String.length fl) + 5 + Z.of_nat (String.length fr) + 1).
    { rewrite (size_add_small (Z.of_nat (String.length fl)) 5) by lia.
      rewrite (size_add_small _ (Z.of_nat (String.length fr))) by lia.
      apply size_add_small. lia. }
    rewrite Hcap. clear Hcap.
    set (capacity := Z.of_nat (String.length fl) + 5 + Z.of_nat (String.length fr) + 1).
    unfold FormalLanguageTest.calloc.
    change FormalLanguageTest.sizeof_char with 1. rewrite Z.mul_1_r.
    destruct (capacity <? _) eqn:Ecap; [|apply Z.ltb_ge in Ecap; unfold capacity in Ecap; lia].
    pose proof (Halloc capacity hr ltac:(right; right; unfold capacity; lia)) as A2.
    destruct (allocate capacity hr) as [ok2 h2]. simpl in A2. subst ok2. cbn [negb].
    assert (L1 : FormalLanguageTest.strcpy capacity fl = Some fl).
    { unfold FormalLanguageTest.strcpy, FormalLanguageTest.strlen.
      destruct (_ <=? _) eqn:L; [reflexivity | apply Z.leb_gt in L; unfold capacity in L; lia]. }
    assert (L2 : FormalLanguageTest.strcat capacity fl " AND "
                 = Some (String.append fl " AND ")).
    { unfold FormalLanguageTest.strcat, FormalLanguageTest.strlen. simpl String.length.
      destruct (_ <=? _) eqn:L; [reflexivity | apply Z.leb_gt in L; unfold capacity in L; lia]. }
    assert (L3 : FormalLanguageTest.strcat capacity (String.append fl " AND ") fr
                 = Some (String.append (String.append fl " AND ") fr)).
    { unfold FormalLanguageTest.strcat, FormalLanguageTest.strlen.
      rewrite string_length_append. simpl String.length.
      destruct (_ <=? _) eqn:L; [reflexivity | apply Z.leb_gt in L; unfold capacity in L; lia]. }
    rewrite L1, L2, L3. cbn [negb].
    eexists _, _, _. split; [reflexivity|]. split; [|split].
    + simpl. rewrite Hforml, Hformr. reflexivity.
    + replace (Z.to_nat depth) with (S (Z.to_nat (depth - 1))) by lia.
      simpl. rewrite Hperfl, Hperfr. reflexivity.
    + rewrite !string_length_append. simpl String.length. lia.
Qed.

(** X24.  The builder tests [depth == 0] only.  Called with a negative depth
    it keeps calling itself with depth - 1: no chain of nested calls that
    stays above the least [int] returns, whatever the allocator does; and
    when the allocator serves the requests for a tree node and for an
    operator, the call is still running when the chain ends. *)
Theorem buildRandomAuthorizationTree_negative_depth
    (fuel : nat) (authorizationFormula : bool) (depth : Z) (heap : Heap) :
  INT_MIN <= depth < 0 ->
  Z.of_nat fuel <= depth - INT_MIN + 1 ->
  (forall x, build fuel authorizationFormula depth heap <> FormalLanguageTest.Returns x)
  /\ (0 <= sizeof_tree < FormalLanguageTest.SIZE_MODULUS ->
      (forall h, fst (allocate sizeof_tree h) = true) ->
      (forall h, fst (allocate sizeof_operators h) = true) ->
      build fuel authorizationFormula depth heap = FormalLanguageTest.StillRunning).
Proof.
  revert authorizationFormula depth heap.
  induction fuel as [|fuel IH]; intros flag depth heap Hd Hf.
  { split; [intros x; discriminate | reflexivity]. }
  cbn [FormalLanguageTest.buildRandomAuthorizationTree].
  destruct (depth =? 0) eqn:E; [apply Z.eqb_eq in E; lia|].
  destruct fuel as [|fuel'].
  { split.
    - intros x.
      destruct (FormalLanguageTest.calloc _ _ 1 _ heap) as [ok0 h0].
      destruct ok0; [|discriminate]. cbn [negb].
      destruct (FormalLanguageTest.malloc _ _ _ h0) as [ok1 h1].
      destruct ok1; [|discriminate]. cbn [negb].
      destruct (FormalLanguageTest.calloc _ _ 1 _ h1) as [ok2 h2].
      discriminate.
    - intros Hsize Htree Hop.
      destruct (FormalLanguageTest.calloc _ _ 1 _ heap) as [ok0 h0] eqn:C0.
      assert (ok0 = true) as ->.
      { unfold FormalLanguageTest.calloc in C0. rewrite Z.mul_1_l in C0.
        destruct (_ <? _) eqn:L; [|apply Z.ltb_ge in L; lia].
        specialize (Htree heap). rewrite C0 in Htree. exact Htree. }
      cbn [negb]. unfold FormalLanguageTest.malloc.
      specialize (Hop h0). destruct (allocate sizeof_operators h0) as [ok1 h1].
      simpl in Hop. subst ok1. cbn [negb].
      destruct (FormalLanguageTest.calloc _ _ 1 _ h1) as [ok2 h2].
      reflexivity. }
  assert (Hsub : int_sub depth 1 = depth - 1).
  { unfold int_sub. apply wrap_int_in_range. unfold INT_MIN in *. lia. }
  rewrite Hsub.
  split.
  - intros x.
    destruct (FormalLanguageTest.calloc _ _ 1 _ heap) as [ok0 h0].
    destruct ok0; [|discriminate]. cbn [negb].
    destruct (FormalLanguageTest.malloc _ _ _ h0) as [ok1 h1].
    destruct ok1; [|discriminate]. cbn [negb].
    destruct (FormalLanguageTest.calloc _ _ 1 _ h1) as [ok2 h2].
    destruct (IH ok2 (depth - 1) h2 ltac:(lia) ltac:(lia)) as [Hnot _].
    destruct (build (S fuel') ok2 (depth - 1) h2) as [r| | |];
      [exfalso; exact (Hnot r eq_refl) | discriminate | discriminate | discriminate].
  - intros Hsize Htree Hop.
    destruct (FormalLanguageTest.calloc _ _ 1 _ heap) as [ok0 h0] eqn:C0.
    assert (ok0 = true) as ->.
    { unfold FormalLanguageTest.calloc in C0. rewrite Z.mul_1_l in C0.
      destruct (_ <? _) eqn:L; [|apply Z.ltb_ge in L; lia].
      specialize (Htree heap). rewrite C0 in Htree. exact Htree. }
    cbn [negb]. unfold FormalLanguageTest.malloc.
    pose proof (Hop h0) as Hop0. destruct (allocate sizeof_operators h0) as [ok1 h1].
    simpl in Hop0. subst ok1. cbn [negb].
    destruct (FormalLanguageTest.calloc _ _ 1 _ h1) as [ok2 h2].
    destruct (IH ok2 (depth - 1) h2 ltac:(lia) ltac:(lia)) as [_ Hrun].
    rewrite (Hrun Hsize Htree Hop). reflexivity.
Qed.

End TreeBuilderFacts.

Lemma buildRandomAuthorizationTree_returns_formula_of_tree_witness :
  exists tree formula heap',
    FormalLanguageTest.buildRandomAuthorizationTree unit FormalLanguageTest.serves_all
      24 4 4 true 3 tt
    = FormalLanguageTest.Returns (tree, formula, heap')
    /\ FormalLanguageTest.formula_of tree = Some formula
    /\ FormalLanguageTest.perfect (Z.to_nat 3) tree = true
    /\ Z.of_nat (String.length formula) = 19 * 2 ^ 3 - 5.
Proof.
  apply (buildRandomAuthorizationTree_returns_formula_of_tree
           unit FormalLanguageTest.serves_all 24 4 4 3 tt).
  - lia.
  - simpl. lia.
  - unfold FormalLanguageTest.SIZE_MODULUS. lia.
  - intros size h Hsize. reflexivity.
Defined.

Lemma buildRandomAuthorizationTree_negative_depth_witness :
  (forall x,
      FormalLanguageTest.buildRandomAuthorizationTree unit FormalLanguageTest.serves_all
        24 4 50 true (-1) tt
      <> FormalLanguageTest.Returns x)
  /\ (0 <= 24 < FormalLanguageTest.SIZE_MODULUS ->
      (forall h, fst (FormalLanguageTest.serves_all 24 h) = true) ->
      (forall h, fst (FormalLanguageTest.serves_all 4 h) = true) ->
      FormalLanguageTest.buildRandomAuthorizationTree unit FormalLanguageTest.serves_all
        24 4 50 true (-1) tt
      = FormalLanguageTest.StillRunning).
Proof.
  apply (buildRandomAuthorizationTree_negative_depth
           unit FormalLanguageTest.serves_all 24 4 50 true (-1) tt).
  - unfold INT_MIN. lia.
  - unfold INT_MIN. lia.
Defined.
